(** * Probabilistic convergence on a 2D network

    A shallow embedding of [src/probabilistic_convergence.py]:
    - the simulation cycle: the subgroup search over the node pool, the
      subgroup-size pass with its consistency check, and the evolution of
      the decision distributions (equal-weight averaging, the linear
      multiplier that raises unipolarity, and the averaging weighted by
      subgroup sizes);
    - the reading of the network file and the construction of the
      connection matrix and of the connection lists from the node
      positions;
    - the simulation loop with its events, and the frame it draws after a
      cycle.

    Node and decision indices are [nat].  Probabilities are real numbers
    where numpy holds binary64 floats: the arithmetic of the model is
    exact, and a theorem that gives the value of a row, or its sum, gives
    the value that the program approximates within the rounding of its
    operations.  A theorem that compares the probabilities of a row before
    and after the linear multiplier is stated in the form that rounding
    keeps (at most as probable, not strictly less), or says that it needs
    exact arithmetic.  The module [FloatModel] renders the normalisation
    and the linear multiplier over IEEE binary64 floats: there a division
    by a zero sum has a value of its own, and the examples on it show what
    rounding does to strict comparisons.  Node positions are integers, file
    contents are strings of bytes.

    Python exceptions are results of the computations: [IndexError] for a
    list or an array indexed out of range, [ValueError] for [list.remove]
    and [max], [ZeroDivisionError] for the division of Python floats,
    [SystemExit] for the failed check of the subgroup sizes.  The [while]
    loops of the subgroup search and of the file reading run on fuel.  The
    calls that draw on the window are the commands of a frame; Python's
    [int] and the display positions of the nodes, which the functions of
    other modules compute, are taken as given. *)

From Stdlib Require Import String Ascii.
From Stdlib Require Import Reals Rpower Lra Lia List Arith ZArith Bool Permutation Sorted Floats.
Import ListNotations.

Set Implicit Arguments.

(** ** Python exceptions and the result of a computation *)

Inductive exn : Type :=
| IndexError          (* a list or array indexed out of range *)
| ValueError          (* list.remove(x) without x; max() of an empty list *)
| ZeroDivisionError   (* division of a Python float by zero *)
| SystemExit.         (* sys.exit() *)

(** [OutOfFuel] is not a Python outcome: it marks a [while] loop of the model
    that was given too few iterations.  The theorems show it never arises. *)
Inductive result (A : Type) : Type :=
| Ok (a : A)
| Raise (e : exn)
| OutOfFuel.

Arguments Ok {A} a.
Arguments Raise {A} e.
Arguments OutOfFuel {A}.

Definition bind {A B : Type} (c : result A) (k : A -> result B) : result B :=
  match c with
  | Ok a => k a
  | Raise e => Raise e
  | OutOfFuel => OutOfFuel
  end.

Notation "x <- c1 ;; c2" := (bind c1 (fun x => c2))
  (at level 61, c1 at next level, right associativity).
Notation "' pat <- c1 ;; c2" := (bind c1 (fun x => match x with pat => c2 end))
  (at level 61, pat pattern, c1 at next level, right associativity).

(** ** Python list operations *)

(** [l[i]] *)
Definition index {A : Type} (l : list A) (i : nat) : result A :=
  match nth_error l i with
  | Some x => Ok x
  | None => Raise IndexError
  end.

(** [l[i] = v] *)
Fixpoint set_item {A : Type} (l : list A) (i : nat) (v : A) : result (list A) :=
  match l, i with
  | [], _ => Raise IndexError
  | _ :: t, O => Ok (v :: t)
  | h :: t, S j => t' <- set_item t j v ;; Ok (h :: t')
  end.

(** [x in l] *)
Fixpoint mem (x : nat) (l : list nat) : bool :=
  match l with
  | [] => false
  | y :: t => if Nat.eqb x y then true else mem x t
  end.

(** [l.remove(x)]: drops the first occurrence, raises [ValueError] when there
    is none. *)
Fixpoint list_remove (x : nat) (l : list nat) : result (list nat) :=
  match l with
  | [] => Raise ValueError
  | y :: t => if Nat.eqb x y then Ok t else t' <- list_remove x t ;; Ok (y :: t')
  end.

(** ** The subgroup search (lines 214-253) *)

Module Detector.
Section Search.

(** The lists of connecting nodes of each node, and the dominant decision
    of each node. *)
Variable connection_lists : list (list nat).
Variable deci_domi : list nat.

(** The body of [for member in p_members_new]: the three nested tests and
    the append. *)
Definition add_potential (n_pool subgroup_temp p_members : list nat)
    (member : nat) : list nat :=
  if negb (mem member p_members) then
    if negb (mem member subgroup_temp) then
      if mem member n_pool then p_members ++ [member]
      else p_members
    else p_members
  else p_members.

Definition add_potentials (n_pool subgroup_temp p_members p_members_new : list nat)
    : list nat :=
  fold_left (add_potential n_pool subgroup_temp) p_members_new p_members.

(** [while p_index < len(p_members)]: returns the pool and the subgroup the
    loop leaves behind. *)
Fixpoint search_members (fuel : nat) (current_domi : nat)
    (n_pool p_members : list nat) (p_index : nat) (subgroup_temp : list nat)
    : result (list nat * list nat) :=
  match fuel with
  | O => OutOfFuel
  | S fuel' =>
      if p_index <? length p_members then
        candidate <- index p_members p_index ;;
        domi <- index deci_domi candidate ;;
        if domi =? current_domi then
          let new_member := candidate in
          p_members1 <- list_remove new_member p_members ;;
          n_pool1 <- list_remove new_member n_pool ;;
          let subgroup_temp1 := subgroup_temp ++ [new_member] in
          p_members_new <- index connection_lists new_member ;;
          let p_members2 :=
            add_potentials n_pool1 subgroup_temp1 p_members1 p_members_new in
          search_members fuel' current_domi n_pool1 p_members2 p_index
            subgroup_temp1
        else
          search_members fuel' current_domi n_pool p_members (p_index + 1)
            subgroup_temp
      else Ok (n_pool, subgroup_temp)
  end.

(** Every pass of the inner loop either moves the scan pointer or takes a
    node out of the pool, so the number of entries of the connection lists
    bounds its iterations. *)
Definition search_fuel : nat := S (list_sum (map (@length nat) connection_lists)).

(** [while len(n_pool) != 0] *)
Fixpoint search_subgroups (fuel : nat) (n_pool : list nat)
    (subgroups : list (list nat)) : result (list (list nat)) :=
  match fuel with
  | O => OutOfFuel
  | S fuel' =>
      match n_pool with
      | [] => Ok subgroups
      | first_member :: n_pool0 =>
          p_members <- index connection_lists first_member ;;
          current_domi <- index deci_domi first_member ;;
          '(n_pool1, subgroup_temp) <-
            search_members search_fuel current_domi n_pool0 p_members 0
              [first_member] ;;
          search_subgroups fuel' n_pool1 (subgroups ++ [subgroup_temp])
      end
  end.

(** Step 2 of the cycle: [n_pool = range(net_size)], then the search. *)
Definition update_subgroups (net_size : nat) : result (list (list nat)) :=
  search_subgroups (S net_size) (seq 0 net_size) [].

(** *** The subgroup size of each node (lines 256-266) *)

(** [for i in sub: subsizes[i] = size_temp; traverse_list.remove(i)] *)
Fixpoint assign_sizes (size_temp : nat) (sub : list nat)
    (subsizes traverse_list : list nat) : result (list nat * list nat) :=
  match sub with
  | [] => Ok (subsizes, traverse_list)
  | i :: sub' =>
      subsizes1 <- set_item subsizes i size_temp ;;
      traverse_list1 <- list_remove i traverse_list ;;
      assign_sizes size_temp sub' subsizes1 traverse_list1
  end.

Fixpoint assign_all (subgroups : list (list nat))
    (subsizes traverse_list : list nat) : result (list nat * list nat) :=
  match subgroups with
  | [] => Ok (subsizes, traverse_list)
  | sub :: rest =>
      '(subsizes1, traverse_list1) <-
        assign_sizes (length sub) sub subsizes traverse_list ;;
      assign_all rest subsizes1 traverse_list1
  end.

(** Step 3 of the cycle, with the check that every node was given a size:
    a node left in [traverse_list] ends the program. *)
Definition update_subsizes (net_size : nat) (subgroups : list (list nat))
    (subsizes : list nat) : result (list nat) :=
  '(subsizes1, traverse_list) <-
    assign_all subgroups subsizes (seq 0 net_size) ;;
  if negb (length traverse_list =? 0) then Raise SystemExit
  else Ok subsizes1.

End Search.
End Detector.

(** ** The decision distributions *)

Open Scope R_scope.

(** A distribution is one row of the [net_size] by [deci_num] array
    [deci_dist]; the array's shape fixes the length of every row, so entries
    of a row are read with [nth] and written with [upd].  An entry is a real
    number: the operations on rows are those of numpy without the rounding
    to binary64. *)
Definition row : Type := list R.
Definition matrix : Type := list row.

Fixpoint upd {A : Type} (l : list A) (k : nat) (v : A) : list A :=
  match l, k with
  | [], _ => []
  | _ :: t, O => v :: t
  | h :: t, S k' => h :: upd t k' v
  end.

(** Elementwise operations of numpy on rows of one length. *)
Fixpoint map2 (f : R -> R -> R) (a b : row) : row :=
  match a, b with
  | x :: a', y :: b' => f x y :: map2 f a' b'
  | _, _ => []
  end.

Definition np_sum (a : row) : R := fold_right Rplus 0 a.
Definition vadd (a b : row) : row := map2 Rplus a b.
Definition vsub (a b : row) : row := map2 Rminus a b.
Definition vabs (a : row) : row := map Rabs a.
Definition vscale (a : row) (c : R) : row := map (fun x => x * c) a.
Definition vdiv (a : row) (c : R) : row := map (fun x => x / c) a.

(** [np.sum(abs(a - b))] *)
Definition abs_diff (a b : row) : R := np_sum (vabs (vsub a b)).

(** [np.power(x, y)] on [x >= 0]: a zero base gives 0 for a positive
    exponent and 1 for the exponent 0. *)
Definition np_power (x y : R) : R :=
  if Req_dec_T x 0 then (if Req_dec_T y 0 then 1 else 0) else Rpower x y.

(** Division of a Python float by a Python number. *)
Definition py_div (x y : R) : result R :=
  if Req_dec_T y 0 then Raise ZeroDivisionError else Ok (x / y).

(** [max(l)] of a Python list. *)
Definition py_max (l : list R) : result R :=
  match l with
  | [] => Raise ValueError
  | x :: t => Ok (fold_left Rmax t x)
  end.

(** [np.argmax(a)]: the first index that holds the maximum. *)
Fixpoint argmax_from (best_index : nat) (best : R) (i : nat) (a : row) : nat :=
  match a with
  | [] => best_index
  | x :: a' =>
      if Rlt_dec best x then argmax_from i x (S i) a'
      else argmax_from best_index best (S i) a'
  end.

Definition np_argmax (a : row) : result nat :=
  match a with
  | [] => Raise ValueError
  | x :: a' => Ok (argmax_from 0 x 1 a')
  end.

(** [np.argmax(deci_dist, axis=1)] *)
Fixpoint argmax_rows (deci_dist : matrix) : result (list nat) :=
  match deci_dist with
  | [] => Ok []
  | r :: rest => d <- np_argmax r ;; ds <- argmax_rows rest ;; Ok (d :: ds)
  end.

(** Lines 148-150: each initial row divided by its sum. *)
Definition normalize_rows (deci_dist : matrix) : matrix :=
  map (fun r => vdiv r (np_sum r)) deci_dist.

(** A row divided by its sum. *)
Definition normalize (r : row) : row := vdiv r (np_sum r).

(** The sum of the rows of a host [i] and of its neighbors in the array
    [snapshot], the row of node [n] taken [weight n] times. *)
Definition clique_sum (weight : nat -> R) (snapshot : matrix) (i : nat)
    (neighbors : list nat) : row :=
  fold_left (fun acc n => vadd acc (vscale (nth n snapshot []) (weight n)))
    neighbors (vscale (nth i snapshot []) (weight i)).

(** A probability distribution over [deci_num] decisions. *)
Definition distribution (deci_num : nat) (r : row) : Prop :=
  length r = deci_num /\ Forall (fun x => 0 <= x) r /\ np_sum r = 1.

Definition dist_diff_thres : R := 3 / 10.
Definition dist_diff_power : R := 3 / 10.

Module Evolution.
Section Cycle.

Variable deci_num : nat.
Variable connection_lists : list (list nat).
Variable deci_domi : list nat.
Variable subsizes : list nat.
(** The copy of [deci_dist] taken before the loop over the nodes. *)
Variable deci_dist_t : matrix.

(** Lines 272-276: the loop with [break]. *)
Fixpoint all_agree (host_domi : nat) (neighbors : list nat) : result bool :=
  match neighbors with
  | [] => Ok true
  | neighbor :: rest =>
      domi <- index deci_domi neighbor ;;
      if negb (host_domi =? domi)%nat then Ok false
      else all_agree host_domi rest
  end.

(** Lines 282-284: [deci_dist[i] = deci_dist[i] + deci_dist_t[neighbor]]. *)
Fixpoint accumulate (deci_dist : matrix) (i : nat) (neighbors : list nat)
    : result matrix :=
  match neighbors with
  | [] => Ok deci_dist
  | neighbor :: rest =>
      cur <- index deci_dist i ;;
      other <- index deci_dist_t neighbor ;;
      deci_dist1 <- set_item deci_dist i (vadd cur other) ;;
      accumulate deci_dist1 i rest
  end.

(** Lines 340-342: the same with the subgroup size as weight. *)
Fixpoint accumulate_weighted (deci_dist : matrix) (i : nat)
    (neighbors : list nat) : result matrix :=
  match neighbors with
  | [] => Ok deci_dist
  | neighbor :: rest =>
      cur <- index deci_dist i ;;
      other <- index deci_dist_t neighbor ;;
      size <- index subsizes neighbor ;;
      deci_dist1 <- set_item deci_dist i (vadd cur (vscale other (INR size))) ;;
      accumulate_weighted deci_dist1 i rest
  end.

(** Lines 286-287, 332-333, 344-345: [deci_dist[i] / np.sum(deci_dist[i])]. *)
Definition normalize_row (deci_dist : matrix) (i : nat) : result matrix :=
  cur <- index deci_dist i ;;
  let sum_temp := np_sum cur in
  set_item deci_dist i (vdiv cur sum_temp).

(** Lines 295-300: the differences of the pairs [j < k] of [comb_pool],
    read from [deci_dist], the array that is being updated. *)
Fixpoint diffs_with (deci_dist : matrix) (j_node : nat) (rest : list nat)
    : result (list R) :=
  match rest with
  | [] => Ok []
  | k_node :: rest' =>
      a <- index deci_dist j_node ;;
      b <- index deci_dist k_node ;;
      ds <- diffs_with deci_dist j_node rest' ;;
      Ok (abs_diff a b :: ds)
  end.

Fixpoint pair_diffs (deci_dist : matrix) (comb_pool : list nat)
    : result (list R) :=
  match comb_pool with
  | [] => Ok []
  | j_node :: rest =>
      d1 <- diffs_with deci_dist j_node rest ;;
      d2 <- pair_diffs deci_dist rest ;;
      Ok (d1 ++ d2)
  end.

(** Lines 314-326: the bubble sort of [dist_temp] that carries
    [sort_index] along. *)
Definition exchange {A : Type} (d : A) (l : list A) (k : nat) : list A :=
  let temp := nth k l d in
  upd (upd l k (nth (k + 1) l d)) (k + 1) temp.

Definition bubble_step (st : row * list nat) (k : nat) : row * list nat :=
  let '(dist_temp, sort_index) := st in
  if Rgt_dec (nth k dist_temp 0) (nth (k + 1) dist_temp 0) then
    (exchange 0 dist_temp k, exchange 0%nat sort_index k)
  else st.

Definition bubble_pass (st : row * list nat) (j : nat) : row * list nat :=
  fold_left bubble_step (seq 0 (deci_num - 1 - j)) st.

Definition bubble_sort (dist : row) : row * list nat :=
  fold_left bubble_pass (seq 0 (deci_num - 1)) (dist, seq 0 deci_num).

(** Lines 328-330: the entry of rank [j] times its multiplier. *)
Definition apply_multiplier (small_end large_end : R) (sort_index : list nat)
    (dist : row) (j : nat) : result row :=
  q <- py_div (INR j) (INR deci_num - 1) ;;
  let multiplier := small_end + q * (large_end - small_end) in
  let target := nth j sort_index 0%nat in
  Ok (upd dist target (nth target dist 0 * multiplier)).

Fixpoint apply_multipliers (small_end large_end : R) (sort_index : list nat)
    (dist : row) (ranks : list nat) : result row :=
  match ranks with
  | [] => Ok dist
  | j :: rest =>
      dist1 <- apply_multiplier small_end large_end sort_index dist j ;;
      apply_multipliers small_end large_end sort_index dist1 rest
  end.

(** Lines 305-333: the linear multiplier on the row of the host. *)
Definition sharpen (dist_diff_max : R) (dist : row) : result row :=
  let dist_diff_ratio := dist_diff_max / dist_diff_thres in
  inv_num <- py_div 1 (INR deci_num) ;;
  let small_end := inv_num * np_power dist_diff_ratio dist_diff_power in
  two_num <- py_div 2 (INR deci_num) ;;
  let large_end := two_num - small_end in
  let '(_, sort_index) := bubble_sort dist in
  dist1 <- apply_multipliers small_end large_end sort_index dist
             (seq 0 deci_num) ;;
  let sum_temp := np_sum dist1 in
  Ok (vdiv dist1 sum_temp).

(** Lines 281-287: step 1 of a converged node, the equally weighted
    average of the host and all its neighbors. *)
Definition equal_average (deci_dist : matrix) (i : nat) (neighbors : list nat)
    : result matrix :=
  host <- index deci_dist_t i ;;
  deci_dist1 <- set_item deci_dist i (vscale host 1) ;;
  deci_dist2 <- accumulate deci_dist1 i neighbors ;;
  normalize_row deci_dist2 i.

(** Lines 292-301: the largest difference between two distributions of the
    host and its neighbors. *)
Definition max_difference (deci_dist : matrix) (i : nat) (neighbors : list nat)
    : result R :=
  let comb_pool := i :: neighbors in
  dist_diff <- pair_diffs deci_dist comb_pool ;;
  py_max dist_diff.

(** Lines 292-336: step 2 of a converged node. *)
Definition raise_unipolarity (deci_dist : matrix) (i : nat)
    (neighbors : list nat) : result matrix :=
  dist_diff_max <- max_difference deci_dist i neighbors ;;
  if Rlt_dec dist_diff_max dist_diff_thres then
    cur <- index deci_dist i ;;
    cur1 <- sharpen dist_diff_max cur ;;
    set_item deci_dist i cur1
  else Ok deci_dist.

(** Lines 339-345: the average weighted by the subgroup sizes. *)
Definition weighted_average (deci_dist : matrix) (i : nat)
    (neighbors : list nat) : result matrix :=
  host <- index deci_dist_t i ;;
  size <- index subsizes i ;;
  deci_dist1 <- set_item deci_dist i (vscale host (INR size)) ;;
  deci_dist2 <- accumulate_weighted deci_dist1 i neighbors ;;
  normalize_row deci_dist2 i.

(** Lines 271-345: the body of [for i in range(net_size)]. *)
Definition update_node (deci_dist : matrix) (i : nat) : result matrix :=
  host_domi <- index deci_domi i ;;
  neighbors <- index connection_lists i ;;
  converged <- all_agree host_domi neighbors ;;
  if converged then
    deci_dist1 <- equal_average deci_dist i neighbors ;;
    raise_unipolarity deci_dist1 i neighbors
  else
    weighted_average deci_dist i neighbors.

(** The loop over the nodes, in the given order. *)
Fixpoint evolve (order : list nat) (deci_dist : matrix) : result matrix :=
  match order with
  | [] => Ok deci_dist
  | i :: rest =>
      deci_dist1 <- update_node deci_dist i ;;
      evolve rest deci_dist1
  end.

End Cycle.

(** One pass of the simulation cycle (lines 208-345): dominant decisions,
    subgroups, subgroup sizes, then the evolution of [deci_dist] against its
    copy [deci_dist_t], node after node in the order of [range(net_size)]. *)
Definition simulation_cycle (net_size deci_num : nat)
    (connection_lists : list (list nat)) (subsizes : list nat)
    (deci_dist : matrix) : result (matrix * list nat * list (list nat)) :=
  deci_domi <- argmax_rows deci_dist ;;
  subgroups <- Detector.update_subgroups connection_lists deci_domi net_size ;;
  subsizes1 <- Detector.update_subsizes net_size subgroups subsizes ;;
  let deci_dist_t := deci_dist in
  deci_dist1 <- evolve deci_num connection_lists deci_domi subsizes1
                  deci_dist_t (seq 0 net_size) deci_dist ;;
  Ok (deci_dist1, subsizes1, subgroups).

(** The simulation loop (lines 194-388), run for a number of cycles:
    [deci_dist] and [subsizes] are carried from one cycle to the next. *)
Fixpoint run_cycles (cycles : nat) (net_size deci_num : nat)
    (connection_lists : list (list nat)) (subsizes : list nat)
    (deci_dist : matrix) : result (matrix * list nat) :=
  match cycles with
  | O => Ok (deci_dist, subsizes)
  | S cycles' =>
      '(deci_dist1, subsizes1, _) <-
        simulation_cycle net_size deci_num connection_lists subsizes deci_dist ;;
      run_cycles cycles' net_size deci_num connection_lists subsizes1 deci_dist1
  end.

End Evolution.

Close Scope R_scope.

(** ** The topology and the components of equal dominant decision *)

Module Topology.
Section Graph.

Variable connection_lists : list (list nat).
Variable deci_domi : list nat.

(** [v] is in the connection list of [u]. *)
Definition adjacent (u v : nat) : Prop :=
  exists l, nth_error connection_lists u = Some l /\ In v l.

(** [u] and [v] have the same dominant decision. *)
Definition same_domi (u v : nat) : Prop :=
  exists d, nth_error deci_domi u = Some d /\ nth_error deci_domi v = Some d.

(** [connected u v]: a path from [u] to [v] along connections whose two
    ends have the same dominant decision. *)
Inductive connected (u : nat) : nat -> Prop :=
| connected_refl : connected u u
| connected_step (v w : nat) :
    connected u v -> adjacent v w -> same_domi v w -> connected u w.

(** What the construction of [connection_lists] from the symmetric 0/1
    matrix [connections] gives (lines 82-100): one list per node, node
    indices in range, no node connected to itself, no repetition, and
    symmetry. *)
Record well_formed (net_size : nat) : Prop := {
  wf_length : length connection_lists = net_size;
  wf_range : forall u v, adjacent u v -> (v < net_size)%nat;
  wf_irrefl : forall u, ~ adjacent u u;
  wf_nodup : forall u l, nth_error connection_lists u = Some l -> NoDup l;
  wf_sym : forall u v, adjacent u v -> adjacent v u
}.





End Graph.
End Topology.

(** ** Binary64 floats: the normalisations and the linear multiplier *)

Module FloatModel.

(** [np.sum(a)], the entries added to 0 from left to right: the order of
    numpy on a row of fewer than eight entries (a longer row is added in
    blocks, which gives another rounding, and the same sum on a row of
    zeros). *)
Definition np_sum (a : list float) : float :=
  fold_left PrimFloat.add a 0%float.

(** [a / np.sum(a)]: numpy divides entry by entry and raises nothing. *)
Definition normalize (a : list float) : list float :=
  let sum_temp := np_sum a in
  map (fun x => PrimFloat.div x sum_temp) a.

(** Lines 148-150. *)
Definition normalize_rows (deci_dist : list (list float)) : list (list float) :=
  map normalize deci_dist.

(** [float(n)] of a Python integer, exact for the numbers of decisions and
    the ranks (below 2^53). *)
Definition of_nat (n : nat) : float :=
  PrimFloat.of_uint63 (Uint63.of_Z (Z.of_nat n)).

(** The division of a Python float by a Python integer. *)
Definition py_div (x : float) (n : nat) : result float :=
  if (n =? 0)%nat then Raise ZeroDivisionError
  else Ok (PrimFloat.div x (of_nat n)).

(** Lines 314-326: the test [dist_temp[k] > dist_temp[k+1]] and the two
    exchanges. *)
Definition bubble_step (st : list float * list nat) (k : nat)
    : list float * list nat :=
  let '(dist_temp, sort_index) := st in
  if PrimFloat.ltb (nth (k + 1) dist_temp 0%float) (nth k dist_temp 0%float) then
    (Evolution.exchange 0%float dist_temp k, Evolution.exchange 0%nat sort_index k)
  else st.

Definition bubble_pass (deci_num : nat) (st : list float * list nat) (j : nat)
    : list float * list nat :=
  fold_left bubble_step (seq 0 (deci_num - 1 - j)) st.

Definition bubble_sort (deci_num : nat) (dist : list float)
    : list float * list nat :=
  fold_left (bubble_pass deci_num) (seq 0 (deci_num - 1)) (dist, seq 0 deci_num).

(** Lines 328-330. *)
Definition apply_multiplier (deci_num : nat) (small_end large_end : float)
    (sort_index : list nat) (dist : list float) (j : nat) : result (list float) :=
  q <- py_div (of_nat j) (deci_num - 1) ;;
  let multiplier :=
    PrimFloat.add small_end
      (PrimFloat.mul q (PrimFloat.sub large_end small_end)) in
  let target := nth j sort_index 0%nat in
  Ok (upd dist target (PrimFloat.mul (nth target dist 0%float) multiplier)).

Fixpoint apply_multipliers (deci_num : nat) (small_end large_end : float)
    (sort_index : list nat) (dist : list float) (ranks : list nat)
    : result (list float) :=
  match ranks with
  | [] => Ok dist
  | j :: rest =>
      dist1 <- apply_multiplier deci_num small_end large_end sort_index dist j ;;
      apply_multipliers deci_num small_end large_end sort_index dist1 rest
  end.

(** Lines 312-333, from the value that line 311 gave to [small_end]
    ([np.power] is not among the operations of binary64; for
    [dist_diff_max = 0] it returns 0.0 and [small_end] is 0.0). *)
Definition sharpen (deci_num : nat) (small_end : float) (dist : list float)
    : result (list float) :=
  two_num <- py_div 2%float deci_num ;;
  let large_end := PrimFloat.sub two_num small_end in
  let '(_, sort_index) := bubble_sort deci_num dist in
  dist1 <- apply_multipliers deci_num small_end large_end sort_index dist
             (seq 0 deci_num) ;;
  Ok (normalize dist1).

End FloatModel.

(** ** Python loops *)

(** [for x in l: body], the body threading the variables it assigns. *)
Fixpoint for_each {A S : Type} (l : list A) (body : S -> A -> result S) (s : S)
    : result S :=
  match l with
  | [] => Ok s
  | x :: rest => s1 <- body s x ;; for_each rest body s1
  end.

(** [range(start, stop)] *)
Definition py_range (start stop : nat) : list nat := seq start (stop - start).

(** ** The network (lines 82-100) *)

Module Network.

(** A node is placed by two integers, the two numbers of its line in the
    network file. *)
Definition position : Type := (Z * Z)%type.

(** Line 88: the test on the differences of the coordinates of two nodes. *)
Definition is_neighbor (node_i node_j : position) : bool :=
  let diff_x := (fst node_i - fst node_j)%Z in
  let diff_y := (snd node_i - snd node_j)%Z in
  ((Z.abs diff_x + Z.abs diff_y =? 1) || (diff_x * diff_y =? -1))%Z.

(** [connections[i][j] = v] *)
Definition set_entry (connections : list (list Z)) (i j : nat) (v : Z)
    : result (list (list Z)) :=
  row_i <- index connections i ;;
  row_i1 <- set_item row_i j v ;;
  set_item connections i row_i1.

(** Lines 85-92: the body of the loop over [j]. *)
Definition connect_pair (nodes : list position) (i : nat)
    (connections : list (list Z)) (j : nat) : result (list (list Z)) :=
  node_i <- index nodes i ;;
  node_j <- index nodes j ;;
  if is_neighbor node_i node_j then
    connections1 <- set_entry connections i j 1%Z ;;
    set_entry connections1 j i 1%Z
  else Ok connections.

(** Lines 82-92: the connection matrix, 0 for not connected, 1 for
    connected. *)
Definition connection_matrix (nodes : list position) (net_size : nat)
    : result (list (list Z)) :=
  let connections := repeat (repeat 0%Z net_size) net_size in
  for_each (py_range 0 net_size)
    (fun connections i =>
       for_each (py_range (i + 1) net_size) (connect_pair nodes i) connections)
    connections.

(** Lines 97-99: the indices of the nonzero entries of row [i]. *)
Definition connection_list (connections : list (list Z)) (net_size i : nat)
    : result (list nat) :=
  for_each (py_range 0 net_size)
    (fun connection_list_temp j =>
       row_i <- index connections i ;;
       c <- index row_i j ;;
       if negb (c =? 0)%Z then Ok (connection_list_temp ++ [j])
       else Ok connection_list_temp)
    [].

(** Lines 95-100. *)
Definition connection_lists_of (connections : list (list Z)) (net_size : nat)
    : result (list (list nat)) :=
  for_each (py_range 0 net_size)
    (fun connection_lists i =>
       connection_list_temp <- connection_list connections net_size i ;;
       Ok (connection_lists ++ [connection_list_temp]))
    [].

(** Lines 82-100: the matrix [connections] and the lists
    [connection_lists] of the first [net_size] nodes. *)
Definition network (nodes : list position) (net_size : nat)
    : result (list (list Z) * list (list nat)) :=
  connections <- connection_matrix nodes net_size ;;
  connection_lists <- connection_lists_of connections net_size ;;
  Ok (connections, connection_lists).

(** The six positions around a position of the honeycomb grid. *)
Definition around (p : position) : list position :=
  let '(x, y) := p in
  [(x + 1, y); (x - 1, y); (x, y + 1); (x, y - 1);
   (x + 1, y - 1); (x - 1, y + 1)]%Z.

End Network.

(** ** The simulation loop and its events (lines 188-206, 386-388) *)

Module Loop.

(** What the loop looks at in a pygame event: its type and, for a key that
    was released, the key. *)
Inductive key : Type := K_SPACE | K_ESCAPE | K_q | K_other.
Inductive event : Type := QUIT | KEYUP (k : key) | other_event.

(** The variables the loop carries from one pass to the next. *)
Record state : Type := {
  sim_exit : bool;
  sim_pause : bool;
  iter_count : nat;
  deci_dist : matrix;
  subsizes : list nat
}.

(** Lines 188-190, with the arrays of lines 146-155. *)
Definition initial_state (net_size : nat) (deci_dist : matrix) : state :=
  {| sim_exit := false; sim_pause := true; iter_count := 0;
     deci_dist := deci_dist; subsizes := repeat 0 net_size |}.

(** Lines 197-203: the body of [for event in pygame.event.get()], on the
    pair of [sim_exit] and [sim_pause]. *)
Definition handle_event (flags : bool * bool) (e : event) : bool * bool :=
  let '(sim_exit, sim_pause) := flags in
  let sim_exit1 := match e with QUIT => true | _ => sim_exit end in
  match e with
  | KEYUP k =>
      let sim_pause1 :=
        match k with K_SPACE => negb sim_pause | _ => sim_pause end in
      let sim_exit2 :=
        match k with K_ESCAPE | K_q => true | _ => sim_exit1 end in
      (sim_exit2, sim_pause1)
  | _ => (sim_exit1, sim_pause)
  end.

Section Body.

Variable net_size deci_num : nat.
Variable connection_lists : list (list nat).

(** One pass of the body of [while not sim_exit] on the events that
    [pygame.event.get()] returns: the events, [continue] when paused, else
    one cycle and the count of the iterations.  The drawing and the pacing
    of lines 347-385 assign none of these variables. *)
Definition iteration (events : list event) (s : state) : result state :=
  let '(sim_exit1, sim_pause1) :=
    fold_left handle_event events (sim_exit s, sim_pause s) in
  if sim_pause1 then
    Ok {| sim_exit := sim_exit1; sim_pause := sim_pause1;
          iter_count := iter_count s;
          deci_dist := deci_dist s; subsizes := subsizes s |}
  else
    '(deci_dist1, subsizes1, _) <-
      Evolution.simulation_cycle net_size deci_num connection_lists
        (subsizes s) (deci_dist s) ;;
    Ok {| sim_exit := sim_exit1; sim_pause := sim_pause1;
          iter_count := iter_count s + 1;
          deci_dist := deci_dist1; subsizes := subsizes1 |}.

(** [while not sim_exit], on the lists of events of the successive polls:
    the state when the loop has ended, or when the polls are used up. *)
Fixpoint simulation_loop (polls : list (list event)) (s : state)
    : result state :=
  match polls with
  | [] => Ok s
  | events :: rest =>
      if sim_exit s then Ok s
      else s1 <- iteration events s ;; simulation_loop rest s1
  end.

End Body.

End Loop.

(** ** The network file (lines 72-79) *)

Module NetworkFile.

Local Open Scope string_scope.

Definition newline : ascii := "010"%char.

(** [f.readline()] on what is left of the file: the next line with its
    newline, or all that is left when no newline follows, and the rest of
    the file. *)
Fixpoint readline (f : string) : string * string :=
  match f with
  | EmptyString => (EmptyString, EmptyString)
  | String c rest =>
      if Ascii.eqb c newline then (String c EmptyString, rest)
      else let '(line, rest1) := readline rest in (String c line, rest1)
  end.

(** [s[0:-1]]: the string without its last character. *)
Fixpoint drop_last (s : string) : string :=
  match s with
  | EmptyString => EmptyString
  | String c EmptyString => EmptyString
  | String c rest => String c (drop_last rest)
  end.

(** [s.split(sep)] for a separator of one character: the pieces between
    the occurrences of [sep], empty pieces included. *)
Fixpoint split (sep : ascii) (s : string) : list string :=
  match s with
  | EmptyString => [EmptyString]
  | String c rest =>
      if Ascii.eqb c sep then EmptyString :: split sep rest
      else
        match split sep rest with
        | piece :: pieces => String c piece :: pieces
        | [] => [String c EmptyString]
        end
  end.

Section Read.

(** Python's [int] on a string: the integer it denotes or the exception
    it raises.  The embedding takes it as given. *)
Variable int : string -> result Z.

(** Lines 76-77. *)
Definition parse_line (new_line : string) : result Network.position :=
  let pos_str := split " " (drop_last new_line) in
  s0 <- index pos_str 0 ;;
  x <- int s0 ;;
  s1 <- index pos_str 1 ;;
  y <- int s1 ;;
  Ok (x, y).

(** Lines 75-79: [while len(new_line) != 0]. *)
Fixpoint read_lines (fuel : nat) (f new_line : string)
    (nodes : list Network.position) : result (list Network.position) :=
  match fuel with
  | O => OutOfFuel
  | S fuel' =>
      if negb (String.length new_line =? 0)%nat then
        pos <- parse_line new_line ;;
        let '(new_line1, f1) := readline f in
        read_lines fuel' f1 new_line1 (nodes ++ [pos])%list
      else Ok nodes
  end.

(** Line 74 and the loop, from the point where [content] is left to
    read. *)
Definition read_from (fuel : nat) (content : string)
    (nodes : list Network.position) : result (list Network.position) :=
  let '(new_line, f) := readline content in
  read_lines fuel f new_line nodes.

(** Lines 72-79 on the content of the network file.  Every pass of the loop
    takes at least one character from the file. *)
Definition read_nodes (content : string) : result (list Network.position) :=
  read_from (S (String.length content)) content [].

End Read.

(** The character [c] occurs in [s]. *)
Fixpoint occurs (c : ascii) (s : string) : bool :=
  match s with
  | EmptyString => false
  | String c1 rest => Ascii.eqb c1 c || occurs c rest
  end.

(** A text without spaces and newlines. *)
Definition word (s : string) : Prop :=
  occurs " " s = false /\ occurs newline s = false.

(** The file whose lines are the given texts, each followed by a newline. *)
Definition lines_of (lines : list string) : string :=
  fold_right (fun l rest => l ++ String newline rest) "" lines.

(** The line of two words. *)
Definition pair_line (words : string * string) : string :=
  fst words ++ " " ++ snd words.

(** [int] on the two words of every line, in the order of the file. *)
Fixpoint convert (int : string -> result Z) (pairs : list (string * string))
    : result (list Network.position) :=
  match pairs with
  | [] => Ok []
  | (a, b) :: rest =>
      x <- int a ;; y <- int b ;; ps <- convert int rest ;; Ok ((x, y) :: ps)
  end.

(** A reading of the unsigned decimal numerals; it stands for [int] in the
    examples. *)
Fixpoint digits (acc : Z) (s : string) : result Z :=
  match s with
  | EmptyString => Ok acc
  | String c rest =>
      let n := nat_of_ascii c in
      if (48 <=? n)%nat && (n <=? 57)%nat
      then digits (10 * acc + Z.of_nat (n - 48)) rest
      else Raise ValueError
  end.

Definition numeral (s : string) : result Z :=
  match s with
  | EmptyString => Raise ValueError
  | _ => digits 0 s
  end.

End NetworkFile.

(** ** The frame drawn after a cycle (lines 347-371) *)

Module Display.

Definition point : Type := (Z * Z)%type.
Definition color : Type := (Z * Z * Z)%type.

(** The calls that draw on the pygame window, in the order they are made. *)
Inductive command : Type :=
| fill (c : color)                                   (* screen.fill(c) *)
| line (c : color) (start_pos end_pos : point) (width : Z)
                                                     (* pygame.draw.line *)
| circle (c : color) (pos : point) (radius width : Z)
                                                     (* pygame.draw.circle *)
| update.                                            (* pygame.display.update() *)

(** Lines 114-118. *)
Definition background_color : color := (0, 0, 0)%Z.
Definition node_color : color := (255, 0, 0)%Z.
Definition connection_color : color := (0, 0, 255)%Z.
Definition subgroup_color : color := (255, 255, 0)%Z.
Definition node_size : Z := 5%Z.

Section Frame.

Variable connections : list (list Z).
(** The display positions of the nodes (lines 128-129). *)
Variable nodes_disp : list point.
Variable net_size : nat.

(** [pygame.draw.line(screen, c, nodes_disp[i], nodes_disp[j], width)] *)
Definition draw_line (c : color) (width : Z) (screen : list command)
    (i j : nat) : result (list command) :=
  start_pos <- index nodes_disp i ;;
  end_pos <- index nodes_disp j ;;
  Ok (screen ++ [line c start_pos end_pos width]).

(** [if connections[i][j]: pygame.draw.line(...)] *)
Definition draw_if_connected (c : color) (width : Z) (screen : list command)
    (i j : nat) : result (list command) :=
  row_i <- index connections i ;;
  connected <- index row_i j ;;
  if negb (connected =? 0)%Z then draw_line c width screen i j
  else Ok screen.

(** Lines 351-355: the regular connecting lines. *)
Definition draw_connections (screen : list command) : result (list command) :=
  for_each (py_range 0 net_size)
    (fun screen i =>
       for_each (py_range (i + 1) net_size)
         (fun screen j => draw_if_connected connection_color 2 screen i j)
         screen)
    screen.

(** Lines 358-367: the connecting lines inside one subgroup. *)
Definition draw_subgroup (screen : list command) (sub : list nat)
    : result (list command) :=
  let sub_len := length sub in
  for_each (py_range 0 sub_len)
    (fun screen i =>
       for_each (py_range (i + 1) sub_len)
         (fun screen j =>
            i_node <- index sub i ;;
            j_node <- index sub j ;;
            draw_if_connected subgroup_color 3 screen i_node j_node)
         screen)
    screen.

(** Lines 369-370: the nodes as dots. *)
Definition draw_nodes (screen : list command) : result (list command) :=
  for_each (py_range 0 net_size)
    (fun screen i =>
       pos <- index nodes_disp i ;;
       Ok (screen ++ [circle node_color pos node_size 0]))
    screen.

(** Lines 349-371. *)
Definition draw_frame (subgroups : list (list nat)) : result (list command) :=
  let screen := [fill background_color] in
  screen1 <- draw_connections screen ;;
  screen2 <- for_each subgroups draw_subgroup screen1 ;;
  screen3 <- draw_nodes screen2 ;;
  Ok (screen3 ++ [update]).

(** The line between the nodes of a pair, and the dot of a node. *)
Definition segment (c : color) (width : Z) (p : nat * nat) : command :=
  line c (nth (fst p) nodes_disp (0, 0)%Z) (nth (snd p) nodes_disp (0, 0)%Z)
    width.

Definition dot (i : nat) : command :=
  circle node_color (nth i nodes_disp (0, 0)%Z) node_size 0.

End Frame.

End Display.

(** ** Names used by the statements *)

(** The values of the local variables [small_end], [large_end] and
    [multiplier] of lines 311, 312 and 329. *)
Definition small_end (deci_num : nat) (dist_diff_max : R) : R :=
  (1 / INR deci_num
   * np_power (dist_diff_max / dist_diff_thres) dist_diff_power)%R.

Definition large_end (deci_num : nat) (dist_diff_max : R) : R :=
  (2 / INR deci_num - small_end deci_num dist_diff_max)%R.

Definition multiplier (deci_num : nat) (dist_diff_max : R) (j : nat) : R :=
  (small_end deci_num dist_diff_max +
   INR j / (INR deci_num - 1)
   * (large_end deci_num dist_diff_max - small_end deci_num dist_diff_max))%R.

(** Lines 305-330: the row of the host after the loop of the multipliers,
    which line 332 sums and line 333 divides. *)
Definition multiplied (deci_num : nat) (dist_diff_max : R) (dist : row)
    : result row :=
  let dist_diff_ratio := (dist_diff_max / dist_diff_thres)%R in
  inv_num <- py_div 1 (INR deci_num) ;;
  let small_end := (inv_num * np_power dist_diff_ratio dist_diff_power)%R in
  two_num <- py_div 2 (INR deci_num) ;;
  let large_end := (two_num - small_end)%R in
  let '(_, sort_index) := Evolution.bubble_sort deci_num dist in
  Evolution.apply_multipliers deci_num small_end large_end sort_index dist
    (seq 0 deci_num).

(** The value of [deci_dist[i]] when the update of node [i] reaches the
    division by [sum_temp] that it executes last: line 345 for a node with
    a neighbor of another dominant decision, line 333 when the linear
    multiplier is applied, line 287 otherwise. *)
Definition divided_row (deci_num : nat) (connection_lists : list (list nat))
    (deci_domi subsizes : list nat) (deci_dist_t deci_dist : matrix) (i : nat)
    : result row :=
  host_domi <- index deci_domi i ;;
  neighbors <- index connection_lists i ;;
  converged <- Evolution.all_agree deci_domi host_domi neighbors ;;
  if converged then
    host <- index deci_dist_t i ;;
    deci_dist1 <- set_item deci_dist i (vscale host 1) ;;
    deci_dist2 <- Evolution.accumulate deci_dist_t deci_dist1 i neighbors ;;
    summed <- index deci_dist2 i ;;
    deci_dist3 <- Evolution.normalize_row deci_dist2 i ;;
    dist_diff_max <- Evolution.max_difference deci_dist3 i neighbors ;;
    if Rlt_dec dist_diff_max dist_diff_thres then
      averaged <- index deci_dist3 i ;;
      multiplied deci_num dist_diff_max averaged
    else Ok summed
  else
    host <- index deci_dist_t i ;;
    size <- index subsizes i ;;
    deci_dist1 <- set_item deci_dist i (vscale host (INR size)) ;;
    deci_dist2 <- Evolution.accumulate_weighted subsizes deci_dist_t
                    deci_dist1 i neighbors ;;
    index deci_dist2 i.

(** The arrays of one cycle: one entry per node, connection lists that name
    nodes. *)
Record cycle_arrays (net_size : nat) (connection_lists : list (list nat))
    (deci_domi subsizes : list nat) (deci_dist_t : matrix) : Prop := {
  arrays_connections : length connection_lists = net_size;
  arrays_domi : length deci_domi = net_size;
  arrays_sizes : length subsizes = net_size;
  arrays_snapshot : length deci_dist_t = net_size;
  arrays_range : forall u l, nth_error connection_lists u = Some l ->
                 forall v, In v l -> v < net_size
}.

(** Two nodes connected to each other, two decisions, both nodes with
    dominant decision 0. *)
Definition two_nodes : list (list nat) := [[1]; [0]].
Definition two_rows : matrix :=
  [[(11 / 20)%R; (9 / 20)%R]; [(19 / 20)%R; (1 / 20)%R]].

(** [connections[u][w]], read as 0 outside the matrix. *)
Definition entry (connections : list (list Z)) (u w : nat) : Z :=
  nth w (nth u connections []) 0%Z.

(** The position of node [u] in [nodes]. *)
Definition node_at (nodes : list Network.position) (u : nat) : Network.position :=
  nth u nodes (0%Z, 0%Z).

(** The nodes [u] and [w] pass the test of line 88. *)
Definition linked (nodes : list Network.position) (u w : nat) : bool :=
  Network.is_neighbor (node_at nodes u) (node_at nodes w).

(** A matrix of [net_size] rows of [net_size] entries. *)
Definition square (net_size : nat) (connections : list (list Z)) : Prop :=
  length connections = net_size /\
  Forall (fun r => length r = net_size) connections.

(** The distribution that gives decision [k] the probability 1. *)
Definition one_hot (deci_num k : nat) : row := upd (repeat 0%R deci_num) k 1%R.

(** No row of [deci_dist] gives decision [k] a probability. *)
Definition excluded (k : nat) (deci_dist : matrix) : Prop :=
  Forall (fun r => nth k r 0%R = 0%R) deci_dist.

(** The pairs [(a, b)] with [a < b < len] that pass [test], in the order
    in which two nested loops over [range(len)] and [range(a+1, len)] meet
    them. *)
Definition index_pairs (len : nat) (test : nat -> nat -> bool)
    : list (nat * nat) :=
  flat_map (fun a => map (pair a) (filter (test a) (py_range (a + 1) len)))
    (py_range 0 len).

(** [connections[i][j]] counts as true. *)
Definition wired (connections : list (list Z)) (i j : nat) : bool :=
  negb (entry connections i j =? 0)%Z.

(** The pairs of nodes of a subgroup between which a line is drawn. *)
Definition subgroup_pairs (connections : list (list Z)) (sub : list nat)
    : list (nat * nat) :=
  map (fun p => (nth (fst p) sub 0, nth (snd p) sub 0))
    (index_pairs (length sub)
       (fun a b => wired connections (nth a sub 0) (nth b sub 0))).

(** * Properties *)

Unset Implicit Arguments.

(** ** Facts on the list operations *)

Lemma index_ok {A : Type} (l : list A) (i : nat) (x : A) :
  index l i = Ok x <-> nth_error l i = Some x.
Proof.
  unfold index. destruct (nth_error l i); split; intro H;
    inversion H; reflexivity.
Qed.

Lemma index_nth_error {A : Type} (l : list A) (i : nat) (x : A) :
  nth_error l i = Some x -> index l i = Ok x.
Proof. apply index_ok. Qed.

Lemma index_lt {A : Type} (l : list A) (i : nat) :
  i < length l -> exists x, index l i = Ok x /\ nth_error l i = Some x.
Proof.
  intro H. destruct (nth_error l i) as [x|] eqn:E.
  - exists x. split; [apply index_ok; exact E | reflexivity].
  - apply nth_error_None in E. lia.
Qed.

Lemma index_middle {A : Type} (l1 l2 : list A) (x : A) :
  index (l1 ++ x :: l2) (length l1) = Ok x.
Proof.
  apply index_ok. rewrite nth_error_app2 by lia.
  rewrite Nat.sub_diag. reflexivity.
Qed.

Lemma mem_In (x : nat) (l : list nat) : mem x l = true <-> In x l.
Proof.
  induction l as [|y t IH]; simpl.
  - split; [discriminate | tauto].
  - destruct (Nat.eqb_spec x y) as [->|Hne].
    + tauto.
    + rewrite IH. split; [tauto | intros [H|H]; [congruence | assumption]].
Qed.

Lemma mem_not_In (x : nat) (l : list nat) : mem x l = false <-> ~ In x l.
Proof.
  rewrite <- mem_In. destruct (mem x l); split; congruence.
Qed.

Lemma list_remove_middle (x : nat) (l1 l2 : list nat) :
  ~ In x l1 -> list_remove x (l1 ++ x :: l2) = Ok (l1 ++ l2).
Proof.
  induction l1 as [|y t IH]; simpl; intro H.
  - rewrite Nat.eqb_refl. reflexivity.
  - destruct (Nat.eqb_spec x y) as [->|Hne]; [tauto|].
    rewrite IH by tauto. reflexivity.
Qed.

Lemma in_split_first (x : nat) (l : list nat) :
  In x l -> exists l1 l2, l = l1 ++ x :: l2 /\ ~ In x l1.
Proof.
  induction l as [|y t IH]; simpl; [tauto|].
  intro H. destruct (Nat.eq_dec y x) as [->|Hne].
  - exists [], t. split; [reflexivity | simpl; tauto].
  - destruct H as [H|H]; [congruence|].
    destruct (IH H) as (l1 & l2 & -> & Hn).
    exists (y :: l1), l2. split; [reflexivity|].
    simpl. intros [E|E]; [congruence | tauto].
Qed.

Lemma list_remove_in (x : nat) (l : list nat) :
  In x l ->
  exists l1 l2, l = l1 ++ x :: l2 /\ list_remove x l = Ok (l1 ++ l2).
Proof.
  intro H. destruct (in_split_first x l H) as (l1 & l2 & -> & Hn).
  exists l1, l2. split; [reflexivity | apply list_remove_middle; assumption].
Qed.

Lemma set_item_lt {A : Type} (l : list A) (i : nat) (v : A) :
  i < length l -> set_item l i v = Ok (upd l i v).
Proof.
  revert i. induction l as [|h t IH]; simpl; intros i H; [lia|].
  destruct i as [|j]; [reflexivity|].
  rewrite IH by lia. reflexivity.
Qed.

Lemma upd_length {A : Type} (l : list A) (i : nat) (v : A) :
  length (upd l i v) = length l.
Proof.
  revert i. induction l as [|h t IH]; intros [|j]; simpl; auto.
Qed.

Lemma nth_error_upd_same {A : Type} (l : list A) (i : nat) (v : A) :
  i < length l -> nth_error (upd l i v) i = Some v.
Proof.
  revert i. induction l as [|h t IH]; simpl; intros i H; [lia|].
  destruct i as [|j]; simpl; [reflexivity | apply IH; lia].
Qed.

Lemma nth_error_upd_other {A : Type} (l : list A) (i j : nat) (v : A) :
  i <> j -> nth_error (upd l i v) j = nth_error l j.
Proof.
  revert i j. induction l as [|h t IH]; intros [|i] [|j] H; simpl;
    try reflexivity; try congruence.
  apply IH. congruence.
Qed.

Lemma nodup_app_disjoint (l1 l2 : list nat) (x : nat) :
  NoDup (l1 ++ l2) -> In x l1 -> ~ In x l2.
Proof.
  intros Hnd H1 H2. apply in_split in H1. destruct H1 as (a & b & ->).
  rewrite <- app_assoc in Hnd. simpl in Hnd.
  apply NoDup_remove_2 in Hnd. apply Hnd.
  apply in_or_app. right. apply in_or_app. right. assumption.
Qed.

(** ** The subgroup search: termination, partition and components *)

Section DetectorFacts.

Variable connection_lists : list (list nat).
Variable deci_domi : list nat.
Variable net_size : nat.

Hypothesis Hwf : Topology.well_formed connection_lists net_size.
Hypothesis Hdomi : length deci_domi = net_size.

Local Abbreviation adjacent := (Topology.adjacent connection_lists).
Local Abbreviation same_domi := (Topology.same_domi deci_domi).
Local Abbreviation connected := (Topology.connected connection_lists deci_domi).

Definition deg (u : nat) : nat := length (nth u connection_lists []).
Definition degsum (l : list nat) : nat := list_sum (map deg l).

(** A set of nodes that no connection between equal dominant decisions
    leaves. *)
Definition closed (A : list nat) : Prop :=
  forall a b, In a A -> adjacent a b -> same_domi a b -> In b A.

Lemma degsum_app (l1 l2 : list nat) : degsum (l1 ++ l2) = degsum l1 + degsum l2.
Proof. unfold degsum. rewrite map_app, list_sum_app. reflexivity. Qed.

Lemma degsum_perm (l1 l2 : list nat) :
  Permutation l1 l2 -> degsum l1 = degsum l2.
Proof.
  intro H. unfold degsum. induction H; simpl; lia.
Qed.

Lemma map_nth_seq (l : list (list nat)) :
  map (fun u => length (nth u l [])) (seq 0 (length l)) = map (@length nat) l.
Proof.
  induction l as [|h t IH]; simpl; [reflexivity|].
  f_equal. rewrite <- seq_shift, map_map. exact IH.
Qed.

Lemma degsum_all :
  degsum (seq 0 net_size) = list_sum (map (@length nat) connection_lists).
Proof.
  unfold degsum, deg. rewrite <- (Topology.wf_length Hwf), map_nth_seq.
  reflexivity.
Qed.


Lemma same_domi_sym (u v : nat) : same_domi u v -> same_domi v u.
Proof. intros (d & H1 & H2). exists d. tauto. Qed.

Lemma add_potentials_spec (pool sg new pm : list nat) :
  exists added,
    Detector.add_potentials pool sg pm new = pm ++ added /\
    NoDup added /\
    length added <= length new /\
    (forall x, In x added ->
       In x new /\ In x pool /\ ~ In x sg /\ ~ In x pm) /\
    (forall x, In x new ->
       In x pm \/ In x added \/ In x sg \/ ~ In x pool).
Proof.
  unfold Detector.add_potentials. revert pm.
  induction new as [|a new IH]; intro pm; simpl.
  - exists []. rewrite app_nil_r.
    split; [reflexivity|]. split; [constructor|]. split; [simpl; lia|].
    split; [intros x []|intros x []].
  - assert (Hskip : forall why : In a pm \/ In a sg \/ ~ In a pool,
      exists added,
        fold_left (Detector.add_potential pool sg) new pm = pm ++ added /\
        NoDup added /\ length added <= S (length new) /\
        (forall x, In x added ->
           (a = x \/ In x new) /\ In x pool /\ ~ In x sg /\ ~ In x pm) /\
        (forall x, a = x \/ In x new ->
           In x pm \/ In x added \/ In x sg \/ ~ In x pool)).
    { intro why. destruct (IH pm) as (added & E & Hnd & Hlen & Hin & Hcov).
      exists added. split; [exact E|]. split; [exact Hnd|].
      split; [lia|]. split.
      - intros x Hx. destruct (Hin x Hx) as (? & ? & ? & ?). tauto.
      - intros x [<-|Hx]; [tauto | auto]. }
    unfold Detector.add_potential at 2.
    destruct (mem a pm) eqn:Epm; simpl.
    { apply Hskip. left. apply mem_In. assumption. }
    destruct (mem a sg) eqn:Esg; simpl.
    { apply Hskip. right. left. apply mem_In. assumption. }
    destruct (mem a pool) eqn:Epool.
    2:{ apply Hskip. right. right. apply mem_not_In. assumption. }
    clear Hskip.
    destruct (IH (pm ++ [a])) as (added & E & Hnd & Hlen & Hin & Hcov).
    apply mem_not_In in Epm, Esg. apply mem_In in Epool.
    exists (a :: added). rewrite E, <- app_assoc. simpl.
    split; [reflexivity|]. split; [|split; [lia|split]].
    + constructor; [|assumption]. intro Ha.
      destruct (Hin a Ha) as (_ & _ & _ & Hn). apply Hn.
      apply in_or_app. right. left. reflexivity.
    + intros x [<-|H]; [tauto|].
      destruct (Hin x H) as (? & ? & ? & Hn).
      repeat split; auto. intro Hx. apply Hn.
      apply in_or_app. left. assumption.
    + intros x [<-|Hx]; [right; left; left; reflexivity|].
      destruct (Hcov x Hx) as [H|[H|[H|H]]]; try tauto.
      apply in_app_or in H. destruct H as [H|[<-|[]]]; tauto.
Qed.

(** The state of the scan: [skipped] are the potential members the pointer
    has passed, [rest] those still ahead of it; [A] collects the subgroups
    found before. *)
Record search_inv (A : list nat) (first cur : nat)
    (pool skipped rest sg : list nat) : Prop := {
  inv_perm : Permutation (A ++ sg ++ pool) (seq 0 net_size);
  inv_nodup : NoDup (skipped ++ rest);
  inv_fresh : forall x, In x (skipped ++ rest) -> ~ In x sg;
  inv_skipped : forall x, In x skipped -> nth_error deci_domi x <> Some cur;
  inv_frontier : forall x, In x (skipped ++ rest) ->
                   exists m, In m sg /\ adjacent m x;
  inv_cover : forall m n, In m sg -> adjacent m n ->
                In n (skipped ++ rest) \/ In n sg \/ In n A;
  inv_members : forall m, In m sg ->
                  nth_error deci_domi m = Some cur /\ connected first m
}.

Arguments inv_perm {A first cur pool skipped rest sg} _.
Arguments inv_nodup {A first cur pool skipped rest sg} _.
Arguments inv_fresh {A first cur pool skipped rest sg} _ x _.
Arguments inv_skipped {A first cur pool skipped rest sg} _ x _.
Arguments inv_frontier {A first cur pool skipped rest sg} _ x _.
Arguments inv_cover {A first cur pool skipped rest sg} _ m n _ _.
Arguments inv_members {A first cur pool skipped rest sg} _ m _.

(** What the scan leaves behind. *)
Record search_post (A : list nat) (first cur : nat)
    (sg pool' sg' : list nat) : Prop := {
  post_perm : Permutation (A ++ sg' ++ pool') (seq 0 net_size);
  post_members : forall m, In m sg' ->
                   nth_error deci_domi m = Some cur /\ connected first m;
  post_closed : forall m n, In m sg' -> adjacent m n -> same_domi m n ->
                  In n sg' \/ In n A;
  post_prefix : exists ext, sg' = sg ++ ext
}.

Arguments post_perm {A first cur sg pool' sg'} _.
Arguments post_prefix {A first cur sg pool' sg'} _.
Arguments post_members {A first cur sg pool' sg'} _ m _.
Arguments post_closed {A first cur sg pool' sg'} _ m n _ _ _.

Lemma perm_disjoint (A sg pool : list nat) (x : nat) :
  Permutation (A ++ sg ++ pool) (seq 0 net_size) ->
  In x sg -> ~ In x A.
Proof.
  intros Hp Hsg HA.
  assert (Hnd : NoDup (A ++ sg ++ pool)).
  { apply (Permutation_NoDup (Permutation_sym Hp)). apply seq_NoDup. }
  apply in_split in HA. destruct HA as (a1 & a2 & ->).
  rewrite <- app_assoc in Hnd. simpl in Hnd.
  apply NoDup_remove_2 in Hnd. apply Hnd.
  apply in_or_app. right. apply in_or_app. right.
  apply in_or_app. left. assumption.
Qed.

Lemma perm_cover (A sg pool : list nat) (x : nat) :
  Permutation (A ++ sg ++ pool) (seq 0 net_size) ->
  x < net_size -> In x A \/ In x sg \/ In x pool.
Proof.
  intros Hp Hx.
  assert (Hin : In x (A ++ sg ++ pool)).
  { apply (Permutation_in _ (Permutation_sym Hp)). apply in_seq. lia. }
  apply in_app_or in Hin. destruct Hin as [H|H]; [tauto|].
  apply in_app_or in H. tauto.
Qed.

Lemma search_members_S (fuel cur : nat) (pool pm : list nat) (pi : nat)
    (sg : list nat) :
  Detector.search_members connection_lists deci_domi (S fuel) cur pool pm pi sg =
  if pi <? length pm then
    candidate <- index pm pi ;;
    domi <- index deci_domi candidate ;;
    if domi =? cur then
      pm1 <- list_remove candidate pm ;;
      pool1 <- list_remove candidate pool ;;
      p_members_new <- index connection_lists candidate ;;
      Detector.search_members connection_lists deci_domi fuel cur pool1
        (Detector.add_potentials pool1 (sg ++ [candidate]) pm1 p_members_new)
        pi (sg ++ [candidate])
    else
      Detector.search_members connection_lists deci_domi fuel cur pool pm
        (pi + 1) sg
  else Ok (pool, sg).
Proof. reflexivity. Qed.

Lemma perm_move (A sg p1 p2 : list nat) (x : nat) :
  Permutation (A ++ (sg ++ [x]) ++ p1 ++ p2) (A ++ sg ++ p1 ++ x :: p2).
Proof.
  apply Permutation_app_head. rewrite <- app_assoc.
  apply Permutation_app_head. simpl. apply Permutation_middle.
Qed.

Lemma search_members_correct (A : list nat) (first cur : nat) :
  closed A ->
  forall fuel pool skipped rest sg,
    search_inv A first cur pool skipped rest sg ->
    length rest + degsum pool < fuel ->
    exists pool' sg',
      Detector.search_members connection_lists deci_domi fuel cur pool
        (skipped ++ rest) (length skipped) sg = Ok (pool', sg') /\
      search_post A first cur sg pool' sg'.
Proof.
  intros HA. induction fuel as [|fuel IH];
    intros pool skipped rest sg Hinv Hfuel; [lia|].
  rewrite search_members_S.
  destruct rest as [|x rest'].
  - rewrite app_nil_r, Nat.ltb_irrefl. exists pool, sg.
    split; [reflexivity|]. constructor.
    + apply Hinv.
    + apply Hinv.
    + intros m n Hm Hadj Hsame.
      destruct (inv_cover Hinv m n Hm Hadj) as [H|[H|H]]; auto.
      rewrite app_nil_r in H. exfalso. apply (inv_skipped Hinv n H).
      destruct Hsame as (d & Hd1 & Hd2).
      destruct (inv_members Hinv m Hm) as [Hc _]. congruence.
    + exists []. rewrite app_nil_r. reflexivity.
  - assert (Hlt : (length skipped <? length (skipped ++ x :: rest')) = true).
    { apply Nat.ltb_lt. rewrite length_app. simpl. lia. }
    rewrite Hlt, index_middle. cbn [bind].
    assert (Hxin : In x (skipped ++ x :: rest')).
    { apply in_or_app. right. left. reflexivity. }
    destruct (inv_frontier Hinv x Hxin) as (m0 & Hm0 & Hadj0).
    assert (Hx : x < net_size) by (eapply Topology.wf_range; eauto).
    destruct (index_lt deci_domi x) as (d & Ed & End); [lia|].
    rewrite Ed. cbn [bind].
    pose proof (inv_nodup Hinv) as Hnd0.
    pose proof (NoDup_remove_1 _ _ _ Hnd0) as Hnd1.
    pose proof (NoDup_remove_2 _ _ _ Hnd0) as Hnd2.
    destruct (Nat.eqb_spec d cur) as [->|Hne].
    + (* a new member *)
      assert (Hns : ~ In x skipped).
      { intro H. apply Hnd2. apply in_or_app. left. assumption. }
      rewrite list_remove_middle by assumption. cbn [bind].
      destruct (inv_members Hinv m0 Hm0) as [Hm0d Hm0c].
      assert (HxA : ~ In x A).
      { intro H. apply (perm_disjoint _ _ _ m0 (inv_perm Hinv) Hm0).
        apply (HA x m0 H).
        - apply (Topology.wf_sym Hwf). assumption.
        - exists cur. split; assumption. }
      assert (Hxsg : ~ In x sg) by exact (inv_fresh Hinv x Hxin).
      assert (Hxpool : In x pool).
      { destruct (perm_cover _ _ _ _ (inv_perm Hinv) Hx) as [H|[H|H]]; tauto. }
      destruct (list_remove_in x pool Hxpool) as (p1 & p2 & -> & Er).
      rewrite Er. cbn [bind].
      destruct (index_lt connection_lists x) as (nb & Enb & Hnb).
      { rewrite (Topology.wf_length Hwf). assumption. }
      rewrite Enb. cbn [bind].
      destruct (add_potentials_spec (p1 ++ p2) (sg ++ [x]) nb (skipped ++ rest'))
        as (added & Eadd & Hnda & Hlen & Hin & Hcov).
      rewrite Eadd, <- app_assoc.
      assert (Hperm : Permutation (A ++ (sg ++ [x]) ++ p1 ++ p2) (seq 0 net_size)).
      { eapply Permutation_trans; [apply perm_move | apply Hinv]. }
      destruct (IH (p1 ++ p2) skipped (rest' ++ added) (sg ++ [x]))
        as (pool' & sg' & Erun & Hpost).
      * constructor.
        -- exact Hperm.
        -- rewrite app_assoc. apply NoDup_app; auto.
           intros a Ha Ha'. apply Hin in Ha'. tauto.
        -- intros y Hy. rewrite app_assoc in Hy. apply in_app_or in Hy.
           destruct Hy as [Hy|Hy].
           ++ intro H. apply in_app_or in H. destruct H as [H|[<-|[]]].
              ** revert H. apply (inv_fresh Hinv y).
                 apply in_app_or in Hy. apply in_or_app. simpl. tauto.
              ** tauto.
           ++ apply Hin. assumption.
        -- apply Hinv.
        -- intros y Hy. rewrite app_assoc in Hy. apply in_app_or in Hy.
           destruct Hy as [Hy|Hy].
           ++ destruct (inv_frontier Hinv y) as (m & Hm & Hadj).
              { apply in_app_or in Hy. apply in_or_app. simpl. tauto. }
              exists m. split; [apply in_or_app; tauto | assumption].
           ++ exists x. split; [apply in_or_app; simpl; tauto|].
              exists nb. split; [assumption | apply Hin; assumption].
        -- intros m n Hm Hadj. apply in_app_or in Hm.
           destruct Hm as [Hm|[<-|[]]].
           ++ destruct (inv_cover Hinv m n Hm Hadj) as [H|[H|H]].
              ** apply in_app_or in H. destruct H as [H|[<-|H]].
                 --- left. apply in_or_app. tauto.
                 --- right. left. apply in_or_app. simpl. tauto.
                 --- left. apply in_or_app. right. apply in_or_app. tauto.
              ** right. left. apply in_or_app. tauto.
              ** tauto.
           ++ assert (Hn : n < net_size) by (eapply Topology.wf_range; eauto).
              destruct Hadj as (l & El & Hl).
              assert (l = nb) by congruence. subst l.
              destruct (Hcov n Hl) as [H|[H|[H|H]]].
              ** left. rewrite app_assoc. apply in_or_app. tauto.
              ** left. rewrite app_assoc. apply in_or_app. tauto.
              ** tauto.
              ** destruct (perm_cover _ _ _ _ Hperm Hn) as [H'|[H'|H']]; tauto.
        -- intros m Hm. apply in_app_or in Hm. destruct Hm as [Hm|[<-|[]]].
           ++ apply Hinv. assumption.
           ++ split; [assumption|].
              apply Topology.connected_step with (v := m0); auto.
              exists cur. split; assumption.
      * rewrite length_app. simpl in Hfuel.
        rewrite degsum_app in *. unfold degsum at 2 in Hfuel. simpl in Hfuel.
        fold (degsum p2) in Hfuel.
        assert (deg x = length nb).
        { unfold deg. rewrite (nth_error_nth _ _ _ Hnb). reflexivity. }
        lia.
      * exists pool', sg'. split; [exact Erun|]. constructor; try apply Hpost.
        destruct (post_prefix Hpost) as (ext & ->).
        exists (x :: ext). rewrite <- app_assoc. reflexivity.
    + (* a boundary node *)
      replace (skipped ++ x :: rest') with ((skipped ++ [x]) ++ rest')
        by (rewrite <- app_assoc; reflexivity).
      replace (length skipped + 1) with (length (skipped ++ [x]))
        by (rewrite length_app; simpl; lia).
      destruct (IH pool (skipped ++ [x]) rest' sg) as (pool' & sg' & Erun & Hpost).
      * constructor; try (rewrite <- app_assoc; simpl; apply Hinv).
        -- apply Hinv.
        -- intros y Hy. apply in_app_or in Hy. destruct Hy as [Hy|[<-|[]]].
           ++ apply Hinv. assumption.
           ++ congruence.
        -- apply Hinv.
      * simpl in Hfuel. lia.
      * exists pool', sg'. split; assumption.
Qed.

(** A subgroup is the component of its first member. *)
Definition component (sg : list nat) : Prop :=
  exists first tl, sg = first :: tl /\ forall u, In u sg <-> connected first u.

Lemma search_subgroups_S (fuel : nat) (pool : list nat) (sgs : list (list nat)) :
  Detector.search_subgroups connection_lists deci_domi (S fuel) pool sgs =
  match pool with
  | [] => Ok sgs
  | first_member :: pool0 =>
      p_members <- index connection_lists first_member ;;
      current_domi <- index deci_domi first_member ;;
      '(pool1, sg) <-
        Detector.search_members connection_lists deci_domi
          (Detector.search_fuel connection_lists) current_domi pool0
          p_members 0 [first_member] ;;
      Detector.search_subgroups connection_lists deci_domi fuel pool1
        (sgs ++ [sg])
  end.
Proof. reflexivity. Qed.

Lemma search_subgroups_correct :
  forall fuel pool sgs,
    Permutation (concat sgs ++ pool) (seq 0 net_size) ->
    closed (concat sgs) ->
    Forall component sgs ->
    length pool < fuel ->
    exists sgs',
      Detector.search_subgroups connection_lists deci_domi fuel pool sgs
        = Ok sgs' /\
      Permutation (concat sgs') (seq 0 net_size) /\
      Forall component sgs'.
Proof.
  induction fuel as [|fuel IH]; intros pool sgs Hperm Hcl Hcomp Hfuel; [lia|].
  rewrite search_subgroups_S.
  destruct pool as [|first pool0].
  - exists sgs. rewrite app_nil_r in Hperm. auto.
  - set (A := concat sgs) in *.
    assert (Hfirst : first < net_size).
    { assert (H : In first (seq 0 net_size)).
      { apply (Permutation_in _ Hperm). apply in_or_app. right. left.
        reflexivity. }
      apply in_seq in H. lia. }
    destruct (index_lt connection_lists first) as (pm & Epm & Hpm).
    { rewrite (Topology.wf_length Hwf). assumption. }
    destruct (index_lt deci_domi first) as (cur & Ecur & Hcur); [lia|].
    rewrite Epm, Ecur. cbn [bind].
    destruct (search_members_correct A first cur Hcl
                (Detector.search_fuel connection_lists) pool0 [] pm [first])
      as (pool' & sg' & Erun & Hpost).
    + constructor.
      * exact Hperm.
      * eapply (Topology.wf_nodup Hwf). eassumption.
      * simpl. intros x Hx [<-|[]].
        apply (Topology.wf_irrefl Hwf (u := first)). exists pm. tauto.
      * intros x [].
      * simpl. intros x Hx. exists first. split; [tauto|]. exists pm. tauto.
      * simpl. intros m n [<-|[]] (l & El & Hl). left. congruence.
      * intros m [<-|[]]. split; [assumption | constructor].
    + unfold Detector.search_fuel. rewrite <- degsum_all.
      rewrite (degsum_perm _ _ (Permutation_sym Hperm)).
      rewrite degsum_app. unfold degsum at 3. simpl. fold (degsum pool0).
      assert (deg first = length pm).
      { unfold deg. rewrite (nth_error_nth _ _ _ Hpm). reflexivity. }
      lia.
    + cbn [app length] in Erun. rewrite Erun. cbn [bind].
      destruct (post_prefix Hpost) as (ext & Eext). simpl in Eext.
      destruct (IH pool' (sgs ++ [sg'])) as (sgs' & Efin & Hp' & Hc').
      * rewrite concat_app. simpl. rewrite app_nil_r, <- app_assoc.
        apply Hpost.
      * rewrite concat_app. simpl. rewrite app_nil_r.
        intros a b Ha Hadj Hsame. apply in_app_or in Ha.
        apply in_or_app. destruct Ha as [Ha|Ha].
        -- left. apply (Hcl a b); assumption.
        -- destruct (post_closed Hpost a b Ha Hadj Hsame); tauto.
      * apply Forall_app. split; [assumption|]. constructor; [|constructor].
        exists first, ext. split; [assumption|].
        intro u. split.
        -- intro Hu. apply (post_members Hpost u Hu).
        -- intro Hu. induction Hu as [|v w Hv IHv Hadj Hsame].
           ++ rewrite Eext. left. reflexivity.
           ++ destruct (post_closed Hpost v w IHv Hadj Hsame) as [H|H];
                [assumption|].
              exfalso.
              apply (perm_disjoint _ _ _ v (post_perm Hpost) IHv).
              apply (Hcl w v H).
              ** apply (Topology.wf_sym Hwf). assumption.
              ** apply same_domi_sym. assumption.
      * pose proof (Permutation_length Hperm) as L1.
        pose proof (Permutation_length (post_perm Hpost)) as L2.
        rewrite Eext in L2. rewrite !length_app in L1, L2.
        simpl in L1, L2, Hfuel. rewrite ?length_app in L2. lia.
      * exists sgs'. auto.
Qed.

Lemma update_subgroups_correct :
  exists sgs,
    Detector.update_subgroups connection_lists deci_domi net_size = Ok sgs /\
    Permutation (concat sgs) (seq 0 net_size) /\
    Forall component sgs.
Proof.
  unfold Detector.update_subgroups.
  apply search_subgroups_correct.
  - simpl. apply Permutation_refl.
  - intros a b [].
  - constructor.
  - rewrite length_seq. lia.
Qed.

(** *** The subgroup sizes and the check on [traverse_list] *)

Lemma assign_sizes_correct (size_temp : nat) :
  forall sub ss tl tl',
    Permutation tl (sub ++ tl') ->
    (forall i, In i sub -> i < length ss) ->
    exists ss1 tl1,
      Detector.assign_sizes size_temp sub ss tl = Ok (ss1, tl1) /\
      Permutation tl1 tl' /\
      length ss1 = length ss /\
      (forall i, In i sub -> nth_error ss1 i = Some size_temp) /\
      (forall i, ~ In i sub -> nth_error ss1 i = nth_error ss i).
Proof.
  clear Hwf Hdomi.
  induction sub as [|i sub IH]; intros ss tl tl' Hperm Hrange; simpl.
  - exists ss, tl. repeat split; auto. intros i [].
  - assert (Hi : i < length ss) by (apply Hrange; left; reflexivity).
    rewrite (set_item_lt ss i size_temp Hi). cbn [bind].
    assert (Hin : In i tl).
    { apply (Permutation_in _ (Permutation_sym Hperm)). left. reflexivity. }
    destruct (list_remove_in i tl Hin) as (l1 & l2 & -> & Er).
    rewrite Er. cbn [bind].
    destruct (IH (upd ss i size_temp) (l1 ++ l2) tl')
      as (ss1 & tl1 & E & Hp & Hlen & Hset & Hframe).
    + apply Permutation_sym in Hperm. simpl in Hperm.
      apply Permutation_cons_app_inv in Hperm.
      apply Permutation_sym. assumption.
    + intros j Hj. rewrite upd_length. apply Hrange. right. assumption.
    + exists ss1, tl1. split; [exact E|]. split; [exact Hp|].
      split; [rewrite Hlen; apply upd_length|]. split.
      * intros j Hj. destruct (in_dec Nat.eq_dec j sub) as [Hs|Hs].
        -- apply Hset. assumption.
        -- destruct Hj as [<-|Hj]; [|tauto].
           rewrite (Hframe i Hs). apply nth_error_upd_same. assumption.
      * intros j Hj. rewrite Hframe by tauto.
        apply nth_error_upd_other. tauto.
Qed.

Lemma assign_all_correct :
  forall sgs ss tl tl',
    Permutation tl (concat sgs ++ tl') ->
    (forall i, In i (concat sgs) -> i < length ss) ->
    NoDup (concat sgs) ->
    exists ss1 tl1,
      Detector.assign_all sgs ss tl = Ok (ss1, tl1) /\
      Permutation tl1 tl' /\
      length ss1 = length ss /\
      (forall sg i, In sg sgs -> In i sg -> nth_error ss1 i = Some (length sg)) /\
      (forall i, ~ In i (concat sgs) -> nth_error ss1 i = nth_error ss i).
Proof.
  clear Hwf Hdomi.
  induction sgs as [|sg sgs IH]; intros ss tl tl' Hperm Hrange Hnd; simpl.
  - exists ss, tl. repeat split; auto. intros sg i [].
  - simpl in Hperm, Hrange, Hnd. rewrite <- app_assoc in Hperm.
    destruct (assign_sizes_correct (length sg) sg ss tl (concat sgs ++ tl') Hperm)
      as (ss1 & tl1 & E1 & Hp1 & Hlen1 & Hset1 & Hframe1).
    { intros i Hi. apply Hrange. apply in_or_app. tauto. }
    rewrite E1. cbn [bind].
    destruct (IH ss1 tl1 tl' Hp1) as (ss2 & tl2 & E2 & Hp2 & Hlen2 & Hset2 & Hframe2).
    { intros i Hi. rewrite Hlen1. apply Hrange. apply in_or_app. tauto. }
    { apply NoDup_app_remove_l in Hnd. assumption. }
    exists ss2, tl2. split; [exact E2|]. split; [exact Hp2|].
    split; [congruence|]. split.
    + intros sg' i [<-|Hsg'] Hi.
      * rewrite Hframe2; [apply Hset1; assumption|].
        apply (nodup_app_disjoint sg (concat sgs) i); assumption.
      * apply (Hset2 sg' i); assumption.
    + intros i Hi. rewrite Hframe2, Hframe1; auto;
        intro Hc; apply Hi; apply in_or_app; tauto.
Qed.

Lemma update_subsizes_correct (sgs : list (list nat)) (ss : list nat) :
  Permutation (concat sgs) (seq 0 net_size) ->
  length ss = net_size ->
  exists ss',
    Detector.update_subsizes net_size sgs ss = Ok ss' /\
    length ss' = net_size /\
    (forall sg i, In sg sgs -> In i sg -> nth_error ss' i = Some (length sg)).
Proof.
  clear Hwf Hdomi.
  intros Hperm Hlen. unfold Detector.update_subsizes.
  destruct (assign_all_correct sgs ss (seq 0 net_size) [])
    as (ss1 & tl1 & E & Hp & Hl & Hset & _).
  - rewrite app_nil_r. apply Permutation_sym. assumption.
  - intros i Hi. apply (Permutation_in _ Hperm) in Hi.
    apply in_seq in Hi. lia.
  - apply (Permutation_NoDup (Permutation_sym Hperm)). apply seq_NoDup.
  - rewrite E. cbn [bind]. apply Permutation_sym, Permutation_nil in Hp.
    subst tl1. simpl. exists ss1. split; [reflexivity|].
    split; [congruence | assumption].
Qed.

(** *** Components *)

Lemma connected_trans (u v w : nat) :
  connected u v -> connected v w -> connected u w.
Proof.
  intros Huv Hvw. induction Hvw as [|x y Hx IH Hadj Hsame]; [assumption|].
  apply Topology.connected_step with (v := x); assumption.
Qed.

Lemma connected_sym (u v : nat) : connected u v -> connected v u.
Proof.
  intro H. induction H as [|x y Hx IH Hadj Hsame]; [constructor|].
  apply connected_trans with (v := x); [|assumption].
  apply Topology.connected_step with (v := y); [constructor | |].
  - apply (Topology.wf_sym Hwf). assumption.
  - apply same_domi_sym. assumption.
Qed.

Lemma component_of_member (sg : list nat) (v : nat) :
  component sg -> In v sg -> forall u, In u sg <-> connected v u.
Proof.
  intros (first & tl & -> & Hc) Hv u. rewrite Hc. apply Hc in Hv. split.
  - intro Hu. apply connected_trans with (v := first);
      [apply connected_sym|]; assumption.
  - intro Hu. apply connected_trans with (v := v); assumption.
Qed.

(** *** The breadth-first traversal reaches the same component *)







End DetectorFacts.

(** The search and the pass over the sizes, on a well-formed topology. *)
Lemma detector_total (connection_lists : list (list nat))
    (deci_domi : list nat) (net_size : nat) :
  Topology.well_formed connection_lists net_size ->
  length deci_domi = net_size ->
  exists subgroups,
    Detector.update_subgroups connection_lists deci_domi net_size
      = Ok subgroups /\
    Permutation (concat subgroups) (seq 0 net_size) /\
    Forall (component connection_lists deci_domi) subgroups /\
    forall subsizes, length subsizes = net_size ->
      exists subsizes',
        Detector.update_subsizes net_size subgroups subsizes = Ok subsizes' /\
        length subsizes' = net_size /\
        forall sub i, In sub subgroups -> In i sub ->
          nth_error subsizes' i = Some (length sub).
Proof.
  intros Hwf Hdomi.
  destruct (update_subgroups_correct connection_lists deci_domi net_size Hwf Hdomi)
    as (sgs & E & Hperm & Hcomp).
  exists sgs. split; [exact E|]. split; [exact Hperm|]. split; [exact Hcomp|].
  intros ss Hss. apply update_subsizes_correct; assumption.
Qed.

(** C2.  On a well-formed topology the subgroup search ends without an
    exception and its subgroups partition the nodes [0 .. net_size-1]: their
    concatenation is a permutation of [range(net_size)], so they are pairwise
    disjoint, leave no node out and hold no node twice.  The pass over
    [traverse_list] that checks this then succeeds and gives every node the
    size of its subgroup. *)
Theorem subgroups_partition (connection_lists : list (list nat))
    (deci_domi : list nat) (net_size : nat) :
  Topology.well_formed connection_lists net_size ->
  length deci_domi = net_size ->
  exists subgroups,
    Detector.update_subgroups connection_lists deci_domi net_size
      = Ok subgroups /\
    Permutation (concat subgroups) (seq 0 net_size) /\
    forall subsizes, length subsizes = net_size ->
      exists subsizes',
        Detector.update_subsizes net_size subgroups subsizes = Ok subsizes' /\
        length subsizes' = net_size /\
        forall sub i, In sub subgroups -> In i sub ->
          nth_error subsizes' i = Some (length sub).
Proof.
  intros Hwf Hdomi.
  destruct (update_subgroups_correct connection_lists deci_domi net_size Hwf Hdomi)
    as (sgs & E & Hperm & _).
  exists sgs. split; [exact E|]. split; [exact Hperm|].
  intros ss Hss. apply update_subsizes_correct; assumption.
Qed.


(** The path 0-1-2 of the specification's small scenario. *)
Lemma path_well_formed : Topology.well_formed [[1]; [0; 2]; [1]] 3.
Proof.
  constructor.
  - reflexivity.
  - intros u v (l & El & Hl).
    destruct u as [|[|[|u]]]; simpl in El;
      try (destruct u; discriminate);
      inversion El; subst l; simpl in Hl; lia.
  - intros u (l & El & Hl).
    destruct u as [|[|[|u]]]; simpl in El;
      try (destruct u; discriminate);
      inversion El; subst l; simpl in Hl; lia.
  - intros u l El.
    destruct u as [|[|[|u]]]; simpl in El;
      try (destruct u; discriminate);
      inversion El; subst l;
      repeat (constructor; [simpl; lia|]); constructor.
  - intros u v (l & El & Hl).
    destruct u as [|[|[|u]]]; simpl in El;
      try (destruct u; discriminate);
      inversion El; subst l; simpl in Hl;
      repeat (destruct Hl as [<-|Hl]); try contradiction;
      eexists; (split; [reflexivity | simpl; tauto]).
Qed.

Lemma subgroups_partition_witness :
  exists subgroups,
    Detector.update_subgroups [[1]; [0; 2]; [1]] [0; 0; 0] 3 = Ok subgroups /\
    Permutation (concat subgroups) (seq 0 3) /\
    forall subsizes, length subsizes = 3 ->
      exists subsizes',
        Detector.update_subsizes 3 subgroups subsizes = Ok subsizes' /\
        length subsizes' = 3 /\
        forall sub i, In sub subgroups -> In i sub ->
          nth_error subsizes' i = Some (length sub).
Proof.
  exact (subgroups_partition [[1]; [0; 2]; [1]] [0; 0; 0] 3
           path_well_formed eq_refl).
Defined.


(** The small scenario of the specification: with equal dominant decisions
    the three nodes of the path form one subgroup; a differing middle node
    splits it in three. *)
Example path_subgroups :
  Detector.update_subgroups [[1]; [0; 2]; [1]] [0; 0; 0] 3 = Ok [[0; 1; 2]].
Proof. reflexivity. Qed.

Example path_subgroups_split :
  Detector.update_subgroups [[1]; [0; 2]; [1]] [0; 1; 0] 3 = Ok [[0]; [1]; [2]].
Proof. reflexivity. Qed.

Example path_subsizes :
  Detector.update_subsizes 3 [[0; 1; 2]] [0; 0; 0] = Ok [3; 3; 3].
Proof. reflexivity. Qed.

(** Without symmetry the search can meet a node that an earlier subgroup
    took out of the pool, and [n_pool.remove] raises. *)
Example asymmetric_topology_raises :
  Detector.update_subgroups [[]; [0]] [0; 0] 2 = Raise ValueError.
Proof. reflexivity. Qed.

(** ** Rows *)

Section RowFacts.

Local Open Scope R_scope.

Lemma upd_upd {A : Type} (l : list A) (i : nat) (v w : A) :
  upd (upd l i v) i w = upd l i w.
Proof.
  revert i. induction l as [|h t IH]; intros [|i]; simpl; try reflexivity.
  rewrite IH. reflexivity.
Qed.

Lemma nth_upd_same {A : Type} (l : list A) (i : nat) (v d : A) :
  (i < length l)%nat -> nth i (upd l i v) d = v.
Proof.
  revert i. induction l as [|h t IH]; simpl; intros i H; [lia|].
  destruct i as [|j]; simpl; [reflexivity | apply IH; lia].
Qed.

Lemma nth_upd_other {A : Type} (l : list A) (i j : nat) (v d : A) :
  i <> j -> nth j (upd l i v) d = nth j l d.
Proof.
  revert i j. induction l as [|h t IH]; intros [|i] [|j] H; simpl;
    try reflexivity; try congruence.
  apply IH. congruence.
Qed.

Lemma map2_length (f : R -> R -> R) (a b : row) :
  length a = length b -> length (map2 f a b) = length a.
Proof.
  revert b. induction a as [|x a IH]; intros [|y b] H; simpl in *;
    try reflexivity; try discriminate.
  rewrite IH by congruence. reflexivity.
Qed.

Lemma vadd_length (a b : row) :
  length a = length b -> length (vadd a b) = length a.
Proof. apply map2_length. Qed.

Lemma vscale_length (a : row) (c : R) : length (vscale a c) = length a.
Proof. apply length_map. Qed.

Lemma vdiv_length (a : row) (c : R) : length (vdiv a c) = length a.
Proof. apply length_map. Qed.

Lemma np_sum_vadd (a b : row) :
  length a = length b -> np_sum (vadd a b) = np_sum a + np_sum b.
Proof.
  unfold np_sum, vadd. revert b.
  induction a as [|x a IH]; intros [|y b] H; simpl in *;
    try discriminate; [lra|].
  rewrite IH by congruence. lra.
Qed.

Lemma np_sum_vscale (a : row) (c : R) : np_sum (vscale a c) = np_sum a * c.
Proof.
  unfold np_sum, vscale. induction a as [|x a IH]; simpl; [lra|].
  rewrite IH. lra.
Qed.

Lemma np_sum_vdiv (a : row) (c : R) : np_sum (vdiv a c) = np_sum a / c.
Proof.
  unfold np_sum, vdiv. induction a as [|x a IH]; simpl; [unfold Rdiv; lra|].
  rewrite IH. unfold Rdiv. lra.
Qed.

Lemma np_sum_normalize (r : row) : np_sum r <> 0 -> np_sum (normalize r) = 1.
Proof.
  intro H. unfold normalize. rewrite np_sum_vdiv. field. assumption.
Qed.

Lemma vscale_one (a : row) : vscale a 1 = a.
Proof.
  unfold vscale. induction a as [|x a IH]; simpl; [reflexivity|].
  rewrite IH. f_equal. lra.
Qed.

Lemma np_sum_nonneg (a : row) : Forall (fun x => 0 <= x) a -> 0 <= np_sum a.
Proof.
  unfold np_sum. induction 1 as [|x a Hx Ha IH]; simpl; lra.
Qed.

Lemma vadd_nonneg (a b : row) :
  Forall (fun x => 0 <= x) a -> Forall (fun x => 0 <= x) b ->
  Forall (fun x => 0 <= x) (vadd a b).
Proof.
  intro Ha. revert b. induction Ha as [|x a Hx Ha IH]; intros b Hb; simpl.
  - constructor.
  - destruct Hb as [|y b Hy Hb]; constructor; [lra|].
    apply IH. assumption.
Qed.

Lemma vscale_nonneg (a : row) (c : R) :
  0 <= c -> Forall (fun x => 0 <= x) a -> Forall (fun x => 0 <= x) (vscale a c).
Proof.
  intros Hc Ha. induction Ha as [|x a Hx Ha IH]; simpl; constructor;
    [apply Rmult_le_pos; assumption | assumption].
Qed.

Lemma vdiv_nonneg (a : row) (c : R) :
  0 < c -> Forall (fun x => 0 <= x) a -> Forall (fun x => 0 <= x) (vdiv a c).
Proof.
  intros Hc Ha. induction Ha as [|x a Hx Ha IH]; simpl; constructor;
    [|assumption].
  apply Rmult_le_pos; [assumption|]. left. apply Rinv_0_lt_compat. assumption.
Qed.

Lemma normalize_distribution (n : nat) (r : row) :
  length r = n -> Forall (fun x => 0 <= x) r -> 0 < np_sum r ->
  distribution n (normalize r).
Proof.
  intros Hlen Hnn Hpos. unfold distribution, normalize. split; [|split].
  - rewrite vdiv_length. assumption.
  - apply vdiv_nonneg; assumption.
  - apply np_sum_normalize. lra.
Qed.

End RowFacts.

(** ** The two averages *)

Section AverageFacts.

Local Open Scope R_scope.

Variable deci_num : nat.
Variable connection_lists : list (list nat).
Variable deci_domi : list nat.
Variable subsizes : list nat.
Variable deci_dist_t : matrix.

Lemma index_nth {A : Type} (l : list A) (n : nat) (d : A) :
  (n < length l)%nat -> index l n = Ok (nth n l d).
Proof.
  intro H. apply index_ok. apply nth_error_nth'. assumption.
Qed.

Lemma upd_same {A : Type} (l : list A) (i : nat) (v : A) :
  nth_error l i = Some v -> upd l i v = l.
Proof.
  revert i. induction l as [|h t IH]; intros [|i] H; simpl in *;
    try discriminate; try congruence.
  rewrite IH by assumption. reflexivity.
Qed.

Lemma nth_error_length {A : Type} (l : list A) (i : nat) (v : A) :
  nth_error l i = Some v -> (i < length l)%nat.
Proof. intro H. apply nth_error_Some. congruence. Qed.

Lemma accumulate_ok (neighbors : list nat) :
  forall deci_dist i cur,
    nth_error deci_dist i = Some cur ->
    (forall n, In n neighbors -> (n < length deci_dist_t)%nat) ->
    Evolution.accumulate deci_dist_t deci_dist i neighbors =
    Ok (upd deci_dist i
          (fold_left (fun acc n => vadd acc (nth n deci_dist_t []))
             neighbors cur)).
Proof.
  induction neighbors as [|n rest IH]; intros dd i cur Hcur Hr; simpl.
  - rewrite upd_same by assumption. reflexivity.
  - rewrite (index_nth_error _ _ _ Hcur). cbn [bind].
    rewrite (index_nth deci_dist_t n []) by (apply Hr; left; reflexivity).
    cbn [bind].
    pose proof (nth_error_length _ _ _ Hcur) as Hi.
    rewrite (set_item_lt dd i _ Hi). cbn [bind].
    rewrite (IH (upd dd i (vadd cur (nth n deci_dist_t []))) i
               (vadd cur (nth n deci_dist_t []))).
    + rewrite upd_upd. reflexivity.
    + apply nth_error_upd_same. assumption.
    + intros m Hm. apply Hr. right. assumption.
Qed.

Lemma accumulate_weighted_ok (neighbors : list nat) :
  forall deci_dist i cur,
    nth_error deci_dist i = Some cur ->
    (forall n, In n neighbors ->
       (n < length deci_dist_t)%nat /\ (n < length subsizes)%nat) ->
    Evolution.accumulate_weighted subsizes deci_dist_t deci_dist i neighbors =
    Ok (upd deci_dist i
          (fold_left
             (fun acc n =>
                vadd acc (vscale (nth n deci_dist_t []) (INR (nth n subsizes 0%nat))))
             neighbors cur)).
Proof.
  induction neighbors as [|n rest IH]; intros dd i cur Hcur Hr; simpl.
  - rewrite upd_same by assumption. reflexivity.
  - rewrite (index_nth_error _ _ _ Hcur). cbn [bind].
    destruct (Hr n (or_introl eq_refl)) as [Hn1 Hn2].
    rewrite (index_nth deci_dist_t n [] Hn1). cbn [bind].
    rewrite (index_nth subsizes n 0%nat Hn2). cbn [bind].
    pose proof (nth_error_length _ _ _ Hcur) as Hi.
    rewrite (set_item_lt dd i _ Hi). cbn [bind].
    rewrite (IH (upd dd i _) i _ (nth_error_upd_same dd i _ Hi)).
    + rewrite upd_upd. reflexivity.
    + intros m Hm. apply Hr. right. assumption.
Qed.

Lemma normalize_row_ok (deci_dist : matrix) (i : nat) (cur : row) :
  nth_error deci_dist i = Some cur ->
  Evolution.normalize_row deci_dist i = Ok (upd deci_dist i (normalize cur)).
Proof.
  intro H. unfold Evolution.normalize_row.
  rewrite (index_nth_error _ _ _ H). cbn [bind].
  apply set_item_lt. eapply nth_error_length. eassumption.
Qed.

Lemma fold_left_ext {A B : Type} (f g : A -> B -> A) (l : list B) (a : A) :
  (forall x y, f x y = g x y) -> fold_left f l a = fold_left g l a.
Proof.
  intro H. revert a. induction l as [|b l IH]; intro a; simpl;
    [reflexivity|]. rewrite H. apply IH.
Qed.

(** Step 1 of a converged node writes the normalised sum of the rows of the
    host and its neighbors in [deci_dist_t], each taken once. *)
Lemma equal_average_ok (deci_dist : matrix) (i : nat) (neighbors : list nat) :
  (i < length deci_dist)%nat ->
  (i < length deci_dist_t)%nat ->
  (forall n, In n neighbors -> (n < length deci_dist_t)%nat) ->
  Evolution.equal_average deci_dist_t deci_dist i neighbors =
  Ok (upd deci_dist i
        (normalize (clique_sum (fun _ => 1) deci_dist_t i neighbors))).
Proof.
  intros Hi Hit Hr. unfold Evolution.equal_average.
  rewrite (index_nth deci_dist_t i [] Hit). cbn [bind].
  rewrite (set_item_lt deci_dist i _ Hi). cbn [bind].
  rewrite (accumulate_ok neighbors _ i _ (nth_error_upd_same deci_dist i _ Hi) Hr).
  cbn [bind]. rewrite upd_upd.
  rewrite (normalize_row_ok _ i _ (nth_error_upd_same deci_dist i _ Hi)).
  rewrite upd_upd. unfold clique_sum.
  do 3 f_equal. apply fold_left_ext. intros x y. rewrite vscale_one.
  reflexivity.
Qed.

(** The update of a divergent node writes the normalised sum of the same
    rows, each weighted by the subgroup size of its node. *)
Lemma weighted_average_ok (deci_dist : matrix) (i : nat) (neighbors : list nat) :
  (i < length deci_dist)%nat ->
  (i < length deci_dist_t)%nat ->
  (i < length subsizes)%nat ->
  (forall n, In n neighbors ->
     (n < length deci_dist_t)%nat /\ (n < length subsizes)%nat) ->
  Evolution.weighted_average subsizes deci_dist_t deci_dist i neighbors =
  Ok (upd deci_dist i
        (normalize
           (clique_sum (fun n => INR (nth n subsizes 0%nat)) deci_dist_t i
              neighbors))).
Proof.
  intros Hi Hit His Hr. unfold Evolution.weighted_average.
  rewrite (index_nth deci_dist_t i [] Hit). cbn [bind].
  rewrite (index_nth subsizes i 0%nat His). cbn [bind].
  rewrite (set_item_lt deci_dist i _ Hi). cbn [bind].
  rewrite (accumulate_weighted_ok neighbors _ i _
             (nth_error_upd_same deci_dist i _ Hi) Hr).
  cbn [bind]. rewrite upd_upd.
  rewrite (normalize_row_ok _ i _ (nth_error_upd_same deci_dist i _ Hi)).
  rewrite upd_upd. reflexivity.
Qed.

End AverageFacts.

(** ** The bubble sort of the linear multiplier *)

Section BubbleFacts.

Local Open Scope R_scope.

Variable deci_num : nat.

(** The sorted values and the indices they come from, as one list of
    pairs. *)
Definition unzip (zs : list (R * nat)) : row * list nat :=
  (map fst zs, map snd zs).

(** One pass of adjacent exchanges over the first [n] positions. *)
Fixpoint bubble (n : nat) (zs : list (R * nat)) : list (R * nat) :=
  match n, zs with
  | S n', a :: b :: t =>
      if Rgt_dec (fst a) (fst b) then b :: bubble n' (a :: t)
      else a :: bubble n' (b :: t)
  | _, _ => zs
  end.

Definition le_fst (x y : R * nat) : Prop := fst x <= fst y.

Lemma upd_middle {A : Type} (l1 l2 : list A) (x v : A) :
  upd (l1 ++ x :: l2) (length l1) v = l1 ++ v :: l2.
Proof.
  induction l1 as [|h t IH]; simpl; [reflexivity|]. rewrite IH. reflexivity.
Qed.

Lemma nth_middle' {A : Type} (l1 l2 : list A) (x d : A) :
  nth (length l1) (l1 ++ x :: l2) d = x.
Proof.
  rewrite app_nth2 by lia. rewrite Nat.sub_diag. reflexivity.
Qed.

Lemma exchange_middle {A : Type} (d : A) (l1 l2 : list A) (x y : A) :
  Evolution.exchange d (l1 ++ x :: y :: l2) (length l1) = l1 ++ y :: x :: l2.
Proof.
  unfold Evolution.exchange. rewrite nth_middle'.
  replace (nth (length l1 + 1) (l1 ++ x :: y :: l2) d) with y.
  - rewrite upd_middle.
    replace (l1 ++ y :: y :: l2) with ((l1 ++ [y]) ++ y :: l2)
      by (rewrite <- app_assoc; reflexivity).
    replace (length l1 + 1)%nat with (length (l1 ++ [y]))
      by (rewrite length_app; reflexivity).
    rewrite upd_middle, <- app_assoc. reflexivity.
  - replace (l1 ++ x :: y :: l2) with ((l1 ++ [x]) ++ y :: l2)
      by (rewrite <- app_assoc; reflexivity).
    replace (length l1 + 1)%nat with (length (l1 ++ [x]))
      by (rewrite length_app; reflexivity).
    rewrite nth_middle'. reflexivity.
Qed.

Lemma nth_next {A : Type} (l1 l2 : list A) (x y d : A) :
  nth (length l1 + 1) (l1 ++ x :: y :: l2) d = y.
Proof.
  replace (l1 ++ x :: y :: l2) with ((l1 ++ [x]) ++ y :: l2)
    by (rewrite <- app_assoc; reflexivity).
  replace (length l1 + 1)%nat with (length (l1 ++ [x]))
    by (rewrite length_app; reflexivity).
  apply nth_middle'.
Qed.

Lemma bubble_step_lists (d1 d2 : row) (s1 s2 : list nat) (x y : R)
    (ix iy : nat) :
  length d1 = length s1 ->
  Evolution.bubble_step (d1 ++ x :: y :: d2, s1 ++ ix :: iy :: s2) (length d1) =
  if Rgt_dec x y then (d1 ++ y :: x :: d2, s1 ++ iy :: ix :: s2)
  else (d1 ++ x :: y :: d2, s1 ++ ix :: iy :: s2).
Proof.
  intro Hlen. unfold Evolution.bubble_step.
  rewrite nth_middle', nth_next.
  destruct (Rgt_dec x y); [|reflexivity].
  rewrite exchange_middle. rewrite Hlen, exchange_middle. reflexivity.
Qed.

Lemma bubble_step_zip (pre post : list (R * nat)) (a b : R * nat) :
  Evolution.bubble_step (unzip (pre ++ a :: b :: post)) (length pre) =
  unzip (pre ++ (if Rgt_dec (fst a) (fst b) then [b; a] else [a; b]) ++ post).
Proof.
  unfold unzip. rewrite !map_app. simpl map.
  rewrite <- (length_map fst pre).
  rewrite bubble_step_lists by (rewrite !length_map; reflexivity).
  destruct (Rgt_dec (fst a) (fst b)); rewrite ?map_app; reflexivity.
Qed.

Lemma bubble_fold (n : nat) :
  forall pre zs,
    (n < length zs)%nat ->
    fold_left Evolution.bubble_step (seq (length pre) n) (unzip (pre ++ zs)) =
    unzip (pre ++ bubble n zs).
Proof.
  induction n as [|n IH]; intros pre zs Hn.
  - destruct zs as [|a [|b t]]; reflexivity.
  - destruct zs as [|a [|b t]]; simpl in Hn; try lia.
    cbn [seq fold_left]. rewrite bubble_step_zip.
    simpl bubble. destruct (Rgt_dec (fst a) (fst b)).
    + replace (pre ++ [b; a] ++ t) with ((pre ++ [b]) ++ a :: t)
        by (rewrite <- app_assoc; reflexivity).
      replace (S (length pre)) with (length (pre ++ [b]))
        by (rewrite length_app; simpl; lia).
      rewrite IH by (simpl; lia). rewrite <- app_assoc. reflexivity.
    + replace (pre ++ [a; b] ++ t) with ((pre ++ [a]) ++ b :: t)
        by (rewrite <- app_assoc; reflexivity).
      replace (S (length pre)) with (length (pre ++ [a]))
        by (rewrite length_app; simpl; lia).
      rewrite IH by (simpl; lia). rewrite <- app_assoc. reflexivity.
Qed.

(** A pass moves a largest value of the first [n+1] positions to position
    [n] and leaves the positions behind it alone. *)
Lemma bubble_max (n : nat) :
  forall zs,
    (n < length zs)%nat ->
    exists front m,
      bubble n zs = front ++ m :: skipn (S n) zs /\
      length front = n /\
      Permutation (front ++ [m]) (firstn (S n) zs) /\
      Forall (fun x => le_fst x m) front.
Proof.
  induction n as [|n IH]; intros zs Hn.
  - destruct zs as [|a t]; simpl in Hn; [lia|].
    exists [], a. simpl. destruct t; repeat split; auto.
  - destruct zs as [|a [|b t]]; simpl in Hn; try lia.
    simpl bubble. destruct (Rgt_dec (fst a) (fst b)) as [Hgt|Hle].
    + destruct (IH (a :: t)) as (front & m & E & Hlen & Hperm & Hall);
        [simpl; lia|].
      exists (b :: front), m. rewrite E. split; [reflexivity|].
      split; [simpl; lia|]. split.
      * simpl. simpl in Hperm.
        apply Permutation_trans with (b :: a :: firstn n t);
          [constructor; assumption | apply perm_swap].
      * constructor; [|assumption].
        assert (Ha : In a (front ++ [m])).
        { apply (Permutation_in _ (Permutation_sym Hperm)). left. reflexivity. }
        unfold le_fst. apply in_app_or in Ha. destruct Ha as [Ha|[<-|[]]].
        -- rewrite Forall_forall in Hall. specialize (Hall a Ha).
           unfold le_fst in Hall. lra.
        -- lra.
    + destruct (IH (b :: t)) as (front & m & E & Hlen & Hperm & Hall);
        [simpl; lia|].
      exists (a :: front), m. rewrite E. split; [reflexivity|].
      split; [simpl; lia|]. split.
      * simpl. simpl in Hperm. constructor. assumption.
      * constructor; [|assumption].
        assert (Hb : In b (front ++ [m])).
        { apply (Permutation_in _ (Permutation_sym Hperm)). left. reflexivity. }
        unfold le_fst. apply in_app_or in Hb. destruct Hb as [Hb|[<-|[]]].
        -- rewrite Forall_forall in Hall. specialize (Hall b Hb).
           unfold le_fst in Hall. lra.
        -- lra.
Qed.

Lemma bubble_pass_zip (zs : list (R * nat)) (j : nat) :
  (deci_num - 1 - j < length zs)%nat ->
  Evolution.bubble_pass deci_num (unzip zs) j =
  unzip (bubble (deci_num - 1 - j) zs).
Proof.
  intro H. unfold Evolution.bubble_pass.
  apply (bubble_fold (deci_num - 1 - j) [] zs H).
Qed.

(** After [j] passes the last [j] positions are sorted and hold the largest
    values. *)
Record pass_inv (zs0 : list (R * nat)) (j : nat) (zs : list (R * nat)) : Prop := {
  pass_length : length zs = deci_num;
  pass_perm : Permutation zs zs0;
  pass_split : exists front back,
      zs = front ++ back /\ length back = j /\
      StronglySorted le_fst back /\
      (forall x y, In x front -> In y back -> le_fst x y)
}.

Lemma bubble_passes (zs0 : list (R * nat)) (k : nat) :
  forall j zs,
    (j + k <= deci_num - 1)%nat ->
    pass_inv zs0 j zs ->
    exists zs',
      fold_left (Evolution.bubble_pass deci_num) (seq j k) (unzip zs) = unzip zs' /\
      pass_inv zs0 (j + k) zs'.
Proof.
  induction k as [|k IH]; intros j zs Hjk Hinv.
  - exists zs. rewrite Nat.add_0_r. split; [reflexivity | assumption].
  - cbn [seq fold_left].
    destruct Hinv as [Hlen Hperm (front & back & Ezs & Hback & Hsorted & Hle)].
    rewrite bubble_pass_zip by lia.
    destruct (bubble_max (deci_num - 1 - j) zs) as (front' & m & E & Hlen' & Hperm' & Hall);
      [lia|].
    assert (Hfront : length front = S (deci_num - 1 - j)).
    { rewrite Ezs, length_app in Hlen. lia. }
    assert (Hfirst : firstn (S (deci_num - 1 - j)) zs = front).
    { rewrite Ezs, <- Hfront, firstn_app, Nat.sub_diag, firstn_all. simpl.
      apply app_nil_r. }
    assert (Hskip : skipn (S (deci_num - 1 - j)) zs = back).
    { rewrite Ezs, <- Hfront, skipn_app, Nat.sub_diag, skipn_all. reflexivity. }
    rewrite Hfirst in Hperm'. rewrite Hskip in E.
    assert (Hm : In m front).
    { apply (Permutation_in _ Hperm'). apply in_or_app. right. left. reflexivity. }
    assert (Hsub : forall x, In x front' -> In x front).
    { intros x Hx. apply (Permutation_in _ Hperm'). apply in_or_app. tauto. }
    destruct (IH (S j) (bubble (deci_num - 1 - j) zs)) as (zs' & Efold & Hinv');
      [lia| |].
    + rewrite E. constructor.
      * rewrite length_app. simpl. lia.
      * apply Permutation_trans with zs; [|assumption].
        rewrite Ezs.
        replace (front' ++ m :: back) with ((front' ++ [m]) ++ back)
          by (rewrite <- app_assoc; reflexivity).
        apply Permutation_app_tail. assumption.
      * exists front', (m :: back). split; [reflexivity|].
        split; [simpl; lia|]. split.
        -- constructor; [assumption|].
           apply Forall_forall. intros y Hy. apply Hle; assumption.
        -- intros x y Hx [<-|Hy].
           ++ rewrite Forall_forall in Hall. apply Hall. assumption.
           ++ apply Hle; [apply Hsub|]; assumption.
    + exists zs'. split; [assumption|].
      replace (j + S k)%nat with (S j + k)%nat by lia. assumption.
Qed.

Lemma unzip_combine (dist : row) (idx : list nat) :
  length dist = length idx -> unzip (combine dist idx) = (dist, idx).
Proof.
  unfold unzip. revert idx.
  induction dist as [|x dist IH]; intros [|i idx] H; simpl in *;
    try discriminate; [reflexivity|].
  injection (IH idx (eq_add_S _ _ H)) as E1 E2. rewrite E1, E2. reflexivity.
Qed.

Lemma in_combine_seq (dist : row) (v : R) (i : nat) :
  forall s,
    In (v, i) (combine dist (seq s (length dist))) ->
    (s <= i < s + length dist)%nat /\ v = nth (i - s) dist 0.
Proof.
  induction dist as [|x dist IH]; intros s H; simpl in H; [contradiction|].
  destruct H as [H|H].
  - inversion H; subst. split; [simpl; lia|].
    rewrite Nat.sub_diag. reflexivity.
  - destruct (IH (S s) H) as [Hr Hv]. split; [simpl; lia|].
    replace (i - s)%nat with (S (i - S s)) by lia. simpl. assumption.
Qed.

(** The bubble sort returns the values in ascending order, each with the
    index it holds in the row. *)
Lemma bubble_sort_spec (dist : row) :
  length dist = deci_num ->
  exists zs,
    Evolution.bubble_sort deci_num dist = unzip zs /\
    length zs = deci_num /\
    Permutation zs (combine dist (seq 0 deci_num)) /\
    StronglySorted le_fst zs.
Proof.
  intro Hlen. unfold Evolution.bubble_sort.
  set (zs0 := combine dist (seq 0 deci_num)).
  assert (Hzs0 : length zs0 = deci_num).
  { unfold zs0. rewrite length_combine, length_seq. lia. }
  rewrite <- (unzip_combine dist (seq 0 deci_num))
    by (rewrite length_seq; assumption).
  fold zs0.
  destruct (bubble_passes zs0 (deci_num - 1) 0 zs0) as (zs & E & Hinv).
  - lia.
  - constructor; [assumption | apply Permutation_refl|].
    exists zs0, []. rewrite app_nil_r. repeat split; auto.
    + constructor.
    + intros x y _ [].
  - exists zs. destruct Hinv as [Hl Hp (front & back & Ezs & Hback & Hsorted & Hle)].
    split; [exact E|]. split; [exact Hl|]. split; [exact Hp|].
    rewrite Ezs. rewrite Ezs, length_app in Hl. simpl in Hback.
    destruct front as [|x [|y front]]; simpl in *.
    + assumption.
    + constructor; [assumption|]. apply Forall_forall. intros y Hy.
      apply Hle; [left; reflexivity | assumption].
    + lia.
Qed.

End BubbleFacts.

(** ** The linear multiplier *)

Section SharpenFacts.

Local Open Scope R_scope.

Variable deci_num : nat.


Lemma np_power_range (r p : R) :
  0 <= r < 1 -> 0 < p -> 0 <= np_power r p < 1.
Proof.
  intros [Hr0 Hr1] Hp. unfold np_power.
  destruct (Req_dec_T r 0) as [->|Hr].
  - destruct (Req_dec_T p 0); lra.
  - unfold Rpower. split; [left; apply exp_pos|].
    rewrite <- exp_0. apply exp_increasing.
    assert (Hln : ln r < 0).
    { rewrite <- ln_1. apply ln_increasing; lra. }
    nra.
Qed.

Lemma py_div_ok (x y : R) : y <> 0 -> py_div x y = Ok (x / y).
Proof.
  intro H. unfold py_div. destruct (Req_dec_T y 0); [contradiction|reflexivity].
Qed.

Lemma INR_num_pos : (2 <= deci_num)%nat -> 2 <= INR deci_num.
Proof. intro H. apply le_INR in H. simpl in H. lra. Qed.

Lemma small_end_range (dist_diff_max : R) :
  (2 <= deci_num)%nat ->
  0 <= dist_diff_max < dist_diff_thres ->
  0 <= small_end deci_num dist_diff_max < 1 / INR deci_num.
Proof.
  intros Hnum [H0 H1]. pose proof (INR_num_pos Hnum) as HD.
  unfold small_end.
  assert (Hr : 0 <= dist_diff_max / dist_diff_thres < 1).
  { unfold dist_diff_thres in *. lra. }
  assert (Hp : 0 < dist_diff_power) by (unfold dist_diff_power; lra).
  pose proof (np_power_range _ _ Hr Hp) as [Hp0 Hp1].
  assert (Hinv : 0 < 1 / INR deci_num).
  { apply Rdiv_lt_0_compat; lra. }
  split; [apply Rmult_le_pos; lra | nra].
Qed.

Lemma multiplier_top (dist_diff_max : R) :
  (2 <= deci_num)%nat ->
  multiplier deci_num dist_diff_max (deci_num - 1) = large_end deci_num dist_diff_max.
Proof.
  intro Hnum. pose proof (INR_num_pos Hnum) as HD. unfold multiplier.
  rewrite minus_INR by lia. simpl INR. field. lra.
Qed.

Lemma multiplier_mono (dist_diff_max : R) (j k : nat) :
  (2 <= deci_num)%nat ->
  0 <= dist_diff_max < dist_diff_thres ->
  (j <= k)%nat ->
  multiplier deci_num dist_diff_max j <= multiplier deci_num dist_diff_max k.
Proof.
  intros Hnum Hd Hjk. pose proof (INR_num_pos Hnum) as HD.
  pose proof (small_end_range _ Hnum Hd) as [Hs0 Hs1].
  unfold multiplier, large_end.
  apply le_INR in Hjk.
  assert (Hq : INR j / (INR deci_num - 1) <= INR k / (INR deci_num - 1)).
  { unfold Rdiv. apply Rmult_le_compat_r; [|assumption].
    left. apply Rinv_0_lt_compat. lra. }
  assert (Hgap : 0 <= 2 / INR deci_num - small_end deci_num dist_diff_max
                      - small_end deci_num dist_diff_max).
  { assert (2 / INR deci_num = 2 * (1 / INR deci_num)) by (field; lra). lra. }
  nra.
Qed.

Lemma multiplier_nonneg (dist_diff_max : R) (j : nat) :
  (2 <= deci_num)%nat ->
  0 <= dist_diff_max < dist_diff_thres ->
  0 <= multiplier deci_num dist_diff_max j.
Proof.
  intros Hnum Hd.
  apply Rle_trans with (multiplier deci_num dist_diff_max 0).
  - unfold multiplier. simpl INR. unfold Rdiv. rewrite !Rmult_0_l, Rplus_0_r.
    apply (small_end_range _ Hnum Hd).
  - apply multiplier_mono; auto. lia.
Qed.


Lemma large_end_pos (dist_diff_max : R) :
  (2 <= deci_num)%nat ->
  0 <= dist_diff_max < dist_diff_thres ->
  0 < large_end deci_num dist_diff_max.
Proof.
  intros Hnum Hd. pose proof (INR_num_pos Hnum) as HD.
  pose proof (small_end_range _ Hnum Hd) as [Hs0 Hs1].
  unfold large_end.
  assert (2 / INR deci_num = 2 * (1 / INR deci_num)) by (field; lra).
  assert (0 < 1 / INR deci_num) by (apply Rdiv_lt_0_compat; lra).
  lra.
Qed.

End SharpenFacts.

Section SharpenRun.

Local Open Scope R_scope.

Variable deci_num : nat.
Hypothesis Hnum : (2 <= deci_num)%nat.
Variable dist_diff_max : R.

Local Abbreviation mult := (multiplier deci_num dist_diff_max).
Local Abbreviation sm := (small_end deci_num dist_diff_max).
Local Abbreviation lg := (large_end deci_num dist_diff_max).

Lemma apply_multiplier_ok (sort_index : list nat) (dist : row) (j : nat) :
  Evolution.apply_multiplier deci_num sm lg sort_index dist j =
  Ok (upd dist (nth j sort_index 0%nat)
        (nth (nth j sort_index 0%nat) dist 0 * mult j)).
Proof.
  unfold Evolution.apply_multiplier.
  pose proof (INR_num_pos deci_num Hnum) as HD.
  rewrite py_div_ok by lra. reflexivity.
Qed.

Lemma apply_multipliers_spec (sort_index : list nat) :
  forall ranks dist,
    (forall j, In j ranks -> (nth j sort_index 0 < length dist)%nat) ->
    NoDup (map (fun j => nth j sort_index 0%nat) ranks) ->
    exists dist1,
      Evolution.apply_multipliers deci_num sm lg sort_index dist ranks = Ok dist1 /\
      length dist1 = length dist /\
      (forall j, In j ranks ->
         nth (nth j sort_index 0%nat) dist1 0 =
         nth (nth j sort_index 0%nat) dist 0 * mult j) /\
      (forall t, ~ In t (map (fun j => nth j sort_index 0%nat) ranks) ->
         nth t dist1 0 = nth t dist 0).
Proof.
  induction ranks as [|j ranks IH]; intros dist Hr Hnd.
  - exists dist. simpl. repeat split; auto. intros j [].
  - cbn [Evolution.apply_multipliers]. rewrite apply_multiplier_ok. cbn [bind].
    simpl in Hnd. inversion Hnd as [|? ? Hnotin Hnd']; subst.
    set (tj := nth j sort_index 0%nat) in *.
    destruct (IH (upd dist tj (nth tj dist 0 * mult j)))
      as (dist1 & E & Hlen & Hset & Hframe).
    + intros k Hk. rewrite upd_length. apply Hr. right. assumption.
    + assumption.
    + exists dist1. split; [exact E|]. split.
      { rewrite Hlen. apply upd_length. }
      split.
      * intros k [<-|Hk].
        -- fold tj. rewrite (Hframe tj Hnotin).
           apply nth_upd_same. apply Hr. left. reflexivity.
        -- rewrite (Hset k Hk). f_equal. apply nth_upd_other.
           intro Heq. apply Hnotin. rewrite Heq.
           apply (in_map (fun j => nth j sort_index 0%nat)). assumption.
      * intros t Ht. simpl in Ht. rewrite Hframe by tauto.
        apply nth_upd_other. tauto.
Qed.

Lemma nth_map_snd (zs : list (R * nat)) (j : nat) :
  nth j (map snd zs) 0%nat = snd (nth j zs (0, 0%nat)).
Proof. apply (map_nth snd zs (0, 0%nat) j). Qed.

Lemma map_nth_seq_id {A : Type} (l : list A) (d : A) :
  map (fun t => nth t l d) (seq 0 (length l)) = l.
Proof.
  induction l as [|x l IH]; simpl; [reflexivity|].
  f_equal. rewrite <- seq_shift, map_map. exact IH.
Qed.

Lemma np_sum_perm (l l' : row) : Permutation l l' -> np_sum l = np_sum l'.
Proof.
  unfold np_sum. induction 1; simpl; lra.
Qed.

Lemma np_sum_by_index (l : row) (idx : list nat) :
  Permutation idx (seq 0 (length l)) ->
  np_sum l = np_sum (map (fun t => nth t l 0) idx).
Proof.
  intro H. rewrite <- (map_nth_seq_id l 0) at 1.
  apply np_sum_perm. apply Permutation_map. apply Permutation_sym. assumption.
Qed.

(** The sum of the values of [zs], the value of rank [s + j] taken
    [multiplier (s + j)] times. *)
Fixpoint wsum (s : nat) (zs : list (R * nat)) : R :=
  match zs with
  | [] => 0
  | z :: t => fst z * mult s + wsum (S s) t
  end.

Lemma wsum_index (dist1 : row) :
  forall zs s,
    (forall j, (j < length zs)%nat ->
       nth (snd (nth j zs (0, 0%nat))) dist1 0 =
       fst (nth j zs (0, 0%nat)) * mult (s + j)) ->
    np_sum (map (fun z => nth (snd z) dist1 0) zs) = wsum s zs.
Proof.
  induction zs as [|z zs IH]; intros s H; [reflexivity|].
  simpl. rewrite (IH (S s)).
  - specialize (H 0%nat). simpl in H. rewrite Nat.add_0_r in H.
    rewrite H by lia. reflexivity.
  - intros j Hj. specialize (H (S j)). simpl in H.
    replace (S s + j)%nat with (s + S j)%nat by lia. apply H. lia.
Qed.

(** What [sharpen] computes on a row of [deci_num] entries: [zs] lists the
    entries in ascending order with their indices, and the entry of rank [j]
    is multiplied by [multiplier j] before the row is normalised. *)
Lemma sharpen_spec (dist : row) :
  length dist = deci_num ->
  exists zs dist1,
    length zs = deci_num /\
    Permutation zs (combine dist (seq 0 deci_num)) /\
    StronglySorted le_fst zs /\
    Evolution.sharpen deci_num dist_diff_max dist = Ok (normalize dist1) /\
    length dist1 = deci_num /\
    (forall j, (j < deci_num)%nat ->
       nth (snd (nth j zs (0, 0%nat))) dist1 0 =
       fst (nth j zs (0, 0%nat)) * mult j) /\
    np_sum dist1 = wsum 0 zs.
Proof.
  intro Hlen. pose proof (INR_num_pos deci_num Hnum) as HD.
  destruct (bubble_sort_spec deci_num dist Hlen) as (zs & E & Hzlen & Hperm & Hsorted).
  assert (Hin : forall z, In z zs ->
            (snd z < deci_num)%nat /\ fst z = nth (snd z) dist 0).
  { intros [v i] Hz. apply (Permutation_in _ Hperm) in Hz.
    rewrite <- Hlen in Hz. apply in_combine_seq in Hz.
    rewrite Nat.sub_0_r in Hz. simpl. rewrite <- Hlen. split; [lia | tauto]. }
  assert (Hsi : Permutation (map snd zs) (seq 0 deci_num)).
  { apply Permutation_trans with (map snd (combine dist (seq 0 deci_num))).
    - apply Permutation_map. assumption.
    - assert (Hu : unzip (combine dist (seq 0 deci_num)) = (dist, seq 0 deci_num)).
      { apply unzip_combine. rewrite length_seq. assumption. }
      unfold unzip in Hu. injection Hu as _ Hu. rewrite Hu.
      apply Permutation_refl. }
  destruct (apply_multipliers_spec (map snd zs) (seq 0 deci_num) dist)
    as (dist1 & Erun & Hlen1 & Hset & _).
  { intros j Hj. apply in_seq in Hj.
    rewrite nth_map_snd, Hlen. apply Hin. apply nth_In. lia. }
  { rewrite <- Hzlen at 1. rewrite <- (length_map snd zs).
    rewrite map_nth_seq_id.
    apply (Permutation_NoDup (Permutation_sym Hsi)). apply seq_NoDup. }
  assert (Hrank : forall j, (j < deci_num)%nat ->
            nth (snd (nth j zs (0, 0%nat))) dist1 0 =
            fst (nth j zs (0, 0%nat)) * mult j).
  { intros j Hj.
    assert (Hj' : In j (seq 0 deci_num)) by (apply in_seq; lia).
    specialize (Hset j Hj').
    rewrite nth_map_snd in Hset. rewrite Hset. f_equal. symmetry.
    apply Hin. apply nth_In. lia. }
  exists zs, dist1. split; [exact Hzlen|]. split; [exact Hperm|].
  split; [exact Hsorted|]. split; [|split; [congruence|split; [exact Hrank|]]].
  - unfold Evolution.sharpen.
    rewrite !py_div_ok by lra. cbn [bind].
    rewrite E. unfold unzip.
    fold (small_end deci_num dist_diff_max).
    fold (large_end deci_num dist_diff_max).
    rewrite Erun. reflexivity.
  - rewrite (np_sum_by_index dist1 (map snd zs)) by (rewrite Hlen1, Hlen; exact Hsi).
    rewrite map_map. apply wsum_index.
    intros j Hj. simpl. apply Hrank. lia.
Qed.

End SharpenRun.

Section SharpenProps.

Local Open Scope R_scope.

Variable deci_num : nat.
Hypothesis Hnum : (2 <= deci_num)%nat.
Variable dist_diff_max : R.
Hypothesis Hdiff : 0 <= dist_diff_max < dist_diff_thres.

Local Abbreviation mult := (multiplier deci_num dist_diff_max).
Local Abbreviation lg := (large_end deci_num dist_diff_max).
Local Abbreviation wsum := (wsum deci_num dist_diff_max).

Lemma wsum_app (a b : list (R * nat)) (s : nat) :
  wsum s (a ++ b) = wsum s a + wsum (s + length a) b.
Proof.
  revert s. induction a as [|z a IH]; intro s; simpl.
  - rewrite Nat.add_0_r. lra.
  - rewrite IH. replace (S s + length a)%nat with (s + S (length a))%nat by lia.
    lra.
Qed.

Lemma wsum_nonneg (zs : list (R * nat)) (s : nat) :
  Forall (fun z => 0 <= fst z) zs -> 0 <= wsum s zs.
Proof.
  intro H. revert s. induction H as [|z zs Hz Hzs IH]; intro s; simpl; [lra|].
  pose proof (multiplier_nonneg deci_num dist_diff_max s Hnum Hdiff).
  specialize (IH (S s)). nra.
Qed.


Lemma sorted_last_max (front : list (R * nat)) (top : R * nat) :
  StronglySorted le_fst (front ++ [top]) ->
  Forall (fun z => fst z <= fst top) front.
Proof.
  induction front as [|z front IH]; intro H; [constructor|].
  simpl in H. inversion H as [|? ? Hs Hall]; subst.
  constructor; [|apply IH; assumption].
  rewrite Forall_forall in Hall. apply (Hall top).
  apply in_or_app. right. left. reflexivity.
Qed.

Lemma sum_le_top (front : list (R * nat)) (t : R) :
  Forall (fun z => fst z <= t) front ->
  np_sum (map fst front) <= INR (length front) * t.
Proof.
  unfold np_sum. induction 1 as [|z front Hz Hf IH].
  - simpl. lra.
  - cbn [map fold_right length]. rewrite S_INR. lra.
Qed.

Lemma nth_vdiv (l : row) (c : R) (t : nat) :
  nth t (vdiv l c) 0 = nth t l 0 / c.
Proof.
  unfold vdiv. replace 0 with (0 / c) at 1 by (unfold Rdiv; apply Rmult_0_l).
  apply (map_nth (fun x => x / c)).
Qed.

(** The facts on one run of [sharpen] that the properties below rest on:
    [top] is the entry of the highest rank. *)
Lemma sharpen_top (dist : row) :
  distribution deci_num dist ->
  exists front top dist1,
    Permutation (front ++ [top]) (combine dist (seq 0 deci_num)) /\
    StronglySorted le_fst (front ++ [top]) /\
    length front = (deci_num - 1)%nat /\
    Forall (fun z => 0 <= fst z) (front ++ [top]) /\
    np_sum (map fst front) + fst top = 1 /\
    0 < fst top /\
    Evolution.sharpen deci_num dist_diff_max dist = Ok (normalize dist1) /\
    length dist1 = deci_num /\
    (forall j, (j < deci_num)%nat ->
       nth (snd (nth j (front ++ [top]) (0, 0%nat))) dist1 0 =
       fst (nth j (front ++ [top]) (0, 0%nat)) * mult j) /\
    np_sum dist1 = wsum 0 front + fst top * lg /\
    0 < np_sum dist1.
Proof.
  intros (Hlen & Hnn & Hsum).
  destruct (sharpen_spec deci_num Hnum dist_diff_max dist Hlen)
    as (zs & dist1 & Hzlen & Hperm & Hsorted & Erun & Hlen1 & Hrank & Hws).
  destruct (exists_last (l := zs)) as (front & top & Ezs).
  { intro E. rewrite E in Hzlen. simpl in Hzlen. lia. }
  subst zs.
  assert (Hflen : length front = (deci_num - 1)%nat).
  { rewrite length_app in Hzlen. simpl in Hzlen. lia. }
  assert (Hfst : Permutation (map fst (front ++ [top])) dist).
  { apply Permutation_trans with (map fst (combine dist (seq 0 deci_num))).
    - apply Permutation_map. assumption.
    - assert (Hu : unzip (combine dist (seq 0 deci_num)) = (dist, seq 0 deci_num)).
      { apply unzip_combine. rewrite length_seq. assumption. }
      unfold unzip in Hu. injection Hu as Hu _. rewrite Hu.
      apply Permutation_refl. }
  assert (Hznn : Forall (fun z => 0 <= fst z) (front ++ [top])).
  { apply Forall_forall. intros z Hz.
    assert (Hin : In (fst z) dist).
    { apply (Permutation_in _ Hfst). apply in_map. assumption. }
    rewrite Forall_forall in Hnn. apply Hnn. assumption. }
  assert (Hzsum : np_sum (map fst front) + fst top = 1).
  { rewrite <- Hsum, <- (np_sum_perm _ _ Hfst).
    rewrite map_app. unfold np_sum. rewrite fold_right_app. simpl.
    clear. induction (map fst front) as [|x l IH]; simpl; lra. }
  pose proof (sorted_last_max front top Hsorted) as Hmax.
  pose proof (sum_le_top front (fst top) Hmax) as Hbound.
  pose proof (INR_num_pos deci_num Hnum) as HD.
  assert (Htop : 0 < fst top).
  { rewrite Hflen, minus_INR in Hbound by lia. simpl INR in Hbound.
    destruct (Rlt_dec 0 (fst top)) as [|Hn]; [assumption|]. exfalso. nra. }
  assert (Hws' : np_sum dist1 = wsum 0 front + fst top * lg).
  { rewrite Hws, wsum_app. simpl. rewrite Hflen.
    rewrite (multiplier_top deci_num dist_diff_max Hnum). lra. }
  exists front, top, dist1.
  repeat (split; [assumption|]).
  rewrite Hws'.
  assert (0 <= wsum 0 front).
  { apply wsum_nonneg. apply Forall_app in Hznn. tauto. }
  pose proof (large_end_pos deci_num dist_diff_max Hnum Hdiff).
  nra.
Qed.

(** The multiplier keeps a distribution a distribution. *)
Lemma sharpen_distribution (dist : row) :
  distribution deci_num dist ->
  exists dist', Evolution.sharpen deci_num dist_diff_max dist = Ok dist' /\
                distribution deci_num dist'.
Proof.
  intro Hdist.
  destruct (sharpen_top dist Hdist)
    as (front & top & dist1 & Hperm & Hsorted & Hflen & Hznn & Hzsum & Htop
        & Erun & Hlen1 & Hrank & Hws & Hpos).
  exists (normalize dist1). split; [exact Erun|].
  apply normalize_distribution; [assumption| |assumption].
  apply Forall_nth. intros t d Ht. rewrite (nth_indep _ d 0 Ht).
  rewrite Hlen1 in Ht.
  assert (Hidx : Permutation (map snd (front ++ [top])) (seq 0 deci_num)).
  { destruct Hdist as (Hlen & _).
    apply Permutation_trans with (map snd (combine dist (seq 0 deci_num))).
    - apply Permutation_map. assumption.
    - assert (Hu : unzip (combine dist (seq 0 deci_num)) = (dist, seq 0 deci_num)).
      { apply unzip_combine. rewrite length_seq. assumption. }
      unfold unzip in Hu. injection Hu as _ Hu. rewrite Hu.
      apply Permutation_refl. }
  assert (Hin : In t (map snd (front ++ [top]))).
  { apply (Permutation_in _ (Permutation_sym Hidx)). apply in_seq. lia. }
  apply (In_nth _ _ 0%nat) in Hin. destruct Hin as (j & Hj & Ej).
  rewrite length_map, length_app, Hflen in Hj. simpl in Hj.
  rewrite nth_map_snd in Ej. rewrite <- Ej.
  rewrite Hrank by lia.
  apply Rmult_le_pos.
  - rewrite Forall_forall in Hznn. apply Hznn. apply nth_In.
    rewrite length_app, Hflen. simpl. lia.
  - apply multiplier_nonneg; assumption.
Qed.

End SharpenProps.

Section SharpenTheorems.

Local Open Scope R_scope.

Lemma in_combine_nth (dist : row) (t : nat) :
  forall s,
    (t < length dist)%nat ->
    In (nth t dist 0, (s + t)%nat) (combine dist (seq s (length dist))).
Proof.
  revert t. induction dist as [|x dist IH]; intros t s Ht; simpl in Ht; [lia|].
  destruct t as [|t]; simpl.
  - left. rewrite Nat.add_0_r. reflexivity.
  - right. replace (s + S t)%nat with (S s + t)%nat by lia.
    apply IH. lia.
Qed.



End SharpenTheorems.


(** Evaluation of the comparisons of reals on concrete rows. *)
Ltac real_cases :=
  repeat match goal with
  | |- context [Req_dec_T ?a ?b] =>
      destruct (Req_dec_T a b); try (exfalso; lra)
  | |- context [Rlt_dec ?a ?b] =>
      destruct (Rlt_dec a b); try (exfalso; lra)
  | |- context [Rgt_dec ?a ?b] =>
      destruct (Rgt_dec a b); try (exfalso; unfold Rgt in *; lra)
  end.



(** Nor does a probability that is already 1 increase. *)
Example sharpening_keeps_certainty :
  Evolution.sharpen 2 0 [0%R; 1%R] = Ok [0%R; 1%R].
Proof.
  unfold Evolution.sharpen, py_div, np_power, dist_diff_thres, dist_diff_power.
  simpl INR. real_cases. cbn [bind].
  unfold Evolution.bubble_sort, Evolution.bubble_pass, Evolution.bubble_step.
  simpl. real_cases.
  unfold Evolution.apply_multiplier, py_div. simpl. real_cases.
  cbn [bind]. simpl. unfold np_sum. simpl.
  f_equal. f_equal; [field | f_equal; field].
Qed.

(** The tie over binary64, with the value 0.0 that line 311 gives to
    [small_end] when [dist_diff_max] is 0: the lines 312-333 take decision
    0 from 0.5 to 0.0. *)
Example float_sharpening_tie :
  FloatModel.sharpen 2 0%float [0.5; 0.5]%float = Ok [0; 1]%float.
Proof. vm_compute. reflexivity. Qed.

(** Over binary64 the strict increase needs more than a unique maximum
    below 1.  The row [0, 2^-52, 1 - 2^-52] sums to 1.0 and decision 2 is
    its only maximum; with [small_end = 0.0] the exact result for decision
    2 lies above its old probability, by less than the distance to the next
    float, and the roundings of the products, of the sum and of the quotient
    give the old probability back. *)
Example float_sharpening_rounds_back :
  let dist := [0; 0x1p-52; 0x1.ffffffffffffep-1]%float in
  FloatModel.np_sum dist = 1%float /\
  FloatModel.sharpen 3 0%float dist
  = Ok [0; 0x1p-53; 0x1.ffffffffffffep-1]%float.
Proof. vm_compute. split; reflexivity. Qed.




(** On that row the run gives [1; 0]: the smaller entry, of index 1, is
    gone. *)
Example sharpening_zeroes_lowest_run :
  Evolution.sharpen 2 0 [(3 / 4)%R; (1 / 4)%R] = Ok [1%R; 0%R].
Proof.
  unfold Evolution.sharpen, py_div, np_power, dist_diff_thres, dist_diff_power.
  simpl INR. real_cases. cbn [bind].
  unfold Evolution.bubble_sort, Evolution.bubble_pass, Evolution.bubble_step.
  simpl. real_cases.
  unfold Evolution.exchange. simpl.
  unfold Evolution.apply_multiplier, py_div. simpl. real_cases.
  cbn [bind]. simpl. unfold np_sum. simpl.
  f_equal. f_equal; [field | f_equal; field].
Qed.

(** ** The update of one node *)

Section NodeFacts.

Local Open Scope R_scope.

Variable deci_num : nat.
Variable connection_lists : list (list nat).
Variable deci_domi : list nat.
Variable subsizes : list nat.
Variable deci_dist_t : matrix.
Variable net_size : nat.

(** The arrays of one cycle have one entry per node, and the connection
    lists name nodes. *)
Hypothesis Hcl : length connection_lists = net_size.
Hypothesis Hdomi : length deci_domi = net_size.
Hypothesis Hsizes : length subsizes = net_size.
Hypothesis Hsnap : length deci_dist_t = net_size.
Hypothesis Hrange :
  forall u l, nth_error connection_lists u = Some l ->
  forall v, In v l -> (v < net_size)%nat.

Local Abbreviation update_node :=
  (Evolution.update_node deci_num connection_lists deci_domi subsizes deci_dist_t).
Local Abbreviation sharpen := (Evolution.sharpen deci_num).
Local Abbreviation raise_unipolarity := (Evolution.raise_unipolarity deci_num).

Lemma set_item_inv {A : Type} (l l' : list A) (i : nat) (v : A) :
  set_item l i v = Ok l' -> l' = upd l i v /\ (i < length l)%nat.
Proof.
  clear Hcl Hdomi Hsizes Hsnap Hrange.
  revert i l'. induction l as [|h t IH]; intros i l' H; simpl in H;
    [discriminate|].
  destruct i as [|j].
  - inversion H. simpl. split; [reflexivity | lia].
  - destruct (set_item t j v) as [t'| |] eqn:E; simpl in H; try discriminate.
    inversion H. destruct (IH j t' E) as [-> Hj]. simpl. split; [reflexivity | lia].
Qed.

Lemma all_agree_total (host_domi : nat) (neighbors : list nat) :
  (forall n, In n neighbors -> (n < net_size)%nat) ->
  exists b, Evolution.all_agree deci_domi host_domi neighbors = Ok b.
Proof.
  induction neighbors as [|n rest IH]; intro Hr; simpl.
  - exists true. reflexivity.
  - rewrite (index_nth deci_domi n 0%nat)
      by (rewrite Hdomi; apply Hr; left; reflexivity).
    cbn [bind]. destruct (negb (host_domi =? nth n deci_domi 0)%nat).
    + exists false. reflexivity.
    + apply IH. intros m Hm. apply Hr. right. assumption.
Qed.

Lemma abs_diff_nonneg (a b : row) : 0 <= abs_diff a b.
Proof.
  unfold abs_diff, np_sum, vabs.
  induction (vsub a b) as [|x l IH]; simpl; [lra|].
  pose proof (Rabs_pos x). lra.
Qed.

Lemma diffs_with_ok (deci_dist : matrix) (j_node : nat) (rest : list nat) :
  (j_node < length deci_dist)%nat ->
  (forall n, In n rest -> (n < length deci_dist)%nat) ->
  Evolution.diffs_with deci_dist j_node rest =
  Ok (map (fun k => abs_diff (nth j_node deci_dist []) (nth k deci_dist [])) rest).
Proof.
  intros Hj. induction rest as [|k rest IH]; intro Hr; simpl; [reflexivity|].
  rewrite (index_nth deci_dist j_node [] Hj). cbn [bind].
  rewrite (index_nth deci_dist k []) by (apply Hr; left; reflexivity).
  cbn [bind]. rewrite IH by (intros m Hm; apply Hr; right; assumption).
  reflexivity.
Qed.

Lemma pair_diffs_ok (deci_dist : matrix) (comb_pool : list nat) :
  (forall n, In n comb_pool -> (n < length deci_dist)%nat) ->
  exists ds,
    Evolution.pair_diffs deci_dist comb_pool = Ok ds /\
    Forall (fun d => 0 <= d) ds /\
    ((2 <= length comb_pool)%nat -> ds <> []).
Proof.
  clear Hcl Hdomi Hsizes Hsnap Hrange.
  induction comb_pool as [|j rest IH]; intro Hr; simpl.
  - exists []. split; [reflexivity|]. split; [constructor | simpl; lia].
  - rewrite diffs_with_ok;
      [| apply Hr; left; reflexivity
       | intros m Hm; apply Hr; right; assumption].
    cbn [bind].
    destruct IH as (ds & E & Hnn & _);
      [intros m Hm; apply Hr; right; assumption|].
    rewrite E. cbn [bind]. eexists. split; [reflexivity|]. split.
    + apply Forall_app. split; [|assumption].
      apply Forall_forall. intros d Hd. apply in_map_iff in Hd.
      destruct Hd as (k & <- & _). apply abs_diff_nonneg.
    + intros Hlen Hnil. apply app_eq_nil in Hnil. destruct Hnil as [Hm _].
      destruct rest; simpl in *; [lia | discriminate].
Qed.

Lemma fold_Rmax_nonneg (l : list R) (x : R) : 0 <= x -> 0 <= fold_left Rmax l x.
Proof.
  revert x. induction l as [|y l IH]; intros x Hx; simpl; [assumption|].
  apply IH. apply Rle_trans with x; [assumption | apply Rmax_l].
Qed.

Lemma max_difference_ok (deci_dist : matrix) (i : nat) (neighbors : list nat) :
  (i < length deci_dist)%nat ->
  (forall n, In n neighbors -> (n < length deci_dist)%nat) ->
  neighbors <> [] ->
  exists m, Evolution.max_difference deci_dist i neighbors = Ok m /\ 0 <= m.
Proof.
  clear Hcl Hdomi Hsizes Hsnap Hrange.
  intros Hi Hr Hne. unfold Evolution.max_difference.
  destruct (pair_diffs_ok deci_dist (i :: neighbors)) as (ds & E & Hnn & Hds).
  { intros n [<-|Hn]; [assumption | apply Hr; assumption]. }
  rewrite E. cbn [bind].
  destruct ds as [|d ds].
  - exfalso. apply Hds; [|reflexivity].
    destruct neighbors; [congruence | simpl; lia].
  - simpl. eexists. split; [reflexivity|].
    apply fold_Rmax_nonneg. inversion Hnn. assumption.
Qed.

(** A node without neighbors has no pair to compare: [max] is given an
    empty list. *)
Lemma max_difference_isolated (deci_dist : matrix) (i : nat) :
  Evolution.max_difference deci_dist i [] = Raise ValueError.
Proof. reflexivity. Qed.

Lemma sharpen_shape (dist_diff_max : R) (cur r : row) :
  sharpen dist_diff_max cur = Ok r -> exists raw, r = normalize raw.
Proof.
  unfold Evolution.sharpen. intro H.
  destruct (py_div 1 (INR deci_num)); simpl in H; try discriminate.
  destruct (py_div 2 (INR deci_num)); simpl in H; try discriminate.
  destruct (Evolution.bubble_sort deci_num cur) as [dt si].
  destruct (Evolution.apply_multipliers _ _ _ _ _ _) as [dist1| |];
    simpl in H; try discriminate.
  inversion H. exists dist1. reflexivity.
Qed.

Lemma raise_unipolarity_shape (deci_dist deci_dist' : matrix) (i : nat)
    (neighbors : list nat) (cur : row) :
  nth_error deci_dist i = Some cur ->
  raise_unipolarity deci_dist i neighbors = Ok deci_dist' ->
  exists dist_diff_max,
    Evolution.max_difference deci_dist i neighbors = Ok dist_diff_max /\
    ((~ dist_diff_max < dist_diff_thres /\ deci_dist' = deci_dist) \/
     (dist_diff_max < dist_diff_thres /\
      exists r, sharpen dist_diff_max cur = Ok r /\ deci_dist' = upd deci_dist i r)).
Proof.
  intros Hcur H. unfold Evolution.raise_unipolarity in H.
  destruct (Evolution.max_difference deci_dist i neighbors) as [m| |];
    simpl in H; try discriminate.
  exists m. split; [reflexivity|].
  destruct (Rlt_dec m dist_diff_thres) as [Hlt|Hge].
  - right. split; [assumption|].
    rewrite (index_nth_error _ _ _ Hcur) in H. cbn [bind] in H.
    destruct (Evolution.sharpen deci_num m cur) as [r| |]; simpl in H;
      try discriminate.
    exists r. split; [reflexivity|]. apply set_item_inv in H. tauto.
  - left. split; [assumption|]. inversion H. reflexivity.
Qed.

(** The two branches of the body of the loop. *)
Lemma update_node_divergent (deci_dist : matrix) (i : nat) (neighbors : list nat) :
  length deci_dist = net_size ->
  nth_error connection_lists i = Some neighbors ->
  Evolution.all_agree deci_domi (nth i deci_domi 0%nat) neighbors = Ok false ->
  update_node deci_dist i =
  Ok (upd deci_dist i
        (normalize
           (clique_sum (fun n => INR (nth n subsizes 0%nat)) deci_dist_t i
              neighbors))).
Proof.
  intros Hlen Hnb Hdiv.
  pose proof (nth_error_length _ _ _ Hnb) as Hi. rewrite Hcl in Hi.
  unfold Evolution.update_node.
  rewrite (index_nth deci_domi i 0%nat) by lia. cbn [bind].
  rewrite (index_nth_error _ _ _ Hnb). cbn [bind].
  rewrite Hdiv. cbn [bind].
  apply weighted_average_ok; try lia.
  intros n Hn. specialize (Hrange i neighbors Hnb n Hn). lia.
Qed.

Lemma update_node_converged (deci_dist : matrix) (i : nat) (neighbors : list nat) :
  length deci_dist = net_size ->
  nth_error connection_lists i = Some neighbors ->
  Evolution.all_agree deci_domi (nth i deci_domi 0%nat) neighbors = Ok true ->
  update_node deci_dist i =
  raise_unipolarity
    (upd deci_dist i (normalize (clique_sum (fun _ => 1) deci_dist_t i neighbors)))
    i neighbors.
Proof.
  intros Hlen Hnb Hconv.
  pose proof (nth_error_length _ _ _ Hnb) as Hi. rewrite Hcl in Hi.
  unfold Evolution.update_node.
  rewrite (index_nth deci_domi i 0%nat) by lia. cbn [bind].
  rewrite (index_nth_error _ _ _ Hnb). cbn [bind].
  rewrite Hconv. cbn [bind].
  rewrite equal_average_ok; try lia; [reflexivity|].
  intros n Hn. specialize (Hrange i neighbors Hnb n Hn). lia.
Qed.

(** Whatever the branch, a node update that returns has written one row:
    the row of the node, as a row divided by its sum. *)
Lemma update_node_shape (deci_dist deci_dist' : matrix) (i : nat) :
  length deci_dist = net_size ->
  update_node deci_dist i = Ok deci_dist' ->
  (i < net_size)%nat /\
  exists raw, deci_dist' = upd deci_dist i (normalize raw).
Proof.
  intros Hlen H.
  assert (Hi : (i < net_size)%nat).
  { unfold Evolution.update_node in H.
    destruct (index deci_domi i) as [d| |] eqn:E; simpl in H; try discriminate.
    apply index_ok, nth_error_length in E. lia. }
  split; [assumption|].
  destruct (index_lt connection_lists i) as (neighbors & _ & Hnb); [lia|].
  destruct (all_agree_total (nth i deci_domi 0%nat) neighbors (Hrange i neighbors Hnb))
    as ([|] & Hb).
  - rewrite (update_node_converged deci_dist i neighbors Hlen Hnb Hb) in H.
    set (avg := normalize (clique_sum (fun _ => 1) deci_dist_t i neighbors)) in *.
    assert (Hcur : nth_error (upd deci_dist i avg) i = Some avg).
    { apply nth_error_upd_same. lia. }
    destruct (raise_unipolarity_shape _ _ _ _ _ Hcur H)
      as (m & _ & [[_ ->]|[_ (r & Er & ->)]]).
    + eexists. reflexivity.
    + destruct (sharpen_shape _ _ _ Er) as (raw & ->).
      exists raw. apply upd_upd.
  - rewrite (update_node_divergent deci_dist i neighbors Hlen Hnb Hb) in H.
    inversion H. eexists. reflexivity.
Qed.

Lemma evolve_shape (order : list nat) :
  forall deci_dist deci_dist',
    length deci_dist = net_size ->
    Evolution.evolve deci_num connection_lists deci_domi subsizes deci_dist_t
      order deci_dist = Ok deci_dist' ->
    length deci_dist' = net_size /\
    (forall j, ~ In j order -> nth_error deci_dist' j = nth_error deci_dist j) /\
    (forall i, In i order ->
       exists raw, nth_error deci_dist' i = Some (normalize raw)).
Proof.
  induction order as [|a rest IH]; intros dd dd' Hlen H; simpl in H.
  - inversion H; subst. split; [assumption|]. split; [reflexivity|].
    intros i [].
  - destruct (update_node dd a) as [dd1| |] eqn:E; simpl in H; try discriminate.
    destruct (update_node_shape dd dd1 a Hlen E) as (Ha & raw & ->).
    destruct (IH _ _ (eq_trans (upd_length dd a _) Hlen) H) as (Hl & Hframe & Hrows).
    split; [assumption|]. split.
    + intros j Hj. rewrite Hframe by (simpl in Hj; tauto).
      apply nth_error_upd_other. simpl in Hj. tauto.
    + intros i Hi. destruct (in_dec Nat.eq_dec i rest) as [Hin|Hnot].
      * apply Hrows. assumption.
      * destruct Hi as [<-|Hi]; [|contradiction].
        exists raw. rewrite (Hframe a Hnot).
        apply nth_error_upd_same. lia.
Qed.

End NodeFacts.

(** ** Two connected nodes: the order of the updates shows *)

Section TwoNodes.

Local Open Scope R_scope.

Ltac abs_cases :=
  unfold Rabs;
  repeat match goal with
  | |- context [Rcase_abs ?a] => destruct (Rcase_abs a); try (exfalso; lra)
  end.

Lemma two_rows_average (i : nat) (neighbors : list nat) :
  (i = 0%nat /\ neighbors = [1%nat]) \/ (i = 1%nat /\ neighbors = [0%nat]) ->
  normalize (clique_sum (fun _ => 1) two_rows i neighbors) = [3 / 4; 1 / 4].
Proof.
  intros [[-> ->]|[-> ->]];
    unfold normalize, clique_sum, np_sum, two_rows; simpl;
    (f_equal; [field | f_equal; field]).
Qed.

Lemma two_nodes_update (deci_dist : matrix) (i : nat) (neighbors : list nat) :
  length deci_dist = 2%nat ->
  (i = 0%nat /\ neighbors = [1%nat]) \/ (i = 1%nat /\ neighbors = [0%nat]) ->
  Evolution.update_node 2 two_nodes [0; 0]%nat [2; 2]%nat two_rows deci_dist i =
  Evolution.raise_unipolarity 2 (upd deci_dist i [3 / 4; 1 / 4]) i neighbors.
Proof.
  intros Hlen Hi. rewrite <- (two_rows_average i neighbors Hi).
  apply (update_node_converged 2 two_nodes [0; 0]%nat [2; 2]%nat two_rows 2);
    try reflexivity; try assumption.
  - intros u l Hu v Hv.
    destruct u as [|[|u]]; simpl in Hu;
      try (destruct u; discriminate);
      inversion Hu; subst l; simpl in Hv; lia.
  - destruct Hi as [[-> ->]|[-> ->]]; reflexivity.
  - destruct Hi as [[-> ->]|[-> ->]]; reflexivity.
Qed.

(** The first node to be updated compares its new row with the old row of
    the other node: the difference is 2/5 and the multiplier is not
    applied. *)
Lemma two_nodes_first (i j : nat) (other : row) :
  (i = 0%nat /\ j = 1%nat) \/ (i = 1%nat /\ j = 0%nat) ->
  other = [19 / 20; 1 / 20] \/ other = [11 / 20; 9 / 20] ->
  forall deci_dist,
    length deci_dist = 2%nat ->
    nth_error deci_dist j = Some other ->
    Evolution.raise_unipolarity 2 (upd deci_dist i [3 / 4; 1 / 4]) i [j] =
    Ok (upd deci_dist i [3 / 4; 1 / 4]).
Proof.
  intros Hij Hother dd Hlen Hj.
  destruct dd as [|a [|b [|c dd]]]; simpl in Hlen; try discriminate.
  unfold Evolution.raise_unipolarity, Evolution.max_difference.
  destruct Hij as [[-> ->]|[-> ->]]; simpl in Hj; inversion Hj; subst;
    simpl; unfold abs_diff, np_sum; simpl;
    destruct Hother as [->| ->]; simpl; abs_cases;
    unfold dist_diff_thres; real_cases; reflexivity.
Qed.

(** The second node compares its new row with the new row of the first: the
    difference is 0, the multiplier is applied with [small_end = 0]. *)
Lemma two_nodes_second (i j : nat) :
  (i = 0%nat /\ j = 1%nat) \/ (i = 1%nat /\ j = 0%nat) ->
  forall deci_dist,
    length deci_dist = 2%nat ->
    nth_error deci_dist j = Some [3 / 4; 1 / 4] ->
    Evolution.raise_unipolarity 2 (upd deci_dist i [3 / 4; 1 / 4]) i [j] =
    Ok (upd deci_dist i [1; 0]).
Proof.
  intros Hij dd Hlen Hj.
  destruct dd as [|a [|b [|c dd]]]; simpl in Hlen; try discriminate.
  unfold Evolution.raise_unipolarity, Evolution.max_difference.
  destruct Hij as [[-> ->]|[-> ->]]; simpl in Hj; inversion Hj; subst;
    simpl; unfold abs_diff, np_sum; simpl;
    replace (Rabs (3 / 4 - 3 / 4) + (Rabs (1 / 4 - 1 / 4) + 0)) with 0
      by (abs_cases; lra);
    unfold dist_diff_thres; real_cases;
    rewrite sharpening_zeroes_lowest_run; reflexivity.
Qed.

End TwoNodes.

Lemma two_nodes_evolve (i j : nat) :
  (i = 0 /\ j = 1) \/ (i = 1 /\ j = 0) ->
  Evolution.evolve 2 two_nodes [0; 0] [2; 2] two_rows [i; j] two_rows =
  Ok (upd (upd two_rows i [(3 / 4)%R; (1 / 4)%R]) j [1%R; 0%R]).
Proof.
  intro Hij.
  assert (Hji : (j = 0 /\ i = 1) \/ (j = 1 /\ i = 0)) by tauto.
  cbn [Evolution.evolve].
  rewrite (two_nodes_update two_rows i [j]); [|reflexivity|].
  2:{ destruct Hij as [[-> ->]|[-> ->]]; tauto. }
  rewrite (two_nodes_first i j (nth j two_rows [])); [|assumption| |reflexivity|].
  2:{ destruct Hij as [[-> ->]|[-> ->]]; simpl; tauto. }
  2:{ destruct Hij as [[-> ->]|[-> ->]]; reflexivity. }
  cbn [bind].
  rewrite (two_nodes_update _ j [i]).
  2:{ rewrite upd_length. reflexivity. }
  2:{ destruct Hij as [[-> ->]|[-> ->]]; tauto. }
  rewrite (two_nodes_second j i); [|tauto| |].
  2:{ rewrite upd_length. reflexivity. }
  2:{ destruct Hij as [[-> ->]|[-> ->]]; reflexivity. }
  reflexivity.
Qed.

(** C1, on the code.  Two connected nodes hold [11/20, 9/20] and
    [19/20, 1/20].  The rows of [deci_dist_t] differ by 4/5, above the
    threshold, so neither node would be given the multiplier if the
    difference were read from the copy.  The code reads it from [deci_dist]:
    the node updated first keeps the average [3/4, 1/4], the node updated
    second finds the difference 0 and ends with [1, 0].  The cycle, in the
    order of [range(net_size)], gives the two nodes different rows, and
    the reverse order exchanges them. *)
Theorem evolution_depends_on_order :
  Evolution.max_difference two_rows 0 [1] = Ok (4 / 5)%R /\
  Evolution.max_difference [[(3 / 4)%R; (1 / 4)%R]; [(3 / 4)%R; (1 / 4)%R]] 1 [0]
    = Ok 0%R /\
  Evolution.evolve 2 two_nodes [0; 0] [2; 2] two_rows [0; 1] two_rows =
    Ok [[(3 / 4)%R; (1 / 4)%R]; [1%R; 0%R]] /\
  Evolution.evolve 2 two_nodes [0; 0] [2; 2] two_rows [1; 0] two_rows =
    Ok [[1%R; 0%R]; [(3 / 4)%R; (1 / 4)%R]] /\
  Evolution.simulation_cycle 2 2 two_nodes [0; 0] two_rows =
    Ok ([[(3 / 4)%R; (1 / 4)%R]; [1%R; 0%R]], [2; 2], [[0; 1]]).
Proof.
  assert (E01 := two_nodes_evolve 0 1 (or_introl (conj eq_refl eq_refl))).
  assert (E10 := two_nodes_evolve 1 0 (or_intror (conj eq_refl eq_refl))).
  simpl upd in E01, E10.
  split; [|split; [|split; [exact E01 | split; [exact E10|]]]].
  - unfold Evolution.max_difference, two_rows. simpl.
    unfold abs_diff, np_sum. simpl. f_equal.
    unfold Rabs.
    repeat match goal with
    | |- context [Rcase_abs ?a] => destruct (Rcase_abs a); try (exfalso; lra)
    end.
    lra.
  - unfold Evolution.max_difference. simpl.
    unfold abs_diff, np_sum. simpl. f_equal.
    unfold Rabs.
    repeat match goal with
    | |- context [Rcase_abs ?a] => destruct (Rcase_abs a); try (exfalso; lra)
    end; lra.
  - unfold Evolution.simulation_cycle.
    assert (Ha : argmax_rows two_rows = Ok [0; 0]).
    { unfold two_rows. simpl. real_cases. reflexivity. }
    rewrite Ha. cbn [bind].
    assert (Hs : Detector.update_subgroups two_nodes [0; 0] 2 = Ok [[0; 1]])
      by reflexivity.
    rewrite Hs. cbn [bind].
    assert (Hz : Detector.update_subsizes 2 [[0; 1]] [0; 0] = Ok [2; 2])
      by reflexivity.
    rewrite Hz. cbn [bind].
    change (seq 0 2) with [0; 1]. rewrite E01. reflexivity.
Qed.

(** ** A node without neighbors *)

(** The node counts as converged and step 1 leaves it its own row,
    normalised; step 2 then asks for the maximum of an empty list of
    differences. *)
Lemma isolated_node_raises (deci_num : nat) (connection_lists : list (list nat))
    (deci_domi subsizes : list nat) (deci_dist_t deci_dist : matrix) (i : nat) :
  nth_error connection_lists i = Some [] ->
  i < length deci_domi ->
  i < length deci_dist_t ->
  i < length deci_dist ->
  Evolution.all_agree deci_domi (nth i deci_domi 0) [] = Ok true /\
  Evolution.equal_average deci_dist_t deci_dist i [] =
    Ok (upd deci_dist i (normalize (nth i deci_dist_t []))) /\
  Evolution.update_node deci_num connection_lists deci_domi subsizes
    deci_dist_t deci_dist i = Raise ValueError.
Proof.
  intros Hnb Hd Ht Hi.
  assert (Havg : Evolution.equal_average deci_dist_t deci_dist i [] =
                 Ok (upd deci_dist i (normalize (nth i deci_dist_t [])))).
  { rewrite equal_average_ok by (auto; intros n []).
    unfold clique_sum. simpl. rewrite vscale_one. reflexivity. }
  split; [reflexivity|]. split; [exact Havg|].
  unfold Evolution.update_node.
  rewrite (index_nth deci_domi i 0 Hd). cbn [bind].
  rewrite (index_nth_error _ _ _ Hnb). cbn [bind].
  cbn [Evolution.all_agree bind]. rewrite Havg. cbn [bind].
  unfold Evolution.raise_unipolarity.
  rewrite max_difference_isolated. reflexivity.
Qed.

(** C5, on the code.  Three nodes, node 0 connected to none: it is
    classified as converged and its average is its own row, but the cycle
    ends with [ValueError] where the claim promises an unchanged
    distribution. *)
Theorem isolated_node_cycle_raises :
  let rows := [[(3 / 5)%R; (2 / 5)%R]; [(3 / 5)%R; (2 / 5)%R];
               [(3 / 5)%R; (2 / 5)%R]] in
  Evolution.all_agree [0; 0; 0] 0 [] = Ok true /\
  Evolution.equal_average rows rows 0 [] = Ok rows /\
  Evolution.simulation_cycle 3 2 [[]; [2]; [1]] [0; 0; 0] rows
    = Raise ValueError.
Proof.
  intro rows.
  destruct (isolated_node_raises 2 [[]; [2]; [1]] [0; 0; 0] [1; 2; 2] rows rows 0)
    as (H1 & H2 & H3); try reflexivity; try (simpl; lia).
  split; [exact H1|]. split.
  - rewrite H2. unfold rows, normalize, np_sum. simpl.
    f_equal. f_equal. f_equal; [field | f_equal; field].
  - unfold Evolution.simulation_cycle.
    assert (Ha : argmax_rows rows = Ok [0; 0; 0]).
    { unfold rows. simpl. real_cases. reflexivity. }
    rewrite Ha. cbn [bind].
    assert (Hs : Detector.update_subgroups [[]; [2]; [1]] [0; 0; 0] 3
                 = Ok [[0]; [1; 2]]) by reflexivity.
    rewrite Hs. cbn [bind].
    assert (Hz : Detector.update_subsizes 3 [[0]; [1; 2]] [0; 0; 0]
                 = Ok [1; 2; 2]) by reflexivity.
    rewrite Hz. cbn [bind].
    change (seq 0 3) with [0; 1; 2]. cbn [Evolution.evolve].
    rewrite H3. reflexivity.
Qed.

(** ** The claims on the averages and on the normalisation *)

Lemma evolve_divergent_row (net_size deci_num : nat)
    (connection_lists : list (list nat)) (deci_domi subsizes : list nat)
    (deci_dist_t : matrix) (i : nat) (neighbors : list nat) :
  cycle_arrays net_size connection_lists deci_domi subsizes deci_dist_t ->
  nth_error connection_lists i = Some neighbors ->
  Evolution.all_agree deci_domi (nth i deci_domi 0) neighbors = Ok false ->
  forall order deci_dist deci_dist',
    length deci_dist = net_size ->
    NoDup order -> In i order ->
    Evolution.evolve deci_num connection_lists deci_domi subsizes deci_dist_t
      order deci_dist = Ok deci_dist' ->
    nth_error deci_dist' i =
    Some (normalize
            (clique_sum (fun n => INR (nth n subsizes 0)) deci_dist_t i neighbors)).
Proof.
  intros [H1 H2 H3 H4 H5] Hnb Hdiv.
  induction order as [|a rest IH]; intros dd dd' Hlen Hnd Hin Hrun;
    [contradiction|].
  cbn [Evolution.evolve] in Hrun.
  destruct (Evolution.update_node deci_num connection_lists deci_domi subsizes
              deci_dist_t dd a) as [dd1| |] eqn:E; simpl in Hrun;
    try discriminate.
  destruct (update_node_shape deci_num connection_lists deci_domi subsizes
              deci_dist_t net_size H1 H2 H3 H4 H5 dd dd1 a Hlen E)
    as (Ha & raw & Hdd1).
  assert (Hlen1 : length dd1 = net_size).
  { rewrite Hdd1, upd_length. assumption. }
  pose proof (NoDup_cons_iff a rest) as Hc. apply Hc in Hnd.
  destruct Hnd as [Hnotin Hnd'].
  destruct (Nat.eq_dec a i) as [->|Hne].
  - destruct (evolve_shape deci_num connection_lists deci_domi subsizes
                deci_dist_t net_size H1 H2 H3 H4 H5 rest dd1 dd' Hlen1 Hrun)
      as (_ & Hframe & _).
    rewrite (Hframe i Hnotin).
    rewrite (update_node_divergent deci_num connection_lists deci_domi subsizes
               deci_dist_t net_size H1 H2 H3 H4 H5 dd i neighbors Hlen Hnb Hdiv)
      in E.
    inversion E. apply nth_error_upd_same. lia.
  - apply (IH dd1 dd' Hlen1 Hnd'); [|assumption].
    destruct Hin; [congruence | assumption].
Qed.

Lemma weighted_pair (host nb : row) :
  length host = length nb ->
  np_sum host = 1%R -> np_sum nb = 1%R ->
  normalize (vadd (vscale host (INR 3)) (vscale nb (INR 1))) =
  map2 (fun h x => ((3 * h + 1 * x) / 4)%R) host nb.
Proof.
  intros Hlen Hh Hn. unfold normalize.
  rewrite np_sum_vadd by (rewrite !vscale_length; assumption).
  rewrite !np_sum_vscale, Hh, Hn.
  replace (1 * INR 3 + 1 * INR 1)%R with 4%R by (simpl; lra).
  clear Hh Hn. revert nb Hlen.
  induction host as [|h host IH]; intros [|x nb] Hlen; simpl in *;
    try discriminate; [reflexivity|].
  f_equal; [lra|]. apply IH. congruence.
Qed.

(** C6.  A divergent node is given the normalised sum of the rows of the
    host and of its neighbors in the copy [deci_dist_t], the row of each
    node weighted by its subgroup size, and nothing else: the multiplier is
    not applied.  That row is the node's row at the end of the loop over the
    nodes, whatever the order.  With one neighbor of subgroup size 1 and a
    host of subgroup size 3 it is [(3*host + 1*neighbor)/4] entry by
    entry. *)
Theorem divergent_update (net_size deci_num : nat)
    (connection_lists : list (list nat)) (deci_domi subsizes : list nat)
    (deci_dist_t : matrix) (i : nat) (neighbors : list nat) :
  cycle_arrays net_size connection_lists deci_domi subsizes deci_dist_t ->
  nth_error connection_lists i = Some neighbors ->
  Evolution.all_agree deci_domi (nth i deci_domi 0) neighbors = Ok false ->
  let target :=
    normalize
      (clique_sum (fun n => INR (nth n subsizes 0)) deci_dist_t i neighbors) in
  (forall deci_dist,
     length deci_dist = net_size ->
     Evolution.update_node deci_num connection_lists deci_domi subsizes
       deci_dist_t deci_dist i = Ok (upd deci_dist i target)) /\
  (forall order deci_dist deci_dist',
     length deci_dist = net_size ->
     NoDup order -> In i order ->
     Evolution.evolve deci_num connection_lists deci_domi subsizes deci_dist_t
       order deci_dist = Ok deci_dist' ->
     nth_error deci_dist' i = Some target) /\
  (forall n host nb,
     neighbors = [n] ->
     nth i subsizes 0 = 3 -> nth n subsizes 0 = 1 ->
     nth_error deci_dist_t i = Some host ->
     nth_error deci_dist_t n = Some nb ->
     length host = length nb ->
     np_sum host = 1%R -> np_sum nb = 1%R ->
     target = map2 (fun h x => ((3 * h + 1 * x) / 4)%R) host nb).
Proof.
  intros Harr Hnb Hdiv target. split; [|split].
  - intros dd Hlen. destruct Harr as [H1 H2 H3 H4 H5].
    apply (update_node_divergent deci_num connection_lists deci_domi subsizes
             deci_dist_t net_size H1 H2 H3 H4 H5 dd i neighbors Hlen Hnb Hdiv).
  - intros order dd dd' Hlen Hnd Hin Hrun.
    apply (evolve_divergent_row net_size deci_num connection_lists deci_domi
             subsizes deci_dist_t i neighbors Harr Hnb Hdiv order dd dd'
             Hlen Hnd Hin Hrun).
  - intros n host nb -> Hsi Hsn Hhost Hn Hlen Hh Hx.
    unfold target, clique_sum. simpl. rewrite Hsi, Hsn.
    rewrite (nth_error_nth _ _ _ Hhost), (nth_error_nth _ _ _ Hn).
    apply weighted_pair; assumption.
Qed.

Lemma two_nodes_arrays (deci_domi subsizes : list nat) (rows : matrix) :
  length deci_domi = 2 -> length subsizes = 2 -> length rows = 2 ->
  cycle_arrays 2 two_nodes deci_domi subsizes rows.
Proof.
  intros H1 H2 H3. constructor; try assumption; try reflexivity.
  intros u l Hu v Hv.
  destruct u as [|[|u]]; simpl in Hu;
    try (destruct u; discriminate);
    inversion Hu; subst l; simpl in Hv; lia.
Qed.

Lemma divergent_update_witness :
  let rows := [[(3 / 5)%R; (2 / 5)%R]; [(1 / 5)%R; (4 / 5)%R]] in
  cycle_arrays 2 two_nodes [0; 1] [3; 1] rows /\
  Evolution.all_agree [0; 1] 0 [1] = Ok false /\
  Evolution.update_node 2 two_nodes [0; 1] [3; 1] rows rows 0 =
  Ok (upd rows 0
        (map2 (fun h x => ((3 * h + 1 * x) / 4)%R)
           [(3 / 5)%R; (2 / 5)%R] [(1 / 5)%R; (4 / 5)%R])).
Proof.
  intro rows.
  assert (Harr : cycle_arrays 2 two_nodes [0; 1] [3; 1] rows)
    by (apply two_nodes_arrays; reflexivity).
  split; [exact Harr|]. split; [reflexivity|].
  destruct (divergent_update 2 2 two_nodes [0; 1] [3; 1] rows 0 [1]
              Harr eq_refl eq_refl) as (Hnode & _ & Hpair).
  rewrite (Hnode rows eq_refl).
  rewrite (Hpair 1 [(3 / 5)%R; (2 / 5)%R] [(1 / 5)%R; (4 / 5)%R]);
    try reflexivity; unfold np_sum; simpl; lra.
Defined.

Lemma mean_of_three (r0 r1 r2 : row) :
  length r0 = length r1 -> length r2 = length r1 ->
  np_sum r0 = 1%R -> np_sum r1 = 1%R -> np_sum r2 = 1%R ->
  normalize (clique_sum (fun _ => 1%R) [r0; r1; r2] 1 [0; 2]) =
  vdiv (vadd (vadd r1 r0) r2) 3.
Proof.
  intros H0 H2 S0 S1 S2. unfold clique_sum, normalize. simpl.
  rewrite !vscale_one. f_equal.
  rewrite !np_sum_vadd; try congruence.
  - lra.
  - rewrite vadd_length; congruence.
Qed.

(** C7.  For a converged node the averaging step writes the sum of the rows
    of the host and of all its neighbors in the copy [deci_dist_t], every
    row taken once, divided by the sum of its entries; that row is what the
    second step starts from.  On the path 0-1-2 the row of node 1 is the
    mean of the three rows, entry by entry. *)
Theorem equal_weight_average (net_size deci_num : nat)
    (connection_lists : list (list nat)) (deci_domi subsizes : list nat)
    (deci_dist_t : matrix) (i : nat) (neighbors : list nat) :
  cycle_arrays net_size connection_lists deci_domi subsizes deci_dist_t ->
  nth_error connection_lists i = Some neighbors ->
  Evolution.all_agree deci_domi (nth i deci_domi 0) neighbors = Ok true ->
  let averaged :=
    normalize (clique_sum (fun _ => 1%R) deci_dist_t i neighbors) in
  (forall deci_dist,
     length deci_dist = net_size ->
     Evolution.equal_average deci_dist_t deci_dist i neighbors =
       Ok (upd deci_dist i averaged) /\
     Evolution.update_node deci_num connection_lists deci_domi subsizes
       deci_dist_t deci_dist i =
       Evolution.raise_unipolarity deci_num (upd deci_dist i averaged) i neighbors) /\
  (connection_lists = [[1]; [0; 2]; [1]] -> i = 1 ->
   forall r0 r1 r2,
     deci_dist_t = [r0; r1; r2] ->
     length r0 = length r1 -> length r2 = length r1 ->
     np_sum r0 = 1%R -> np_sum r1 = 1%R -> np_sum r2 = 1%R ->
     averaged = vdiv (vadd (vadd r1 r0) r2) 3).
Proof.
  intros Harr Hnb Hconv averaged. split.
  - intros dd Hlen. pose proof Harr as [H1 H2 H3 H4 H5].
    pose proof (nth_error_length _ _ _ Hnb) as Hi.
    split.
    + apply equal_average_ok; try lia.
      intros n Hn. specialize (H5 i neighbors Hnb n Hn). lia.
    + apply (update_node_converged deci_num connection_lists deci_domi
               subsizes deci_dist_t net_size H1 H2 H3 H4 H5 dd i neighbors
               Hlen Hnb Hconv).
  - intros Hcl Hi r0 r1 r2 Hdt L0 L2 S0 S1 S2. subst.
    simpl in Hnb. inversion Hnb. subst neighbors.
    apply mean_of_three; assumption.
Qed.

(** The small scenario of the specification: the path 0-1-2 with the rows
    [0.9, 0.1], [0.5, 0.5], [0.5, 0.5], all of dominant decision 0. *)
Lemma equal_weight_average_witness :
  let rows := [[(9 / 10)%R; (1 / 10)%R]; [(1 / 2)%R; (1 / 2)%R];
               [(1 / 2)%R; (1 / 2)%R]] in
  argmax_rows rows = Ok [0; 0; 0] /\
  Evolution.all_agree [0; 0; 0] 0 [0; 2] = Ok true /\
  Evolution.equal_average rows rows 1 [0; 2] =
  Ok (upd rows 1
        (vdiv (vadd (vadd [(1 / 2)%R; (1 / 2)%R] [(9 / 10)%R; (1 / 10)%R])
                 [(1 / 2)%R; (1 / 2)%R]) 3)).
Proof.
  intro rows.
  assert (Harr : cycle_arrays 3 [[1]; [0; 2]; [1]] [0; 0; 0] [3; 3; 3] rows).
  { constructor; try reflexivity. intros u l Hu v Hv.
    apply (Topology.wf_range path_well_formed (u := u)). exists l. tauto. }
  split; [unfold rows; simpl; real_cases; reflexivity|].
  split; [reflexivity|].
  destruct (equal_weight_average 3 2 [[1]; [0; 2]; [1]] [0; 0; 0] [3; 3; 3]
              rows 1 [0; 2] Harr eq_refl eq_refl) as (Hnode & Hpath).
  destruct (Hnode rows eq_refl) as (Havg & _).
  rewrite Havg.
  rewrite (Hpath eq_refl eq_refl _ _ _ eq_refl);
    try reflexivity; unfold np_sum; simpl; lra.
Defined.

Lemma argmax_rows_length (deci_dist : matrix) (deci_domi : list nat) :
  argmax_rows deci_dist = Ok deci_domi -> length deci_domi = length deci_dist.
Proof.
  revert deci_domi. induction deci_dist as [|r rest IH]; intros dd H;
    simpl in H.
  - inversion H. reflexivity.
  - destruct (np_argmax r); simpl in H; try discriminate.
    destruct (argmax_rows rest) as [ds| |]; simpl in H; try discriminate.
    inversion H. simpl. rewrite (IH ds eq_refl). reflexivity.
Qed.

Lemma assign_sizes_length (size_temp : nat) (sub : list nat) :
  forall ss tl ss' tl',
    Detector.assign_sizes size_temp sub ss tl = Ok (ss', tl') ->
    length ss' = length ss.
Proof.
  induction sub as [|i sub IH]; intros ss tl ss' tl' H; simpl in H.
  - inversion H. reflexivity.
  - destruct (set_item ss i size_temp) as [ss1| |] eqn:E; simpl in H;
      try discriminate.
    destruct (list_remove i tl) as [tl1| |]; simpl in H; try discriminate.
    apply set_item_inv in E. destruct E as [-> _].
    rewrite (IH _ _ _ _ H). apply upd_length.
Qed.

Lemma assign_all_length (sgs : list (list nat)) :
  forall ss tl ss' tl',
    Detector.assign_all sgs ss tl = Ok (ss', tl') -> length ss' = length ss.
Proof.
  induction sgs as [|sg sgs IH]; intros ss tl ss' tl' H; simpl in H.
  - inversion H. reflexivity.
  - destruct (Detector.assign_sizes (length sg) sg ss tl) as [[ss1 tl1]| |] eqn:E;
      simpl in H; try discriminate.
    rewrite (IH _ _ _ _ H). apply (assign_sizes_length _ _ _ _ _ _ E).
Qed.

Lemma update_subsizes_length (net_size : nat) (sgs : list (list nat))
    (ss ss' : list nat) :
  Detector.update_subsizes net_size sgs ss = Ok ss' -> length ss' = length ss.
Proof.
  unfold Detector.update_subsizes. intro H.
  destruct (Detector.assign_all sgs ss (seq 0 net_size)) as [[ss1 tl1]| |] eqn:E;
    simpl in H; try discriminate.
  destruct (negb (length tl1 =? 0)); [discriminate|].
  inversion H. subst. apply (assign_all_length _ _ _ _ _ E).
Qed.

(** *** The row that a node update divides *)

Section DivisionFacts.

Local Open Scope R_scope.

Variable deci_num : nat.
Variable connection_lists : list (list nat).
Variable deci_domi : list nat.
Variable subsizes : list nat.
Variable deci_dist_t : matrix.
Variable net_size : nat.

Hypothesis Hcl : length connection_lists = net_size.
Hypothesis Hdomi : length deci_domi = net_size.
Hypothesis Hsizes : length subsizes = net_size.
Hypothesis Hsnap : length deci_dist_t = net_size.
Hypothesis Hrange :
  forall u l, nth_error connection_lists u = Some l ->
  forall v, In v l -> (v < net_size)%nat.

Local Abbreviation update_node :=
  (Evolution.update_node deci_num connection_lists deci_domi subsizes deci_dist_t).
Local Abbreviation divided :=
  (divided_row deci_num connection_lists deci_domi subsizes deci_dist_t).

(** The linear multiplier ends with the division of the multiplied row. *)
Lemma sharpen_multiplied (dist_diff_max : R) (cur : row) :
  Evolution.sharpen deci_num dist_diff_max cur =
  (dist1 <- multiplied deci_num dist_diff_max cur ;;
   Ok (vdiv dist1 (np_sum dist1))).
Proof.
  unfold Evolution.sharpen, multiplied.
  destruct (py_div 1 (INR deci_num)); cbn [bind]; try reflexivity.
  destruct (py_div 2 (INR deci_num)); cbn [bind]; try reflexivity.
  destruct (Evolution.bubble_sort deci_num cur) as [dt si]. reflexivity.
Qed.

Lemma divided_row_divergent (deci_dist : matrix) (i : nat) (neighbors : list nat) :
  length deci_dist = net_size ->
  nth_error connection_lists i = Some neighbors ->
  Evolution.all_agree deci_domi (nth i deci_domi 0%nat) neighbors = Ok false ->
  divided deci_dist i =
  Ok (clique_sum (fun n => INR (nth n subsizes 0%nat)) deci_dist_t i neighbors).
Proof.
  intros Hlen Hnb Hdiv.
  pose proof (nth_error_length _ _ _ Hnb) as Hi. rewrite Hcl in Hi.
  assert (Hid : (i < length deci_dist)%nat) by lia.
  unfold divided_row.
  rewrite (index_nth deci_domi i 0%nat) by lia. cbn [bind].
  rewrite (index_nth_error _ _ _ Hnb). cbn [bind].
  rewrite Hdiv. cbn [bind].
  rewrite (index_nth deci_dist_t i []) by lia. cbn [bind].
  rewrite (index_nth subsizes i 0%nat) by lia. cbn [bind].
  rewrite (set_item_lt deci_dist i _ Hid). cbn [bind].
  rewrite (accumulate_weighted_ok subsizes deci_dist_t neighbors _ i _
             (nth_error_upd_same deci_dist i _ Hid)).
  - cbn [bind]. rewrite upd_upd.
    apply index_nth_error. apply nth_error_upd_same. assumption.
  - intros n Hn. specialize (Hrange i neighbors Hnb n Hn). lia.
Qed.

Lemma divided_row_converged (deci_dist : matrix) (i : nat) (neighbors : list nat) :
  length deci_dist = net_size ->
  nth_error connection_lists i = Some neighbors ->
  Evolution.all_agree deci_domi (nth i deci_domi 0%nat) neighbors = Ok true ->
  let summed := clique_sum (fun _ => 1) deci_dist_t i neighbors in
  divided deci_dist i =
  (dist_diff_max <-
     Evolution.max_difference (upd deci_dist i (normalize summed)) i neighbors ;;
   if Rlt_dec dist_diff_max dist_diff_thres then
     multiplied deci_num dist_diff_max (normalize summed)
   else Ok summed).
Proof.
  intros Hlen Hnb Hconv summed.
  pose proof (nth_error_length _ _ _ Hnb) as Hi. rewrite Hcl in Hi.
  assert (Hid : (i < length deci_dist)%nat) by lia.
  unfold divided_row.
  rewrite (index_nth deci_domi i 0%nat) by lia. cbn [bind].
  rewrite (index_nth_error _ _ _ Hnb). cbn [bind].
  rewrite Hconv. cbn [bind].
  rewrite (index_nth deci_dist_t i []) by lia. cbn [bind].
  rewrite (set_item_lt deci_dist i _ Hid). cbn [bind].
  rewrite (accumulate_ok deci_dist_t neighbors _ i _
             (nth_error_upd_same deci_dist i _ Hid)).
  - cbn [bind]. rewrite upd_upd.
    assert (Es : fold_left (fun acc n => vadd acc (nth n deci_dist_t []))
                   neighbors (vscale (nth i deci_dist_t []) 1) = summed).
    { unfold summed, clique_sum. apply fold_left_ext. intros x y.
      rewrite vscale_one. reflexivity. }
    rewrite Es.
    rewrite (index_nth_error _ _ _ (nth_error_upd_same deci_dist i summed Hid)).
    cbn [bind].
    rewrite (normalize_row_ok _ i _ (nth_error_upd_same deci_dist i summed Hid)).
    cbn [bind]. rewrite upd_upd.
    destruct (Evolution.max_difference _ i neighbors) as [m| |];
      cbn [bind]; try reflexivity.
    destruct (Rlt_dec m dist_diff_thres); [|reflexivity].
    rewrite (index_nth_error _ _ _
               (nth_error_upd_same deci_dist i (normalize summed) Hid)).
    reflexivity.
  - intros n Hn. specialize (Hrange i neighbors Hnb n Hn). lia.
Qed.

(** Whatever the branch, a node update that returns has divided the row
    [divided_row] by its sum and written the quotient as the row of the
    node. *)
Lemma update_node_divides (deci_dist deci_dist' : matrix) (i : nat) :
  length deci_dist = net_size ->
  update_node deci_dist i = Ok deci_dist' ->
  (i < net_size)%nat /\
  exists raw,
    divided deci_dist i = Ok raw /\
    deci_dist' = upd deci_dist i (vdiv raw (np_sum raw)).
Proof.
  intros Hlen H.
  assert (Hi : (i < net_size)%nat).
  { unfold Evolution.update_node in H.
    destruct (index deci_domi i) as [d| |] eqn:E; simpl in H; try discriminate.
    apply index_ok, nth_error_length in E. lia. }
  split; [assumption|].
  destruct (index_lt connection_lists i) as (neighbors & _ & Hnb); [lia|].
  destruct (all_agree_total deci_domi net_size Hdomi
              (nth i deci_domi 0%nat) neighbors (Hrange i neighbors Hnb))
    as ([|] & Hb).
  - rewrite (update_node_converged deci_num connection_lists deci_domi
               subsizes deci_dist_t net_size Hcl Hdomi Hsizes Hsnap Hrange
               deci_dist i neighbors Hlen Hnb Hb) in H.
    rewrite (divided_row_converged deci_dist i neighbors Hlen Hnb Hb).
    set (summed := clique_sum (fun _ => 1) deci_dist_t i neighbors) in *.
    assert (Hcur : nth_error (upd deci_dist i (normalize summed)) i
                   = Some (normalize summed)).
    { apply nth_error_upd_same. lia. }
    destruct (raise_unipolarity_shape deci_num _ _ _ _ _ Hcur H)
      as (m & Em & [[Hge ->]|[Hlt (r & Er & ->)]]); rewrite Em; cbn [bind];
      destruct (Rlt_dec m dist_diff_thres); try contradiction.
    + exists summed. split; reflexivity.
    + rewrite sharpen_multiplied in Er.
      destruct (multiplied deci_num m (normalize summed)) as [dist1| |];
        simpl in Er; try discriminate.
      inversion Er. exists dist1. split; [reflexivity | apply upd_upd].
  - rewrite (update_node_divergent deci_num connection_lists deci_domi
               subsizes deci_dist_t net_size Hcl Hdomi Hsizes Hsnap Hrange
               deci_dist i neighbors Hlen Hnb Hb) in H.
    rewrite (divided_row_divergent deci_dist i neighbors Hlen Hnb Hb).
    inversion H. eexists. split; reflexivity.
Qed.

Lemma evolve_app (first rest : list nat) :
  forall deci_dist,
    Evolution.evolve deci_num connection_lists deci_domi subsizes deci_dist_t
      (first ++ rest) deci_dist =
    (deci_dist1 <-
       Evolution.evolve deci_num connection_lists deci_domi subsizes
         deci_dist_t first deci_dist ;;
     Evolution.evolve deci_num connection_lists deci_domi subsizes deci_dist_t
       rest deci_dist1).
Proof.
  induction first as [|a first IH]; intro dd; simpl; [reflexivity|].
  destruct (update_node dd a); cbn [bind]; try reflexivity. apply IH.
Qed.

(** The loop over the nodes leaves in row [i] the quotient that the update
    of node [i] has written. *)
Lemma evolve_divides (deci_dist deci_dist' : matrix) (i : nat) :
  length deci_dist = net_size ->
  (i < net_size)%nat ->
  Evolution.evolve deci_num connection_lists deci_domi subsizes deci_dist_t
    (seq 0 net_size) deci_dist = Ok deci_dist' ->
  exists live raw,
    Evolution.evolve deci_num connection_lists deci_domi subsizes deci_dist_t
      (seq 0 i) deci_dist = Ok live /\
    divided live i = Ok raw /\
    nth_error deci_dist' i = Some (vdiv raw (np_sum raw)).
Proof.
  intros Hlen Hi H.
  replace net_size with (i + S (net_size - S i))%nat in H at 1 by lia.
  rewrite seq_app, evolve_app in H. cbn [Nat.add seq] in H.
  destruct (Evolution.evolve deci_num connection_lists deci_domi subsizes
              deci_dist_t (seq 0 i) deci_dist) as [live| |] eqn:E1;
    cbn [bind] in H; try discriminate.
  destruct (evolve_shape deci_num connection_lists deci_domi subsizes
              deci_dist_t net_size Hcl Hdomi Hsizes Hsnap Hrange
              (seq 0 i) deci_dist live Hlen E1) as (Hlive & _ & _).
  cbn [Evolution.evolve] in H.
  destruct (update_node live i) as [mid| |] eqn:E2; cbn [bind] in H;
    try discriminate.
  destruct (update_node_divides live mid i Hlive E2) as (_ & raw & Eraw & ->).
  destruct (evolve_shape deci_num connection_lists deci_domi subsizes
              deci_dist_t net_size Hcl Hdomi Hsizes Hsnap Hrange
              (seq (S i) (net_size - S i)) _ deci_dist'
              (eq_trans (upd_length live i _) Hlive) H) as (_ & Hframe & _).
  exists live, raw. split; [reflexivity|]. split; [assumption|].
  rewrite Hframe.
  - apply nth_error_upd_same. lia.
  - rewrite in_seq. lia.
Qed.

End DivisionFacts.

(** C8.  The last operation of a cycle on the row of a node is the division
    of that row by the sum of its entries, on the converged branch, with or
    without the multiplier, and on the divergent branch alike.  When the
    loop over the nodes reaches node [i] the array is [live]; the update of
    [i] brings its row to [raw] (the sum of the rows of the host and its
    neighbors, weighted by the subgroup sizes for a divergent node; for a
    converged node that sum with equal weights, or the averaged row times
    its multipliers when the multiplier is applied), divides it by
    [np.sum(raw)], and the cycle returns the quotient as the row of [i].
    That row sums to 1 whenever the sum of [raw] is not zero. *)
Theorem normalization_invariant (net_size deci_num : nat)
    (connection_lists : list (list nat)) (subsizes : list nat)
    (deci_dist deci_dist' : matrix) (subsizes' : list nat)
    (subgroups : list (list nat)) :
  length connection_lists = net_size ->
  (forall u l, nth_error connection_lists u = Some l ->
     forall v, In v l -> v < net_size) ->
  length subsizes = net_size ->
  length deci_dist = net_size ->
  Evolution.simulation_cycle net_size deci_num connection_lists subsizes
    deci_dist = Ok (deci_dist', subsizes', subgroups) ->
  length deci_dist' = net_size /\
  forall i, i < net_size ->
    exists deci_domi live raw,
      argmax_rows deci_dist = Ok deci_domi /\
      Evolution.evolve deci_num connection_lists deci_domi subsizes' deci_dist
        (seq 0 i) deci_dist = Ok live /\
      divided_row deci_num connection_lists deci_domi subsizes' deci_dist
        live i = Ok raw /\
      nth_error deci_dist' i = Some (vdiv raw (np_sum raw)) /\
      (np_sum raw <> 0%R -> np_sum (nth i deci_dist' []) = 1%R).
Proof.
  intros Hcl Hrange Hss Hdd Hrun. unfold Evolution.simulation_cycle in Hrun.
  destruct (argmax_rows deci_dist) as [domi| |] eqn:Ea; simpl in Hrun;
    try discriminate.
  destruct (Detector.update_subgroups connection_lists domi net_size)
    as [sgs| |]; simpl in Hrun; try discriminate.
  destruct (Detector.update_subsizes net_size sgs subsizes) as [ss1| |] eqn:Es;
    simpl in Hrun; try discriminate.
  destruct (Evolution.evolve deci_num connection_lists domi ss1 deci_dist
              (seq 0 net_size) deci_dist) as [dd1| |] eqn:Ee;
    simpl in Hrun; try discriminate.
  inversion Hrun. subst dd1 ss1 sgs.
  apply argmax_rows_length in Ea. apply update_subsizes_length in Es.
  destruct (evolve_shape deci_num connection_lists domi subsizes' deci_dist
              net_size Hcl (eq_trans Ea Hdd) (eq_trans Es Hss) Hdd Hrange
              (seq 0 net_size) deci_dist deci_dist' Hdd Ee)
    as (Hlen & _ & _).
  split; [exact Hlen|].
  intros i Hi.
  destruct (evolve_divides deci_num connection_lists domi subsizes' deci_dist
              net_size Hcl (eq_trans Ea Hdd) (eq_trans Es Hss) Hdd Hrange
              deci_dist deci_dist' i Hdd Hi Ee)
    as (live & raw & Elive & Eraw & Erow).
  exists domi, live, raw. repeat split; try assumption.
  intro Hsum. rewrite (nth_error_nth _ _ _ Erow).
  apply np_sum_normalize. assumption.
Qed.

Lemma two_nodes_cycle :
  Evolution.simulation_cycle 2 2 two_nodes [0; 0] two_rows =
  Ok ([[(3 / 4)%R; (1 / 4)%R]; [1%R; 0%R]], [2; 2], [[0; 1]]).
Proof.
  unfold Evolution.simulation_cycle.
  assert (Ha : argmax_rows two_rows = Ok [0; 0]).
  { unfold two_rows. simpl. real_cases. reflexivity. }
  rewrite Ha. cbn [bind].
  assert (Hs : Detector.update_subgroups two_nodes [0; 0] 2 = Ok [[0; 1]])
    by reflexivity.
  rewrite Hs. cbn [bind].
  assert (Hz : Detector.update_subsizes 2 [[0; 1]] [0; 0] = Ok [2; 2])
    by reflexivity.
  rewrite Hz. cbn [bind].
  change (seq 0 2) with [0; 1].
  rewrite (two_nodes_evolve 0 1 (or_introl (conj eq_refl eq_refl))).
  reflexivity.
Qed.

Lemma normalization_invariant_witness :
  length [[(3 / 4)%R; (1 / 4)%R]; [1%R; 0%R]] = 2 /\
  forall i, i < 2 ->
    exists deci_domi live raw,
      argmax_rows two_rows = Ok deci_domi /\
      Evolution.evolve 2 two_nodes deci_domi [2; 2] two_rows (seq 0 i) two_rows
        = Ok live /\
      divided_row 2 two_nodes deci_domi [2; 2] two_rows live i = Ok raw /\
      nth_error [[(3 / 4)%R; (1 / 4)%R]; [1%R; 0%R]] i
        = Some (vdiv raw (np_sum raw)) /\
      (np_sum raw <> 0%R ->
       np_sum (nth i [[(3 / 4)%R; (1 / 4)%R]; [1%R; 0%R]] []) = 1%R).
Proof.
  apply (normalization_invariant 2 2 two_nodes [0; 0] two_rows
           [[(3 / 4)%R; (1 / 4)%R]; [1%R; 0%R]] [2; 2] [[0; 1]]).
  - reflexivity.
  - apply (arrays_range
             (two_nodes_arrays [0; 0] [0; 0] two_rows eq_refl eq_refl eq_refl)).
  - reflexivity.
  - reflexivity.
  - exact two_nodes_cycle.
Defined.

Ltac rabs_cases :=
  unfold Rabs;
  repeat match goal with
  | |- context [Rcase_abs ?a] => destruct (Rcase_abs a); try (exfalso; lra)
  end.

(** On the two nodes: node 0, updated first, divides the sum of the two
    rows; node 1 then finds the row of node 0 equal to its own average,
    applies the multipliers 1 and 0 to [3/4, 1/4] and divides the result.
    Neither sum is zero. *)
Example two_nodes_divided_rows :
  divided_row 2 two_nodes [0; 0] [2; 2] two_rows two_rows 0
    = Ok [(3 / 2)%R; (1 / 2)%R] /\
  divided_row 2 two_nodes [0; 0] [2; 2] two_rows
    (upd two_rows 0 [(3 / 4)%R; (1 / 4)%R]) 1
    = Ok [(3 / 4)%R; 0%R].
Proof.
  pose proof (arrays_range
                (two_nodes_arrays [0; 0] [0; 0] two_rows eq_refl eq_refl eq_refl))
    as Hrange.
  split.
  - rewrite (divided_row_converged 2 two_nodes [0; 0] [2; 2] two_rows 2
               eq_refl eq_refl eq_refl eq_refl Hrange
               two_rows 0 [1] eq_refl eq_refl eq_refl).
    rewrite (two_rows_average 0 [1]) by tauto.
    unfold Evolution.max_difference. simpl. unfold abs_diff, np_sum. simpl.
    rabs_cases; unfold dist_diff_thres; real_cases.
    unfold clique_sum. simpl. apply f_equal.
    apply (f_equal2 cons); [lra | apply (f_equal2 cons); [lra | reflexivity]].
  - rewrite (divided_row_converged 2 two_nodes [0; 0] [2; 2] two_rows 2
               eq_refl eq_refl eq_refl eq_refl Hrange
               (upd two_rows 0 [(3 / 4)%R; (1 / 4)%R]) 1 [0]
               eq_refl eq_refl eq_refl).
    rewrite (two_rows_average 1 [0]) by tauto.
    unfold Evolution.max_difference. simpl. unfold abs_diff, np_sum. simpl.
    replace (Rabs (3 / 4 - 3 / 4) + (Rabs (1 / 4 - 1 / 4) + 0))%R with 0%R
      by (rabs_cases; lra).
    unfold dist_diff_thres. real_cases.
    unfold multiplied, py_div, np_power, dist_diff_thres, dist_diff_power.
    simpl INR. real_cases. cbn [bind].
    unfold Evolution.bubble_sort, Evolution.bubble_pass, Evolution.bubble_step.
    simpl. real_cases.
    unfold Evolution.exchange. simpl.
    unfold Evolution.apply_multiplier, py_div. simpl. real_cases.
    cbn [bind]. simpl. apply f_equal.
    apply (f_equal2 cons); [lra | apply (f_equal2 cons); [lra | reflexivity]].
Qed.

(** ** A zero sum *)

Lemma float_sum_zeros (n : nat) :
  FloatModel.np_sum (repeat 0%float n) = 0%float.
Proof.
  unfold FloatModel.np_sum.
  induction n as [|n IH]; simpl; [reflexivity | exact IH].
Qed.

(** C9, as the code has it.  Nothing checks a sum before the division: a row
    of zeros, among the initial rows or as the sum over a host and its
    neighbors, is divided entry by entry by its sum 0 and every entry
    becomes NaN; the normalisation of the model has no exception to
    raise. *)
Theorem zero_row_becomes_nan (n m : nat) :
  FloatModel.normalize (repeat 0%float n) = repeat nan n /\
  FloatModel.normalize_rows (repeat (repeat 0%float n) m) =
    repeat (repeat nan n) m /\
  forall (deci_dist : matrix) (i : nat) (cur : row),
    nth_error deci_dist i = Some cur ->
    Evolution.normalize_row deci_dist i = Ok (upd deci_dist i (normalize cur)).
Proof.
  assert (Hrow : FloatModel.normalize (repeat 0%float n) = repeat nan n).
  { unfold FloatModel.normalize. rewrite float_sum_zeros.
    induction n as [|n IH]; simpl; [reflexivity|]. rewrite IH. reflexivity. }
  split; [exact Hrow|]. split.
  - unfold FloatModel.normalize_rows.
    induction m as [|m IH]; simpl; [reflexivity|]. rewrite Hrow, IH.
    reflexivity.
  - apply normalize_row_ok.
Qed.

(** C9 as stated fails: an initial row of zeros and a zero sum of a host and
    its neighbors both go through the normalisation, which returns rows of
    NaN and reports no error. *)
Lemma zero_sum_is_not_reported :
  FloatModel.normalize_rows [[0%float; 0%float]; [1%float; 3%float]] =
    [[nan; nan]; [0.25%float; 0.75%float]] /\
  FloatModel.normalize [0%float; 0%float] = [nan; nan] /\
  exists deci_dist',
    Evolution.normalize_row [[0%R; 0%R]] 0 = Ok deci_dist'.
Proof.
  split; [vm_compute; reflexivity|]. split; [vm_compute; reflexivity|].
  eexists. apply normalize_row_ok. reflexivity.
Qed.

(** ** A cycle keeps the rows distributions *)

Section CycleTotal.

Local Open Scope R_scope.

Variable deci_num : nat.
Variable connection_lists : list (list nat).
Variable deci_domi : list nat.
Variable subsizes : list nat.
Variable deci_dist_t : matrix.
Variable net_size : nat.

Hypothesis Hnum : (2 <= deci_num)%nat.
Hypothesis Harr :
  cycle_arrays net_size connection_lists deci_domi subsizes deci_dist_t.
Hypothesis Hsnapshot : Forall (distribution deci_num) deci_dist_t.
Hypothesis Hsizes_pos : forall n, (n < net_size)%nat -> (1 <= nth n subsizes 0)%nat.

Lemma snapshot_row (n : nat) :
  (n < net_size)%nat -> distribution deci_num (nth n deci_dist_t []).
Proof.
  intro Hn. rewrite Forall_forall in Hsnapshot. apply Hsnapshot.
  apply nth_In. rewrite (arrays_snapshot Harr). assumption.
Qed.

Lemma clique_sum_fold (weight : nat -> R) (neighbors : list nat) :
  forall acc,
    length acc = deci_num ->
    Forall (fun x => 0 <= x) acc ->
    (forall n, In n neighbors -> (n < net_size)%nat /\ 0 <= weight n) ->
    let total :=
      fold_left (fun a n => vadd a (vscale (nth n deci_dist_t []) (weight n)))
        neighbors acc in
    length total = deci_num /\
    Forall (fun x => 0 <= x) total /\
    np_sum acc <= np_sum total.
Proof.
  induction neighbors as [|n rest IH]; intros acc Hlen Hnn Hw; simpl.
  - repeat split; auto. lra.
  - destruct (Hw n (or_introl eq_refl)) as [Hn Hwn].
    destruct (snapshot_row n Hn) as (Hl & Hp & Hs).
    destruct (IH (vadd acc (vscale (nth n deci_dist_t []) (weight n))))
      as (H1 & H2 & H3).
    + rewrite vadd_length; rewrite ?vscale_length; congruence.
    + apply vadd_nonneg; [assumption | apply vscale_nonneg; assumption].
    + intros m Hm. apply Hw. right. assumption.
    + split; [assumption|]. split; [assumption|].
      rewrite np_sum_vadd, np_sum_vscale, Hs in H3
        by (rewrite vscale_length; congruence).
      lra.
Qed.

Lemma clique_sum_distribution (weight : nat -> R) (i : nat)
    (neighbors : list nat) :
  (i < net_size)%nat ->
  1 <= weight i ->
  (forall n, In n neighbors -> (n < net_size)%nat /\ 0 <= weight n) ->
  distribution deci_num (normalize (clique_sum weight deci_dist_t i neighbors)).
Proof.
  intros Hi Hwi Hw. destruct (snapshot_row i Hi) as (Hl & Hp & Hs).
  destruct (clique_sum_fold weight neighbors
              (vscale (nth i deci_dist_t []) (weight i)))
    as (H1 & H2 & H3).
  - rewrite vscale_length. assumption.
  - apply vscale_nonneg; [lra | assumption].
  - assumption.
  - apply normalize_distribution; try assumption.
    unfold clique_sum. rewrite np_sum_vscale, Hs in H3. lra.
Qed.

Lemma Forall_upd {A : Type} (P : A -> Prop) (l : list A) (i : nat) (v : A) :
  Forall P l -> P v -> Forall P (upd l i v).
Proof.
  intros Hl Hv. revert i. induction Hl as [|x l Hx Hl IH]; intros [|i]; simpl;
    constructor; auto.
Qed.

(** The update of a node that has a neighbor returns, and writes a
    distribution. *)
Lemma update_node_total (deci_dist : matrix) (i : nat) :
  (i < net_size)%nat ->
  nth i connection_lists [] <> [] ->
  length deci_dist = net_size ->
  Forall (distribution deci_num) deci_dist ->
  exists deci_dist',
    Evolution.update_node deci_num connection_lists deci_domi subsizes
      deci_dist_t deci_dist i = Ok deci_dist' /\
    length deci_dist' = net_size /\
    Forall (distribution deci_num) deci_dist'.
Proof.
  intros Hi Hne Hlen Hrows. pose proof Harr as [H1 H2 H3 H4 H5].
  destruct (index_lt connection_lists i) as (neighbors & _ & Hnb); [lia|].
  rewrite (nth_error_nth _ _ _ Hnb) in Hne.
  pose proof (H5 i neighbors Hnb) as Hr.
  destruct (all_agree_total deci_domi net_size H2 (nth i deci_domi 0%nat)
              neighbors Hr) as ([|] & Hb).
  - rewrite (update_node_converged deci_num connection_lists deci_domi subsizes
               deci_dist_t net_size H1 H2 H3 H4 H5 deci_dist i neighbors
               Hlen Hnb Hb).
    set (avg := normalize (clique_sum (fun _ => 1) deci_dist_t i neighbors)).
    assert (Havg : distribution deci_num avg).
    { apply clique_sum_distribution; [assumption | lra|].
      intros n Hn. split; [apply Hr; assumption | lra]. }
    set (dd1 := upd deci_dist i avg).
    assert (Hlen1 : length dd1 = net_size).
    { unfold dd1. rewrite upd_length. assumption. }
    assert (Hrows1 : Forall (distribution deci_num) dd1).
    { apply Forall_upd; assumption. }
    unfold Evolution.raise_unipolarity.
    destruct (max_difference_ok dd1 i neighbors) as (m & Em & Hm); try lia.
    { intros n Hn. rewrite Hlen1. apply Hr. assumption. }
    { assumption. }
    rewrite Em. cbn [bind].
    destruct (Rlt_dec m dist_diff_thres) as [Hlt|Hge].
    + rewrite (index_nth_error dd1 i avg)
        by (apply nth_error_upd_same; lia).
      cbn [bind].
      destruct (sharpen_distribution deci_num Hnum m (conj Hm Hlt) avg Havg)
        as (r & Er & Hr').
      rewrite Er. cbn [bind]. rewrite set_item_lt by lia.
      eexists. split; [reflexivity|]. split.
      * rewrite upd_length. assumption.
      * apply Forall_upd; assumption.
    + exists dd1. auto.
  - rewrite (update_node_divergent deci_num connection_lists deci_domi subsizes
               deci_dist_t net_size H1 H2 H3 H4 H5 deci_dist i neighbors
               Hlen Hnb Hb).
    eexists. split; [reflexivity|]. split.
    + rewrite upd_length. assumption.
    + apply Forall_upd; [assumption|].
      apply clique_sum_distribution; [assumption| |].
      * specialize (Hsizes_pos i Hi). apply le_INR in Hsizes_pos.
        simpl in Hsizes_pos. lra.
      * intros n Hn. split; [apply Hr; assumption | apply pos_INR].
Qed.

Lemma evolve_total (order : list nat) :
  (forall i, In i order ->
     (i < net_size)%nat /\ nth i connection_lists [] <> []) ->
  forall deci_dist,
    length deci_dist = net_size ->
    Forall (distribution deci_num) deci_dist ->
    exists deci_dist',
      Evolution.evolve deci_num connection_lists deci_domi subsizes deci_dist_t
        order deci_dist = Ok deci_dist' /\
      length deci_dist' = net_size /\
      Forall (distribution deci_num) deci_dist'.
Proof.
  induction order as [|a rest IH]; intros Hord dd Hlen Hrows.
  - exists dd. auto.
  - cbn [Evolution.evolve].
    destruct (Hord a (or_introl eq_refl)) as [Ha Hne].
    destruct (update_node_total dd a Ha Hne Hlen Hrows) as (dd1 & E & Hl1 & Hr1).
    rewrite E. cbn [bind]. apply IH; auto.
    intros i Hi. apply Hord. right. assumption.
Qed.

End CycleTotal.

Lemma argmax_rows_ok (deci_num : nat) (deci_dist : matrix) :
  1 <= deci_num ->
  Forall (distribution deci_num) deci_dist ->
  exists deci_domi, argmax_rows deci_dist = Ok deci_domi.
Proof.
  intros Hnum H. induction H as [|r rest Hr Hrest IH]; simpl.
  - exists []. reflexivity.
  - destruct Hr as (Hlen & _). destruct r as [|x r]; simpl in Hlen; [lia|].
    simpl. destruct IH as (ds & ->). simpl. eexists. reflexivity.
Qed.

(** One cycle on a connected topology: if every node has a neighbor, there
    are at least two decisions and every row is a distribution, the cycle
    ends without an exception and every row is a distribution again. *)
Theorem cycle_preserves_distributions (net_size deci_num : nat)
    (connection_lists : list (list nat)) (subsizes : list nat)
    (deci_dist : matrix) :
  Topology.well_formed connection_lists net_size ->
  (forall u, u < net_size -> nth u connection_lists [] <> []) ->
  2 <= deci_num ->
  length subsizes = net_size ->
  length deci_dist = net_size ->
  Forall (distribution deci_num) deci_dist ->
  exists deci_dist' subsizes' subgroups,
    Evolution.simulation_cycle net_size deci_num connection_lists subsizes
      deci_dist = Ok (deci_dist', subsizes', subgroups) /\
    length deci_dist' = net_size /\
    Forall (distribution deci_num) deci_dist' /\
    length subsizes' = net_size /\
    Permutation (concat subgroups) (seq 0 net_size).
Proof.
  intros Hwf Hnb Hnum Hss Hdd Hrows.
  unfold Evolution.simulation_cycle.
  destruct (argmax_rows_ok deci_num deci_dist) as (domi & Ea); [lia|assumption|].
  rewrite Ea. cbn [bind].
  pose proof (argmax_rows_length _ _ Ea) as Hdomi. rewrite Hdd in Hdomi.
  destruct (detector_total connection_lists domi net_size Hwf Hdomi)
    as (sgs & Es & Hperm & _ & Hsizes).
  rewrite Es. cbn [bind].
  destruct (Hsizes subsizes Hss) as (ss' & Ez & Hss' & Hval).
  rewrite Ez. cbn [bind].
  assert (Harr : cycle_arrays net_size connection_lists domi ss' deci_dist).
  { constructor; try assumption; [apply (Topology.wf_length Hwf)|].
    intros u l Hu v Hv. apply (Topology.wf_range Hwf (u := u)).
    exists l. tauto. }
  assert (Hpos : forall n, n < net_size -> 1 <= nth n ss' 0).
  { intros n Hn.
    assert (Hin : In n (concat sgs)).
    { apply (Permutation_in _ (Permutation_sym Hperm)). apply in_seq. lia. }
    apply in_concat in Hin. destruct Hin as (sub & Hsub & Hnsub).
    rewrite (nth_error_nth _ _ _ (Hval sub n Hsub Hnsub)).
    destruct sub; [contradiction | simpl; lia]. }
  destruct (evolve_total deci_num connection_lists domi ss' deci_dist net_size
              Hnum Harr Hrows Hpos (seq 0 net_size)) with (deci_dist := deci_dist)
    as (dd' & Ee & Hl & Hr); try assumption.
  { intros i Hi. apply in_seq in Hi. split; [lia | apply Hnb; lia]. }
  rewrite Ee. cbn [bind]. exists dd', ss', sgs. auto.
Qed.

(** X1.  On a well-formed topology in which every node has a neighbor, with
    at least two decisions and a distribution in every row, any number of
    cycles runs without an exception and every row is a distribution again. *)
Theorem cycles_preserve_distributions (cycles net_size deci_num : nat)
    (connection_lists : list (list nat)) :
  Topology.well_formed connection_lists net_size ->
  (forall u, u < net_size -> nth u connection_lists [] <> []) ->
  2 <= deci_num ->
  forall subsizes deci_dist,
    length subsizes = net_size ->
    length deci_dist = net_size ->
    Forall (distribution deci_num) deci_dist ->
    exists deci_dist' subsizes',
      Evolution.run_cycles cycles net_size deci_num connection_lists subsizes
        deci_dist = Ok (deci_dist', subsizes') /\
      length deci_dist' = net_size /\
      Forall (distribution deci_num) deci_dist'.
Proof.
  intros Hwf Hnb Hnum.
  induction cycles as [|cycles IH]; intros ss dd Hss Hdd Hrows.
  - exists dd, ss. auto.
  - cbn [Evolution.run_cycles].
    destruct (cycle_preserves_distributions net_size deci_num connection_lists
                ss dd Hwf Hnb Hnum Hss Hdd Hrows)
      as (dd1 & ss1 & sgs & E & Hl & Hr & Hs & _).
    rewrite E. cbn [bind]. apply IH; assumption.
Qed.

Lemma two_nodes_well_formed : Topology.well_formed two_nodes 2.
Proof.
  constructor.
  - reflexivity.
  - intros u v (l & El & Hl).
    destruct u as [|[|u]]; simpl in El;
      try (destruct u; discriminate);
      inversion El; subst l; simpl in Hl; lia.
  - intros u (l & El & Hl).
    destruct u as [|[|u]]; simpl in El;
      try (destruct u; discriminate);
      inversion El; subst l; simpl in Hl; lia.
  - intros u l El.
    destruct u as [|[|u]]; simpl in El;
      try (destruct u; discriminate);
      inversion El; subst l;
      repeat (constructor; [simpl; lia|]); constructor.
  - intros u v (l & El & Hl).
    destruct u as [|[|u]]; simpl in El;
      try (destruct u; discriminate);
      inversion El; subst l; simpl in Hl;
      repeat (destruct Hl as [<-|Hl]); try contradiction;
      eexists; (split; [reflexivity | simpl; tauto]).
Qed.

Lemma cycles_preserve_distributions_witness :
  exists deci_dist' subsizes',
    Evolution.run_cycles 3 2 2 two_nodes [0; 0] two_rows
      = Ok (deci_dist', subsizes') /\
    length deci_dist' = 2 /\
    Forall (distribution 2) deci_dist'.
Proof.
  apply (cycles_preserve_distributions 3 2 2 two_nodes two_nodes_well_formed).
  - intros u Hu. destruct u as [|[|u]]; simpl; [discriminate | discriminate | lia].
  - lia.
  - reflexivity.
  - reflexivity.
  - unfold two_rows, distribution, np_sum.
    repeat constructor; simpl; lra.
Defined.

(** * Cycles in a row *)

(** Any number of cycles runs and keeps the distributions, on a well-formed
    topology in which every node has a neighbor. *)
Lemma run_cycles_total (net_size deci_num : nat)
    (connection_lists : list (list nat)) :
  Topology.well_formed connection_lists net_size ->
  (forall u, u < net_size -> nth u connection_lists [] <> []) ->
  2 <= deci_num ->
  forall cycles subsizes deci_dist,
    length subsizes = net_size ->
    length deci_dist = net_size ->
    Forall (distribution deci_num) deci_dist ->
    exists deci_dist' subsizes',
      Evolution.run_cycles cycles net_size deci_num connection_lists subsizes
        deci_dist = Ok (deci_dist', subsizes') /\
      length deci_dist' = net_size /\
      Forall (distribution deci_num) deci_dist'.
Proof.
  intros Hwf Hnb Hnum.
  induction cycles as [|cycles IH]; intros ss dd Hss Hdd Hrows.
  - exists dd, ss. auto.
  - cbn [Evolution.run_cycles].
    destruct (cycle_preserves_distributions net_size deci_num connection_lists
                ss dd Hwf Hnb Hnum Hss Hdd Hrows)
      as (dd1 & ss1 & sgs & E & Hl & Hr & Hs & _).
    rewrite E. cbn [bind]. apply IH; assumption.
Qed.

(** * The network built from the node positions *)

Section NetworkFacts.

Variable nodes : list Network.position.
Variable net_size : nat.

Local Abbreviation linked := (linked nodes).
Local Abbreviation square := (square net_size).

Lemma is_neighbor_sym (a b : Network.position) :
  Network.is_neighbor a b = Network.is_neighbor b a.
Proof.
  unfold Network.is_neighbor. destruct a as [x y], b as [x' y']. simpl.
  replace (x' - x)%Z with (- (x - x'))%Z by lia.
  replace (y' - y)%Z with (- (y - y'))%Z by lia.
  rewrite !Z.abs_opp, Z.mul_opp_opp. reflexivity.
Qed.

Lemma is_neighbor_irrefl (a : Network.position) : Network.is_neighbor a a = false.
Proof.
  unfold Network.is_neighbor. rewrite !Z.sub_diag. reflexivity.
Qed.

Lemma is_neighbor_around (a b : Network.position) :
  Network.is_neighbor a b = true <-> In b (Network.around a).
Proof.
  unfold Network.is_neighbor, Network.around. destruct a as [x y], b as [x' y'].
  simpl. rewrite orb_true_iff, !Z.eqb_eq. split.
  - intros [H|H].
    + assert (Hc : ((x' = x + 1 /\ y' = y) \/ (x' = x - 1 /\ y' = y) \/
                    (x' = x /\ y' = y + 1) \/ (x' = x /\ y' = y - 1))%Z) by lia.
      destruct Hc as [[-> ->]|[[-> ->]|[[-> ->]|[-> ->]]]]; tauto.
    + assert (Hm : ((x - x') * (y' - y) = 1)%Z).
      { replace (y' - y)%Z with (- (y - y'))%Z by lia.
        rewrite Z.mul_opp_r, H. reflexivity. }
      assert (Hc : ((x' = x + 1 /\ y' = y - 1) \/
                    (x' = x - 1 /\ y' = y + 1))%Z).
      { destruct (Z.mul_eq_1 _ _ Hm) as [E|E]; rewrite E in Hm; lia. }
      destruct Hc as [[-> ->]|[-> ->]]; tauto.
  - intro H. repeat (destruct H as [H|H]; [inversion H; subst; lia|]).
    contradiction.
Qed.

Lemma linked_sym (u w : nat) : linked u w = linked w u.
Proof. apply is_neighbor_sym. Qed.

Lemma linked_irrefl (u : nat) : linked u u = false.
Proof. apply is_neighbor_irrefl. Qed.

Lemma for_each_app {A S : Type} (l1 l2 : list A) (body : S -> A -> result S)
    (s : S) :
  for_each (l1 ++ l2) body s = (s1 <- for_each l1 body s ;; for_each l2 body s1).
Proof.
  revert s. induction l1 as [|x l1 IH]; intro s; simpl; [reflexivity|].
  destruct (body s x); simpl; auto.
Qed.

Lemma forall_upd {A : Type} (P : A -> Prop) (l : list A) (i : nat) (v : A) :
  Forall P l -> P v -> Forall P (upd l i v).
Proof.
  intros Hl Hv. revert i. induction Hl as [|x l Hx Hl IH]; intros [|i]; simpl;
    constructor; auto.
Qed.

Lemma square_row (c : list (list Z)) (u : nat) :
  square c -> u < net_size -> length (nth u c []) = net_size.
Proof.
  intros [Hlen Hrows] Hu. rewrite Forall_forall in Hrows. apply Hrows.
  apply nth_In. lia.
Qed.

Lemma set_entry_ok (c : list (list Z)) (i j : nat) (v : Z) :
  square c -> i < net_size -> j < net_size ->
  exists c', Network.set_entry c i j v = Ok c' /\ square c' /\
    forall u w, entry c' u w = if (u =? i) && (w =? j) then v else entry c u w.
Proof.
  intros Hsq Hi Hj. pose proof Hsq as [Hlen Hrows].
  pose proof (square_row c i Hsq Hi) as Hrow.
  unfold Network.set_entry.
  rewrite (index_nth c i []) by lia. cbn [bind].
  rewrite set_item_lt by lia. cbn [bind].
  rewrite set_item_lt by lia.
  eexists. split; [reflexivity|]. split.
  - split; [rewrite upd_length; assumption|].
    apply forall_upd; [assumption|]. rewrite upd_length. assumption.
  - intros u w. unfold entry.
    destruct (Nat.eqb_spec u i) as [->|Hu]; simpl.
    + rewrite nth_upd_same by lia.
      destruct (Nat.eqb_spec w j) as [->|Hw].
      * apply nth_upd_same. lia.
      * apply nth_upd_other. congruence.
    + rewrite nth_upd_other by congruence. reflexivity.
Qed.

Lemma connect_pair_ok (c : list (list Z)) (i j : nat) :
  square c -> i < net_size -> j < net_size ->
  i < length nodes -> j < length nodes ->
  exists c', Network.connect_pair nodes i c j = Ok c' /\ square c' /\
    forall u w,
      entry c' u w =
      if (((u =? i) && (w =? j)) || ((u =? j) && (w =? i))) && linked u w
      then 1%Z else entry c u w.
Proof.
  intros Hsq Hi Hj Hni Hnj. unfold Network.connect_pair.
  rewrite (index_nth nodes i (0%Z, 0%Z)) by assumption. cbn [bind].
  rewrite (index_nth nodes j (0%Z, 0%Z)) by assumption. cbn [bind].
  fold (node_at nodes i). fold (node_at nodes j). fold (linked i j).
  destruct (linked i j) eqn:El.
  - destruct (set_entry_ok c i j 1%Z Hsq Hi Hj) as (c1 & E1 & Hsq1 & H1).
    rewrite E1. cbn [bind].
    destruct (set_entry_ok c1 j i 1%Z Hsq1 Hj Hi) as (c2 & E2 & Hsq2 & H2).
    exists c2. split; [exact E2|]. split; [exact Hsq2|].
    intros u w. rewrite H2, H1.
    destruct (Nat.eqb_spec u i) as [Eui|Nui], (Nat.eqb_spec w j) as [Ewj|Nwj],
             (Nat.eqb_spec u j) as [Euj|Nuj], (Nat.eqb_spec w i) as [Ewi|Nwi];
      simpl; try reflexivity; subst;
      first [rewrite El; reflexivity | rewrite linked_sym, El; reflexivity].
  - exists c. split; [reflexivity|]. split; [assumption|].
    intros u w.
    destruct (Nat.eqb_spec u i) as [Eui|Nui], (Nat.eqb_spec w j) as [Ewj|Nwj],
             (Nat.eqb_spec u j) as [Euj|Nuj], (Nat.eqb_spec w i) as [Ewi|Nwi];
      simpl; try reflexivity; subst;
      first [rewrite El; reflexivity | rewrite linked_sym, El; reflexivity].
Qed.

Lemma connect_row_ok (i : nat) :
  i < net_size -> i < length nodes ->
  forall js c,
    square c ->
    (forall j, In j js -> j < net_size /\ j < length nodes) ->
    exists c',
      for_each js (Network.connect_pair nodes i) c = Ok c' /\ square c' /\
      forall u w,
        entry c' u w =
        if (((u =? i) && mem w js) || (mem u js && (w =? i))) && linked u w
        then 1%Z else entry c u w.
Proof.
  intros Hi Hni. induction js as [|j rest IH]; intros c Hsq Hjs.
  - exists c. split; [reflexivity|]. split; [assumption|].
    intros u w. simpl. rewrite andb_false_r. reflexivity.
  - destruct (Hjs j (or_introl eq_refl)) as [Hj Hnj].
    destruct (connect_pair_ok c i j Hsq Hi Hj Hni Hnj) as (c1 & E1 & Hsq1 & H1).
    destruct (IH c1 Hsq1) as (c' & E' & Hsq' & H').
    { intros k Hk. apply Hjs. right. assumption. }
    exists c'. split; [simpl; rewrite E1; exact E'|]. split; [assumption|].
    intros u w. rewrite H', H1. simpl.
    destruct (u =? i), (w =? j), (u =? j), (w =? i), (mem w rest), (mem u rest),
      (linked u w); reflexivity.
Qed.

Lemma mem_py_range (w start : nat) :
  w < net_size -> mem w (py_range start net_size) = (start <=? w).
Proof.
  intro Hw. unfold py_range.
  destruct (Nat.leb_spec start w) as [H|H].
  - apply mem_In. apply in_seq. lia.
  - apply mem_not_In. rewrite in_seq. lia.
Qed.

Lemma connect_all_ok :
  net_size <= length nodes ->
  forall rows c,
    square c ->
    (forall i, In i rows -> i < net_size) ->
    exists c',
      for_each rows
        (fun connections i =>
           for_each (py_range (i + 1) net_size) (Network.connect_pair nodes i)
             connections) c = Ok c' /\
      square c' /\
      forall u w, u < net_size -> w < net_size ->
        entry c' u w =
        if ((mem u rows && (u <? w)) || (mem w rows && (w <? u))) && linked u w
        then 1%Z else entry c u w.
Proof.
  intro Hn. induction rows as [|i rest IH]; intros c Hsq Hrows.
  - exists c. split; [reflexivity|]. split; [assumption|]. reflexivity.
  - assert (Hi : i < net_size) by (apply Hrows; left; reflexivity).
    destruct (connect_row_ok i Hi (Nat.lt_le_trans _ _ _ Hi Hn)
                (py_range (i + 1) net_size) c Hsq) as (c1 & E1 & Hsq1 & H1).
    { intros j Hj. unfold py_range in Hj. apply in_seq in Hj. lia. }
    destruct (IH c1 Hsq1) as (c' & E' & Hsq' & H').
    { intros k Hk. apply Hrows. right. assumption. }
    exists c'. split; [simpl; rewrite E1; exact E'|]. split; [assumption|].
    intros u w Hu Hw. rewrite H', H1 by assumption.
    rewrite !mem_py_range by assumption. simpl.
    destruct (Nat.eqb_spec u i) as [Eui|Nui], (Nat.eqb_spec w i) as [Ewi|Nwi],
             (Nat.leb_spec (i + 1) w), (Nat.leb_spec (i + 1) u),
             (Nat.ltb_spec u w), (Nat.ltb_spec w u);
      destruct (mem u rest), (mem w rest), (linked u w); simpl;
      try reflexivity; try lia.
Qed.

Lemma entry_zeros (u w : nat) :
  entry (repeat (repeat 0%Z net_size) net_size) u w = 0%Z.
Proof.
  unfold entry. destruct (Nat.lt_ge_cases u net_size) as [Hu|Hu].
  - rewrite (nth_indep _ _ (repeat 0%Z net_size))
      by (rewrite repeat_length; assumption).
    rewrite nth_repeat. apply nth_repeat.
  - rewrite (nth_overflow (repeat (repeat 0%Z net_size) net_size))
      by (rewrite repeat_length; assumption).
    destruct w; reflexivity.
Qed.

Lemma square_zeros : square (repeat (repeat 0%Z net_size) net_size).
Proof.
  split; [apply repeat_length|].
  apply Forall_forall. intros r Hr. apply repeat_spec in Hr. subst r.
  apply repeat_length.
Qed.

(** The matrix the double loop leaves behind. *)
Lemma connection_matrix_ok :
  net_size <= length nodes ->
  exists c,
    Network.connection_matrix nodes net_size = Ok c /\ square c /\
    forall u w, u < net_size -> w < net_size ->
      entry c u w = if linked u w then 1%Z else 0%Z.
Proof.
  intro Hn. unfold Network.connection_matrix.
  destruct (connect_all_ok Hn (py_range 0 net_size)
              (repeat (repeat 0%Z net_size) net_size) square_zeros)
    as (c & E & Hsq & H).
  { intros i Hi. unfold py_range in Hi. apply in_seq in Hi. lia. }
  exists c. split; [exact E|]. split; [assumption|].
  intros u w Hu Hw. rewrite H, entry_zeros by assumption.
  rewrite !mem_py_range by assumption. simpl.
  destruct (Nat.ltb_spec u w), (Nat.ltb_spec w u); simpl;
    try (destruct (linked u w); reflexivity).
  assert (u = w) by lia. subst w. rewrite linked_irrefl. reflexivity.
Qed.

Lemma connection_list_ok (c : list (list Z)) (i : nat) :
  square c -> i < net_size ->
  Network.connection_list c net_size i =
  Ok (filter (fun j => negb (entry c i j =? 0)%Z) (seq 0 net_size)).
Proof.
  intros Hsq Hi. unfold Network.connection_list, py_range.
  rewrite Nat.sub_0_r.
  set (body := fun (connection_list_temp : list nat) (j : nat) => _).
  assert (Hbody : forall acc j, j < net_size ->
            body acc j =
            Ok (if negb (entry c i j =? 0)%Z then acc ++ [j] else acc)).
  { intros acc j Hj. unfold body. destruct Hsq as [Hlen Hrows].
    rewrite (index_nth c i []) by lia. cbn [bind].
    rewrite (index_nth (nth i c []) j 0%Z)
      by (rewrite (square_row c i (conj Hlen Hrows) Hi); assumption).
    cbn [bind]. fold (entry c i j).
    destruct (negb (entry c i j =? 0)%Z); reflexivity. }
  assert (H : forall js acc,
            (forall j, In j js -> j < net_size) ->
            for_each js body acc =
            Ok (acc ++ filter (fun j => negb (entry c i j =? 0)%Z) js)).
  { induction js as [|j rest IH]; intros acc Hjs; cbn [for_each filter].
    - rewrite app_nil_r. reflexivity.
    - rewrite Hbody by (apply Hjs; left; reflexivity). cbn [bind].
      rewrite IH by (intros k Hk; apply Hjs; right; assumption).
      destruct (negb (entry c i j =? 0)%Z); [|reflexivity].
      rewrite <- app_assoc. reflexivity. }
  apply (H (seq 0 net_size) []). intros j Hj. apply in_seq in Hj. lia.
Qed.

Lemma connection_lists_of_ok (c : list (list Z)) :
  square c ->
  Network.connection_lists_of c net_size =
  Ok (map (fun i => filter (fun j => negb (entry c i j =? 0)%Z) (seq 0 net_size))
        (seq 0 net_size)).
Proof.
  intro Hsq. unfold Network.connection_lists_of, py_range.
  rewrite Nat.sub_0_r.
  set (body := fun (connection_lists : list (list nat)) (i : nat) => _).
  assert (H : forall rows acc,
            (forall i, In i rows -> i < net_size) ->
            for_each rows body acc =
            Ok (acc ++ map (fun i => filter (fun j => negb (entry c i j =? 0)%Z)
                                       (seq 0 net_size)) rows)).
  { induction rows as [|i rest IH]; intros acc Hrows; cbn [for_each map].
    - rewrite app_nil_r. reflexivity.
    - unfold body at 1.
      rewrite connection_list_ok by (try assumption; apply Hrows; left; reflexivity).
      cbn [bind].
      rewrite IH by (intros k Hk; apply Hrows; right; assumption).
      rewrite <- app_assoc. reflexivity. }
  apply (H (seq 0 net_size) []). intros i Hi. apply in_seq in Hi. lia.
Qed.

(** The lists the construction gives: node [i] is connected to the nodes
    [j < net_size] that pass the test of line 88, in increasing order. *)
Lemma network_ok :
  net_size <= length nodes ->
  exists c,
    Network.network nodes net_size =
    Ok (c, map (fun i => filter (linked i) (seq 0 net_size)) (seq 0 net_size)) /\
    square c /\
    forall u w, u < net_size -> w < net_size ->
      entry c u w = if linked u w then 1%Z else 0%Z.
Proof.
  intro Hn. destruct (connection_matrix_ok Hn) as (c & E & Hsq & H).
  exists c. split; [|split; assumption].
  unfold Network.network. rewrite E. cbn [bind].
  rewrite (connection_lists_of_ok c Hsq). cbn [bind].
  f_equal. f_equal. apply map_ext_in. intros i Hi. apply in_seq in Hi.
  apply filter_ext_in. intros j Hj. apply in_seq in Hj.
  rewrite H by lia. destruct (linked i j); reflexivity.
Qed.

Lemma index_overflow {A : Type} (l : list A) (i : nat) :
  length l <= i -> index l i = Raise IndexError.
Proof.
  intro H. unfold index. apply nth_error_None in H. rewrite H. reflexivity.
Qed.

(** A node index beyond the end of [nodes] stops the double loop. *)
Lemma connect_row_short (i : nat) :
  i < net_size ->
  forall js c,
    square c ->
    (forall j, In j js -> j < net_size) ->
    js <> [] ->
    (length nodes <= i \/ exists j, In j js /\ length nodes <= j) ->
    for_each js (Network.connect_pair nodes i) c = Raise IndexError.
Proof.
  intro Hi. induction js as [|j rest IH]; intros c Hsq Hjs Hne Hshort;
    [congruence|].
  cbn [for_each].
  destruct (Nat.le_gt_cases (length nodes) i) as [Hni|Hni].
  { unfold Network.connect_pair. rewrite index_overflow by assumption.
    reflexivity. }
  destruct (Nat.le_gt_cases (length nodes) j) as [Hnj|Hnj].
  { unfold Network.connect_pair.
    rewrite (index_nth nodes i (0%Z, 0%Z)) by assumption. cbn [bind].
    rewrite index_overflow by assumption. reflexivity. }
  destruct (connect_pair_ok c i j Hsq Hi (Hjs j (or_introl eq_refl)) Hni Hnj)
    as (c1 & E1 & Hsq1 & _).
  rewrite E1. cbn [bind].
  destruct Hshort as [Hs|(k & Hk & Hs)]; [lia|].
  destruct Hk as [<-|Hk]; [lia|].
  apply IH; try assumption.
  - intros m Hm. apply Hjs. right. assumption.
  - intro E. subst rest. contradiction.
  - right. exists k. tauto.
Qed.

Lemma connection_matrix_short :
  length nodes < net_size -> 2 <= net_size ->
  Network.connection_matrix nodes net_size = Raise IndexError.
Proof.
  intros Hshort Hn. unfold Network.connection_matrix, py_range at 1.
  destruct net_size as [|n] eqn:En; [lia|].
  rewrite Nat.sub_0_r. cbn [seq for_each]. rewrite <- En.
  rewrite (connect_row_short 0); [reflexivity | lia | apply square_zeros | | |].
  - intros j Hj. unfold py_range in Hj. apply in_seq in Hj. lia.
  - unfold py_range. replace (net_size - (0 + 1)) with (S (net_size - 2)) by lia.
    discriminate.
  - destruct (length nodes) as [|m] eqn:Em; [left; lia | right].
    exists (S m). split; [|lia]. unfold py_range. apply in_seq. lia.
Qed.

Local Abbreviation lists :=
  (map (fun i => filter (linked i) (seq 0 net_size)) (seq 0 net_size)).

Lemma lists_row (u : nat) (l : list nat) :
  nth_error lists u = Some l <->
  u < net_size /\ l = filter (linked u) (seq 0 net_size).
Proof.
  rewrite nth_error_map, nth_error_seq.
  destruct (Nat.ltb_spec u net_size) as [Hu|Hu]; simpl.
  - split; [intro H; inversion H; auto | intros [_ ->]; reflexivity].
  - split; [discriminate | lia].
Qed.

Lemma lists_adjacent (u v : nat) :
  Topology.adjacent lists u v <->
  u < net_size /\ v < net_size /\ linked u v = true.
Proof.
  unfold Topology.adjacent. split.
  - intros (l & Hl & Hv). apply lists_row in Hl. destruct Hl as [Hu ->].
    apply filter_In in Hv. rewrite in_seq in Hv. destruct Hv as [Hv Hlink].
    split; [assumption|]. split; [lia | assumption].
  - intros (Hu & Hv & Hlink). exists (filter (linked u) (seq 0 net_size)).
    split; [apply lists_row; auto|]. apply filter_In. rewrite in_seq.
    split; [lia | assumption].
Qed.

Lemma filter_seq_sorted (f : nat -> bool) (len : nat) :
  forall start, StronglySorted lt (filter f (seq start len)).
Proof.
  induction len as [|len IH]; intro start; simpl; [constructor|].
  destruct (f start); [|apply IH]. constructor; [apply IH|].
  apply Forall_forall. intros x Hx. apply filter_In in Hx.
  rewrite in_seq in Hx. lia.
Qed.

Lemma lists_well_formed : Topology.well_formed lists net_size.
Proof.
  constructor.
  - rewrite length_map, length_seq. reflexivity.
  - intros u v H. apply lists_adjacent in H. tauto.
  - intros u H. apply lists_adjacent in H.
    rewrite linked_irrefl in H. destruct H as (_ & _ & H). discriminate.
  - intros u l Hl. apply lists_row in Hl. destruct Hl as [_ ->].
    apply NoDup_filter. apply seq_NoDup.
  - intros u v H. apply lists_adjacent. apply lists_adjacent in H.
    rewrite linked_sym. tauto.
Qed.

End NetworkFacts.

(** ** What the construction guarantees *)

(** X2.  The construction of lines 82-100 gives a well-formed topology
    whenever [nodes] places at least [net_size] nodes: one connection list
    per node, node indices in range, no node connected to itself, no node
    listed twice, and symmetry. *)
Theorem network_is_well_formed (nodes : list Network.position) (net_size : nat) :
  net_size <= length nodes ->
  exists connections connection_lists,
    Network.network nodes net_size = Ok (connections, connection_lists) /\
    Topology.well_formed connection_lists net_size.
Proof.
  intro Hn. destruct (network_ok nodes net_size Hn) as (c & E & _ & _).
  eexists. eexists. split; [exact E|]. apply lists_well_formed.
Qed.

Lemma network_is_well_formed_witness :
  exists connections connection_lists,
    Network.network [(0, 0); (1, 0); (0, 1); (5, 5)]%Z 4
      = Ok (connections, connection_lists) /\
    Topology.well_formed connection_lists 4.
Proof.
  apply (network_is_well_formed [(0, 0); (1, 0); (0, 1); (5, 5)]%Z 4).
  simpl. lia.
Defined.

(** X3.  Which nodes the construction connects: node [j] is in the
    connection list of node [i] exactly when both are among the first
    [net_size] nodes and [j] sits on one of the six positions around [i];
    the matrix [connections] holds 1 for such a pair and 0 for any other;
    and every connection list names its nodes in increasing order. *)
Theorem network_connects_neighbors (nodes : list Network.position)
    (net_size : nat) :
  net_size <= length nodes ->
  exists connections connection_lists,
    Network.network nodes net_size = Ok (connections, connection_lists) /\
    (forall i j,
       Topology.adjacent connection_lists i j <->
       i < net_size /\ j < net_size /\
       In (node_at nodes j) (Network.around (node_at nodes i))) /\
    (forall i j, i < net_size -> j < net_size ->
       (Topology.adjacent connection_lists i j -> entry connections i j = 1%Z) /\
       (~ Topology.adjacent connection_lists i j -> entry connections i j = 0%Z)) /\
    (forall i l, nth_error connection_lists i = Some l -> StronglySorted lt l).
Proof.
  intro Hn. destruct (network_ok nodes net_size Hn) as (c & E & _ & Hc).
  eexists. eexists. split; [exact E|]. split; [|split].
  - intros i j. rewrite lists_adjacent. unfold linked.
    rewrite is_neighbor_around. reflexivity.
  - intros i j Hi Hj. rewrite lists_adjacent. rewrite (Hc i j Hi Hj).
    destruct (linked nodes i j); split; intro H;
      try reflexivity; try tauto.
    destruct H as (_ & _ & H). discriminate.
  - intros i l Hl. apply lists_row in Hl. destruct Hl as [_ ->].
    apply filter_seq_sorted.
Qed.

Lemma network_connects_neighbors_witness :
  exists connections connection_lists,
    Network.network [(0, 0); (1, 0); (0, 1); (5, 5)]%Z 4
      = Ok (connections, connection_lists) /\
    (forall i j,
       Topology.adjacent connection_lists i j <->
       i < 4 /\ j < 4 /\
       In (node_at [(0, 0); (1, 0); (0, 1); (5, 5)]%Z j)
          (Network.around (node_at [(0, 0); (1, 0); (0, 1); (5, 5)]%Z i))) /\
    (forall i j, i < 4 -> j < 4 ->
       (Topology.adjacent connection_lists i j -> entry connections i j = 1%Z) /\
       (~ Topology.adjacent connection_lists i j -> entry connections i j = 0%Z)) /\
    (forall i l, nth_error connection_lists i = Some l -> StronglySorted lt l).
Proof.
  apply (network_connects_neighbors [(0, 0); (1, 0); (0, 1); (5, 5)]%Z 4).
  simpl. lia.
Defined.

(** The network of the four positions above: the first three nodes are
    connected to each other, the fourth to none. *)
Example network_of_four :
  Network.network [(0, 0); (1, 0); (0, 1); (5, 5)]%Z 4 =
  Ok ([[0; 1; 1; 0]; [1; 0; 1; 0]; [1; 1; 0; 0]; [0; 0; 0; 0]]%Z,
      [[1; 2]; [0; 2]; [0; 1]; []]).
Proof. reflexivity. Qed.

(** X4.  Nodes on distinct positions have at most six connections. *)
Theorem network_degree_at_most_six (nodes : list Network.position)
    (net_size : nat) :
  net_size <= length nodes ->
  NoDup (firstn net_size nodes) ->
  exists connections connection_lists,
    Network.network nodes net_size = Ok (connections, connection_lists) /\
    forall i l, nth_error connection_lists i = Some l -> length l <= 6.
Proof.
  intros Hn Hnd. destruct (network_ok nodes net_size Hn) as (c & E & _ & _).
  eexists. eexists. split; [exact E|].
  intros i l Hl. apply lists_row in Hl. destruct Hl as [Hi ->].
  set (l := filter (linked nodes i) (seq 0 net_size)).
  assert (Hinj : NoDup (map (node_at nodes) l)).
  { apply NoDup_map_NoDup_ForallPairs.
    - intros u v Hu Hv Huv. apply filter_In in Hu, Hv.
      rewrite in_seq in Hu, Hv.
      rewrite NoDup_nth with (d := (0%Z, 0%Z)) in Hnd.
      apply Hnd; rewrite ?length_firstn; try lia.
      rewrite !nth_firstn.
      destruct (Nat.ltb_spec u net_size), (Nat.ltb_spec v net_size); try lia.
      exact Huv.
    - apply NoDup_filter. apply seq_NoDup. }
  assert (Hincl : incl (map (node_at nodes) l) (Network.around (node_at nodes i))).
  { intros p Hp. apply in_map_iff in Hp. destruct Hp as (j & <- & Hj).
    apply filter_In in Hj. apply is_neighbor_around. tauto. }
  pose proof (NoDup_incl_length Hinj Hincl) as Hlen.
  rewrite length_map in Hlen.
  destruct (node_at nodes i) as [x y]. simpl in Hlen. exact Hlen.
Qed.

Lemma network_degree_at_most_six_witness :
  exists connections connection_lists,
    Network.network [(0, 0); (1, 0); (0, 1); (5, 5)]%Z 4
      = Ok (connections, connection_lists) /\
    forall i l, nth_error connection_lists i = Some l -> length l <= 6.
Proof.
  apply (network_degree_at_most_six [(0, 0); (1, 0); (0, 1); (5, 5)]%Z 4).
  - simpl. lia.
  - simpl. repeat (constructor; [simpl; intuition congruence|]). constructor.
Defined.

(** X5.  The construction reads [nodes[i]] for every [i < net_size] as soon
    as there are two nodes to compare: it raises [IndexError] exactly when
    [net_size] is at least 2 and [nodes] holds fewer than [net_size]
    positions. *)
Theorem network_raises_on_missing_nodes (nodes : list Network.position)
    (net_size : nat) :
  Network.network nodes net_size = Raise IndexError <->
  length nodes < net_size /\ 2 <= net_size.
Proof.
  split.
  - intro H. destruct (Nat.le_gt_cases net_size (length nodes)) as [Hn|Hn].
    + destruct (network_ok nodes net_size Hn) as (c & E & _). congruence.
    + split; [assumption|].
      destruct net_size as [|[|n]]; [lia | | lia].
      destruct nodes; [discriminate H | simpl in Hn; lia].
  - intros [Hshort Hn]. unfold Network.network.
    rewrite connection_matrix_short by assumption. reflexivity.
Qed.

(** With fewer than two nodes no position is read. *)
Example network_of_one_node :
  Network.network [] 1 = Ok ([[0%Z]], [[]]).
Proof. reflexivity. Qed.

Example network_missing_node :
  Network.network [(0, 0); (1, 0)]%Z 3 = Raise IndexError.
Proof. reflexivity. Qed.

(** * More on the linear multiplier *)

Section MultiplierFacts.

Local Open Scope R_scope.

Variable deci_num : nat.
Variable dist_diff_max : R.

Local Abbreviation mult := (multiplier deci_num dist_diff_max).
Local Abbreviation sm := (small_end deci_num dist_diff_max).
Local Abbreviation lg := (large_end deci_num dist_diff_max).

Lemma np_sum_app (a b : row) : np_sum (a ++ b) = np_sum a + np_sum b.
Proof.
  unfold np_sum. induction a as [|x a IH]; simpl; [lra|]. rewrite IH. lra.
Qed.

Lemma multiplier_partial_sum (k : nat) :
  np_sum (map mult (seq 0 k)) =
  INR k * sm + (lg - sm) * / (INR deci_num - 1) * (INR k * (INR k - 1) / 2).
Proof.
  induction k as [|k IH].
  - simpl. unfold np_sum. simpl. lra.
  - rewrite seq_S, map_app, np_sum_app, IH. cbn [Nat.add map].
    unfold np_sum. cbn [fold_right]. rewrite S_INR.
    unfold multiplier. unfold Rdiv.
    generalize (/ (INR deci_num - 1)). intro c. field.
Qed.

Lemma multiplier_strict (j k : nat) :
  (2 <= deci_num)%nat ->
  0 <= dist_diff_max < dist_diff_thres ->
  (j < k)%nat ->
  mult j < mult k.
Proof.
  intros Hnum Hd Hjk. pose proof (INR_num_pos deci_num Hnum) as HD.
  pose proof (small_end_range deci_num dist_diff_max Hnum Hd) as [Hs0 Hs1].
  unfold multiplier, large_end.
  apply lt_INR in Hjk.
  assert (Hinv : 0 < / (INR deci_num - 1)) by (apply Rinv_0_lt_compat; lra).
  assert (Hq : INR j / (INR deci_num - 1) < INR k / (INR deci_num - 1)).
  { unfold Rdiv. apply Rmult_lt_compat_r; assumption. }
  assert (Hgap : 0 < 2 / INR deci_num - sm - sm).
  { assert (2 / INR deci_num = 2 * (1 / INR deci_num)) by (field; lra). lra. }
  nra.
Qed.

Lemma sorted_nth_le (zs : list (R * nat)) :
  StronglySorted le_fst zs ->
  forall i j, (i <= j < length zs)%nat ->
    fst (nth i zs (0, 0%nat)) <= fst (nth j zs (0, 0%nat)).
Proof.
  induction 1 as [|z zs Hs IH Hall]; intros i j Hij; simpl in Hij; [lia|].
  destruct i as [|i], j as [|j]; simpl; try lia; try lra.
  - rewrite Forall_forall in Hall. apply (Hall (nth j zs (0, 0%nat))).
    apply nth_In. lia.
  - apply IH. lia.
Qed.

End MultiplierFacts.

(** X6.  The multipliers of the [deci_num] ranks add up to 1: their average
    is [1.0/deci_num], whatever the largest difference between the
    distributions is. *)
Theorem multipliers_sum_to_one (deci_num : nat) (dist_diff_max : R) :
  2 <= deci_num ->
  np_sum (map (multiplier deci_num dist_diff_max) (seq 0 deci_num)) = 1%R.
Proof.
  intro Hnum. pose proof (INR_num_pos deci_num Hnum) as HD.
  rewrite multiplier_partial_sum. unfold large_end. field. lra.
Qed.

Lemma multipliers_sum_to_one_witness :
  np_sum (map (multiplier 3 (1 / 10)) (seq 0 3)) = 1%R.
Proof.
  apply (multipliers_sum_to_one 3 (1 / 10)). lia.
Defined.

(** What the multipliers do to the order of a distribution, in the exact
    arithmetic of the model: the decision that the sort ranks last has the
    largest probability before and after, and two decisions of different
    probabilities keep their strict order. *)
Lemma sharpen_order (deci_num : nat) (dist_diff_max : R) (dist : row) :
  2 <= deci_num ->
  (0 <= dist_diff_max < dist_diff_thres)%R ->
  distribution deci_num dist ->
  exists dist' t,
    Evolution.sharpen deci_num dist_diff_max dist = Ok dist' /\
    t < deci_num /\
    (forall d, d < deci_num -> (nth d dist 0 <= nth t dist 0)%R) /\
    (forall d, d < deci_num -> (nth d dist' 0 <= nth t dist' 0)%R) /\
    (forall a b, a < deci_num -> b < deci_num ->
       (nth a dist 0 < nth b dist 0)%R -> (nth a dist' 0 < nth b dist' 0)%R).
Proof.
  intros Hnum Hdiff Hdist.
  destruct (sharpen_top deci_num Hnum dist_diff_max Hdiff dist Hdist)
    as (front & top & dist1 & Hperm & Hsorted & Hflen & Hznn & Hzsum & Htop
        & Erun & Hlen1 & Hrank & Hws & Hpos).
  pose proof Hdist as (Hlen & Hnn & Hsum).
  set (zs := front ++ [top]) in *.
  assert (Hzlen : length zs = deci_num).
  { unfold zs. rewrite length_app, Hflen. simpl. lia. }
  assert (Hfind : forall t, t < deci_num ->
            exists j, j < deci_num /\
              nth j zs (0%R, 0) = (nth t dist 0%R, t)).
  { intros t Ht.
    assert (Hin : In (nth t dist 0%R, t) zs).
    { apply (Permutation_in _ (Permutation_sym Hperm)).
      rewrite <- Hlen. apply (in_combine_nth dist t 0). lia. }
    apply (In_nth _ _ (0%R, 0)) in Hin. destruct Hin as (j & Hj & Ej).
    exists j. split; [lia | assumption]. }
  assert (Hval : forall t j, t < deci_num -> j < deci_num ->
            nth j zs (0%R, 0) = (nth t dist 0%R, t) ->
            nth t dist1 0%R
            = (nth t dist 0 * multiplier deci_num dist_diff_max j)%R).
  { intros t j Ht Hj Ej. pose proof (Hrank j Hj) as Hr.
    rewrite Ej in Hr. exact Hr. }
  assert (Hpos_entry : forall t, t < deci_num -> (0 <= nth t dist 0)%R).
  { intros t Ht. rewrite Forall_forall in Hnn. apply Hnn. apply nth_In. lia. }
  assert (Htopin : In top (combine dist (seq 0 deci_num))).
  { apply (Permutation_in _ Hperm). apply in_or_app. right. left. reflexivity. }
  destruct top as [v t]. rewrite <- Hlen in Htopin.
  apply in_combine_seq in Htopin. rewrite Nat.sub_0_r in Htopin.
  destruct Htopin as [Ht0 Ev]. simpl in Ev.
  assert (Ht : t < deci_num) by (rewrite <- Hlen; lia).
  assert (Etop : nth (deci_num - 1) zs (0%R, 0) = (nth t dist 0%R, t)).
  { unfold zs. rewrite <- Hflen, nth_middle', Ev. reflexivity. }
  assert (Hinv : (0 < / np_sum dist1)%R) by (apply Rinv_0_lt_compat; assumption).
  exists (normalize dist1), t. split; [exact Erun|]. split; [assumption|].
  assert (Hmax : forall d, d < deci_num -> (nth d dist 0 <= nth t dist 0)%R).
  { intros d Hd. destruct (Hfind d Hd) as (j & Hj & Ej).
    pose proof (sorted_nth_le zs Hsorted j (deci_num - 1)) as Hle.
    rewrite Ej, Etop in Hle. apply Hle. lia. }
  split; [exact Hmax|]. split.
  - intros d Hd. destruct (Hfind d Hd) as (j & Hj & Ej).
    unfold normalize. rewrite !nth_vdiv.
    rewrite (Hval d j Hd Hj Ej), (Hval t (deci_num - 1) Ht) by (lia || exact Etop).
    apply Rmult_le_compat_r; [lra|].
    pose proof (multiplier_mono deci_num dist_diff_max j (deci_num - 1)
                  Hnum Hdiff) as Hm.
    pose proof (multiplier_nonneg deci_num dist_diff_max j Hnum Hdiff) as Hm0.
    pose proof (Hmax d Hd). pose proof (Hpos_entry d Hd).
    assert ((multiplier deci_num dist_diff_max j
             <= multiplier deci_num dist_diff_max (deci_num - 1))%R)
      by (apply Hm; lia).
    nra.
  - intros a b Ha Hb Hab.
    destruct (Hfind a Ha) as (ja & Hja & Eja).
    destruct (Hfind b Hb) as (jb & Hjb & Ejb).
    assert (Hlt : ja < jb).
    { destruct (Nat.lt_ge_cases ja jb) as [H|H]; [assumption|]. exfalso.
      pose proof (sorted_nth_le zs Hsorted jb ja) as Hle.
      rewrite Eja, Ejb in Hle. simpl in Hle.
      assert (H0 : jb <= ja < length zs) by lia. specialize (Hle H0). lra. }
    pose proof (multiplier_strict deci_num dist_diff_max ja jb Hnum Hdiff Hlt)
      as Hm.
    pose proof (multiplier_nonneg deci_num dist_diff_max ja Hnum Hdiff) as Hm0.
    pose proof (Hpos_entry a Ha).
    unfold normalize. rewrite !nth_vdiv.
    rewrite (Hval a ja Ha Hja Eja), (Hval b jb Hb Hjb Ejb).
    apply Rmult_lt_compat_r; [assumption|].
    nra.
Qed.

Ltac quarter_distribution :=
  unfold distribution, np_sum; simpl; split; [reflexivity|];
  split; [repeat constructor; lra | lra].

(** X7.  The linear multiplier does not reverse the order of the
    probabilities: a decision that was strictly less probable than another
    one before the multiplier is applied is at most as probable after the
    multipliers and the renormalisation.  (In exact arithmetic it stays
    strictly less probable, by [sharpen_order]; over binary64 two small
    probabilities can be rounded to the same value, see
    [float_sharpening_merges].) *)
Theorem sharpening_preserves_order (deci_num : nat) (dist_diff_max : R)
    (dist : row) (a b : nat) :
  2 <= deci_num ->
  (0 <= dist_diff_max < dist_diff_thres)%R ->
  distribution deci_num dist ->
  a < deci_num -> b < deci_num ->
  (nth a dist 0 < nth b dist 0)%R ->
  exists dist',
    Evolution.sharpen deci_num dist_diff_max dist = Ok dist' /\
    (nth a dist' 0 <= nth b dist' 0)%R.
Proof.
  intros Hnum Hdiff Hdist Ha Hb Hab.
  destruct (sharpen_order deci_num dist_diff_max dist Hnum Hdiff Hdist)
    as (dist' & t & Erun & _ & _ & _ & Hstrict).
  exists dist'. split; [exact Erun|].
  apply Rlt_le. apply Hstrict; assumption.
Qed.

Lemma sharpening_preserves_order_witness :
  exists dist',
    Evolution.sharpen 2 0 [(3 / 4)%R; (1 / 4)%R] = Ok dist' /\
    (nth 1 dist' 0 <= nth 0 dist' 0)%R.
Proof.
  apply (sharpening_preserves_order 2 0 [(3 / 4)%R; (1 / 4)%R] 1 0).
  - lia.
  - unfold dist_diff_thres. lra.
  - quarter_distribution.
  - lia.
  - lia.
  - simpl. lra.
Defined.

(** Over binary64 the order is kept, not the strict order: with
    [small_end = 0.0] the smallest positive float is multiplied by a third
    and rounded to 0.0, the value of the decision below it. *)
Example float_sharpening_merges :
  FloatModel.sharpen 3 0%float [0; 0x1p-1074; 1]%float = Ok [0; 0; 1]%float.
Proof. vm_compute. reflexivity. Qed.

(** X8.  The linear multiplier keeps a most probable decision most
    probable: some decision that had the largest probability before has
    the largest probability after the multipliers and the renormalisation,
    whether the maximum is tied or not. *)
Theorem sharpening_keeps_the_maximum (deci_num : nat) (dist_diff_max : R)
    (dist : row) :
  2 <= deci_num ->
  (0 <= dist_diff_max < dist_diff_thres)%R ->
  distribution deci_num dist ->
  exists dist' t,
    Evolution.sharpen deci_num dist_diff_max dist = Ok dist' /\
    t < deci_num /\
    (forall d, d < deci_num -> (nth d dist 0 <= nth t dist 0)%R) /\
    (forall d, d < deci_num -> (nth d dist' 0 <= nth t dist' 0)%R).
Proof.
  intros Hnum Hdiff Hdist.
  destruct (sharpen_order deci_num dist_diff_max dist Hnum Hdiff Hdist)
    as (dist' & t & Erun & Ht & Hbefore & Hafter & _).
  exists dist', t. repeat split; assumption.
Qed.

Lemma sharpening_keeps_the_maximum_witness :
  exists dist' t,
    Evolution.sharpen 2 0 [(1 / 2)%R; (1 / 2)%R] = Ok dist' /\
    t < 2 /\
    (forall d, d < 2 ->
       (nth d [(1 / 2)%R; (1 / 2)%R] 0 <= nth t [(1 / 2)%R; (1 / 2)%R] 0)%R) /\
    (forall d, d < 2 -> (nth d dist' 0 <= nth t dist' 0)%R).
Proof.
  apply (sharpening_keeps_the_maximum 2 0 [(1 / 2)%R; (1 / 2)%R]).
  - lia.
  - unfold dist_diff_thres. lra.
  - quarter_distribution.
Defined.

(** * The bubble sort of the distribution *)

Section StableFacts.

Local Open Scope R_scope.

Variable deci_num : nat.

(** Entries of equal value stand in the order of their indices. *)
Definition in_index_order (x y : R * nat) : Prop :=
  fst x = fst y -> (snd x < snd y)%nat.

(** The passes of the sort, on the list of the values with their
    indices. *)
Fixpoint bubble_from (j k : nat) (zs : list (R * nat)) : list (R * nat) :=
  match k with
  | O => zs
  | S k' => bubble_from (S j) k' (bubble (deci_num - 1 - j) zs)
  end.

Lemma bubble_perm (n : nat) :
  forall zs, Permutation (bubble n zs) zs.
Proof.
  induction n as [|n IH]; intros [|a [|b t]]; simpl;
    try apply Permutation_refl.
  destruct (Rgt_dec (fst a) (fst b)).
  - apply Permutation_trans with (b :: a :: t); [|apply perm_swap].
    apply perm_skip. apply IH.
  - apply perm_skip. apply IH.
Qed.

Lemma bubble_length (n : nat) (zs : list (R * nat)) :
  length (bubble n zs) = length zs.
Proof. apply Permutation_length. apply bubble_perm. Qed.

Lemma bubble_keeps_order (n : nat) :
  forall zs,
    StronglySorted in_index_order zs ->
    StronglySorted in_index_order (bubble n zs).
Proof.
  induction n as [|n IH]; intros [|a [|b t]] H; simpl; try assumption.
  inversion H as [|? ? Hbt Ha]; subst.
  inversion Hbt as [|? ? Ht Hb]; subst.
  inversion Ha as [|? ? Hab Hat]; subst.
  destruct (Rgt_dec (fst a) (fst b)) as [Hgt|Hle].
  - constructor.
    + apply IH. constructor; assumption.
    + apply Forall_forall. intros x Hx.
      apply (Permutation_in _ (bubble_perm n (a :: t))) in Hx.
      destruct Hx as [<-|Hx].
      * intro E. unfold Rgt in Hgt. lra.
      * rewrite Forall_forall in Hb. apply Hb. assumption.
  - constructor.
    + apply IH. assumption.
    + apply Forall_forall. intros x Hx.
      apply (Permutation_in _ (bubble_perm n (b :: t))) in Hx.
      rewrite Forall_forall in Ha. apply Ha. assumption.
Qed.

Lemma bubble_from_keeps_order (k : nat) :
  forall j zs,
    StronglySorted in_index_order zs ->
    StronglySorted in_index_order (bubble_from j k zs).
Proof.
  induction k as [|k IH]; intros j zs H; simpl; [assumption|].
  apply IH. apply bubble_keeps_order. assumption.
Qed.

Lemma bubble_from_fold (k : nat) :
  forall j zs,
    (j + k <= deci_num - 1)%nat ->
    length zs = deci_num ->
    fold_left (Evolution.bubble_pass deci_num) (seq j k) (unzip zs) =
    unzip (bubble_from j k zs).
Proof.
  induction k as [|k IH]; intros j zs Hjk Hlen; [reflexivity|].
  cbn [seq fold_left bubble_from].
  rewrite (bubble_pass_zip deci_num) by lia.
  apply IH; [lia|]. rewrite bubble_length. assumption.
Qed.

Lemma combine_in_index_order (dist : row) :
  forall s n, StronglySorted in_index_order (combine dist (seq s n)).
Proof.
  induction dist as [|x dist IH]; intros s [|n]; simpl; try constructor.
  - apply IH.
  - apply Forall_forall. intros [y i] Hy _. simpl.
    apply in_combine_r in Hy. apply in_seq in Hy. lia.
Qed.

Lemma sorted_nth_rel {A : Type} (rel : A -> A -> Prop) (d : A) (l : list A) :
  StronglySorted rel l ->
  forall i j, (i < j < length l)%nat -> rel (nth i l d) (nth j l d).
Proof.
  induction 1 as [|x l Hs IH Hall]; intros i j Hij; simpl in Hij; [lia|].
  destruct j as [|j]; [lia|]. destruct i as [|i]; simpl.
  - rewrite Forall_forall in Hall. apply Hall. apply nth_In. lia.
  - apply IH. lia.
Qed.

Lemma unzip_inj (zs zs' : list (R * nat)) : unzip zs = unzip zs' -> zs = zs'.
Proof.
  unfold unzip. revert zs'.
  induction zs as [|[x i] zs IH]; intros [|[y k] zs'] E; simpl in E;
    try discriminate; [reflexivity|].
  inversion E. subst. f_equal. apply IH. f_equal; assumption.
Qed.

End StableFacts.

(** X9.  The bubble sort of lines 314-326 sorts: [sort_index] is a
    permutation of the decisions, [dist_temp] holds the probabilities of the
    decisions in the order of [sort_index], in ascending order, and
    decisions of equal probability keep the order of their indices. *)
Theorem bubble_sort_sorts (deci_num : nat) (dist : row) :
  length dist = deci_num ->
  exists dist_temp sort_index,
    Evolution.bubble_sort deci_num dist = (dist_temp, sort_index) /\
    Permutation sort_index (seq 0 deci_num) /\
    dist_temp = map (fun t => nth t dist 0%R) sort_index /\
    StronglySorted Rle dist_temp /\
    (forall j k, j < k < deci_num ->
       nth j dist_temp 0%R = nth k dist_temp 0%R ->
       nth j sort_index 0 < nth k sort_index 0).
Proof.
  intro Hlen.
  set (zs0 := combine dist (seq 0 deci_num)).
  assert (Hzs0 : length zs0 = deci_num).
  { unfold zs0. rewrite length_combine, length_seq. lia. }
  set (zs := bubble_from deci_num 0 (deci_num - 1) zs0).
  assert (Erun : Evolution.bubble_sort deci_num dist = unzip zs).
  { unfold Evolution.bubble_sort.
    rewrite <- (unzip_combine dist (seq 0 deci_num))
      by (rewrite length_seq; assumption).
    apply bubble_from_fold; [lia | assumption]. }
  destruct (bubble_sort_spec deci_num dist Hlen)
    as (zs' & Erun' & Hzlen & Hperm & Hsorted).
  assert (Ezs : zs' = zs).
  { apply unzip_inj. rewrite <- Erun, <- Erun'. reflexivity. }
  subst zs'.
  exists (map fst zs), (map snd zs). split; [exact Erun|].
  assert (Hidx : Permutation (map snd zs) (seq 0 deci_num)).
  { apply Permutation_trans with (map snd zs0).
    - apply Permutation_map. assumption.
    - assert (Hu : unzip zs0 = (dist, seq 0 deci_num)).
      { apply unzip_combine. rewrite length_seq. assumption. }
      unfold unzip in Hu. injection Hu as _ Hu. rewrite Hu.
      apply Permutation_refl. }
  split; [exact Hidx|]. split; [|split].
  - rewrite map_map. apply map_ext_in. intros [v i] Hin. simpl.
    apply (Permutation_in _ Hperm) in Hin. unfold zs0 in Hin.
    rewrite <- Hlen in Hin. apply in_combine_seq in Hin.
    rewrite Nat.sub_0_r in Hin. tauto.
  - clear - Hsorted. induction Hsorted as [|z l Hs IH Hall]; simpl;
      constructor; [assumption|].
    apply Forall_forall. intros y Hy. apply in_map_iff in Hy.
    destruct Hy as (w & <- & Hw). rewrite Forall_forall in Hall.
    apply (Hall w Hw).
  - intros j k Hjk Heq.
    assert (Hstable : StronglySorted in_index_order zs).
    { apply bubble_from_keeps_order. apply combine_in_index_order. }
    pose proof (sorted_nth_rel in_index_order (0%R, 0) zs Hstable j k) as Hrel.
    rewrite Hzlen in Hrel. specialize (Hrel Hjk).
    rewrite !nth_map_snd.
    change 0%R with (fst (0%R, 0)) in Heq.
    rewrite !(map_nth fst) in Heq. apply Hrel. assumption.
Qed.

Lemma bubble_sort_sorts_witness :
  exists dist_temp sort_index,
    Evolution.bubble_sort 3 [(1 / 2)%R; (1 / 4)%R; (1 / 4)%R]
      = (dist_temp, sort_index) /\
    Permutation sort_index (seq 0 3) /\
    dist_temp = map (fun t => nth t [(1 / 2)%R; (1 / 4)%R; (1 / 4)%R] 0%R)
                  sort_index /\
    StronglySorted Rle dist_temp /\
    (forall j k, j < k < 3 ->
       nth j dist_temp 0%R = nth k dist_temp 0%R ->
       nth j sort_index 0 < nth k sort_index 0).
Proof.
  apply (bubble_sort_sorts 3 [(1 / 2)%R; (1 / 4)%R; (1 / 4)%R]).
  reflexivity.
Defined.

(** * Decisions without probability, and consensus *)

Section ExcludedFacts.

Local Open Scope R_scope.

Variable k : nat.

Lemma nth_vadd_zero (a b : row) :
  nth k a 0 = 0 -> nth k b 0 = 0 -> nth k (vadd a b) 0 = 0.
Proof.
  unfold vadd. revert b k. induction a as [|x a IH]; intros b j Ha Hb.
  - destruct j; reflexivity.
  - destruct b as [|y b]; [destruct j; reflexivity|].
    destruct j as [|j]; simpl in *; [lra | apply IH; assumption].
Qed.

Lemma nth_vscale (a : row) (c : R) (j : nat) :
  nth j (vscale a c) 0 = nth j a 0 * c.
Proof.
  unfold vscale. replace 0 with (0 * c) at 1 by apply Rmult_0_l.
  apply (map_nth (fun x => x * c)).
Qed.

Lemma nth_normalize_zero (a : row) :
  nth k a 0 = 0 -> nth k (normalize a) 0 = 0.
Proof.
  intro H. unfold normalize. rewrite nth_vdiv, H. unfold Rdiv.
  apply Rmult_0_l.
Qed.

Lemma clique_sum_zero (weight : nat -> R) (snapshot : matrix) (i : nat)
    (neighbors : list nat) :
  (forall m, nth k (nth m snapshot []) 0 = 0) ->
  nth k (clique_sum weight snapshot i neighbors) 0 = 0.
Proof.
  intro Hsnap. unfold clique_sum.
  assert (H : forall acc, nth k acc 0 = 0 ->
            nth k (fold_left
                     (fun acc n => vadd acc (vscale (nth n snapshot []) (weight n)))
                     neighbors acc) 0 = 0).
  { induction neighbors as [|n rest IH]; intros acc Hacc; simpl; [assumption|].
    apply IH. apply nth_vadd_zero; [assumption|].
    rewrite nth_vscale, Hsnap. apply Rmult_0_l. }
  apply H. rewrite nth_vscale, Hsnap. apply Rmult_0_l.
Qed.

Lemma nth_upd_cases {A : Type} (l : list A) (i m : nat) (v d : A) :
  nth m (upd l i v) d = nth m l d \/ nth m (upd l i v) d = v.
Proof.
  revert i m. induction l as [|h t IH]; intros [|i] [|m]; simpl; auto.
Qed.

Lemma apply_multipliers_zero (deci_num : nat) (small_end large_end : R)
    (sort_index : list nat) :
  forall ranks dist dist1,
    Evolution.apply_multipliers deci_num small_end large_end sort_index dist
      ranks = Ok dist1 ->
    nth k dist 0 = 0 -> nth k dist1 0 = 0.
Proof.
  induction ranks as [|j ranks IH]; intros dist dist1 H Hk; simpl in H.
  - inversion H. subst. assumption.
  - unfold Evolution.apply_multiplier in H.
    destruct (py_div (INR j) (INR deci_num - 1)) as [q| |]; simpl in H;
      try discriminate.
    apply IH in H; [assumption|].
    set (t := nth j sort_index 0%nat).
    destruct (Nat.eq_dec k t) as [E|E].
    + destruct (nth_upd_cases dist t k
                  (nth t dist 0 * (small_end + q * (large_end - small_end))) 0)
        as [-> | ->]; [assumption|].
      rewrite <- E, Hk. apply Rmult_0_l.
    + rewrite nth_upd_other by congruence. assumption.
Qed.

Lemma sharpen_zero (deci_num : nat) (dist_diff_max : R) (dist r : row) :
  Evolution.sharpen deci_num dist_diff_max dist = Ok r ->
  nth k dist 0 = 0 -> nth k r 0 = 0.
Proof.
  unfold Evolution.sharpen. intros H Hk.
  destruct (py_div 1 (INR deci_num)); simpl in H; try discriminate.
  destruct (py_div 2 (INR deci_num)); simpl in H; try discriminate.
  destruct (Evolution.bubble_sort deci_num dist) as [dt si].
  destruct (Evolution.apply_multipliers _ _ _ _ _ _) as [dist1| |] eqn:E;
    simpl in H; try discriminate.
  inversion H. rewrite nth_vdiv.
  rewrite (apply_multipliers_zero _ _ _ _ _ _ _ E Hk).
  unfold Rdiv. apply Rmult_0_l.
Qed.

Lemma excluded_nth (deci_dist : matrix) :
  excluded k deci_dist <-> forall m, nth k (nth m deci_dist []) 0 = 0.
Proof.
  unfold excluded. split.
  - intros H m. destruct (Nat.lt_ge_cases m (length deci_dist)) as [Hm|Hm].
    + rewrite Forall_forall in H. apply H. apply nth_In. assumption.
    + rewrite (nth_overflow deci_dist) by assumption. destruct k; reflexivity.
  - intro H. apply Forall_forall. intros r Hr.
    apply (In_nth _ _ []) in Hr. destruct Hr as (m & _ & <-). apply H.
Qed.

Lemma excluded_upd (deci_dist : matrix) (i : nat) (r : row) :
  excluded k deci_dist -> nth k r 0 = 0 -> excluded k (upd deci_dist i r).
Proof.
  intros H Hr. apply excluded_nth. intro m.
  destruct (nth_upd_cases deci_dist i m r []) as [-> | ->]; [|assumption].
  apply excluded_nth. assumption.
Qed.

Variable deci_num : nat.
Variable connection_lists : list (list nat).
Variable deci_domi : list nat.
Variable subsizes : list nat.
Variable deci_dist_t : matrix.
Variable net_size : nat.

Hypothesis Harr :
  cycle_arrays net_size connection_lists deci_domi subsizes deci_dist_t.
Hypothesis Hsnapshot : excluded k deci_dist_t.

Lemma update_node_excluded (deci_dist deci_dist' : matrix) (i : nat) :
  length deci_dist = net_size ->
  excluded k deci_dist ->
  Evolution.update_node deci_num connection_lists deci_domi subsizes
    deci_dist_t deci_dist i = Ok deci_dist' ->
  length deci_dist' = net_size /\ excluded k deci_dist'.
Proof.
  intros Hlen Hrows H. pose proof Harr as [H1 H2 H3 H4 H5].
  pose proof (proj1 (excluded_nth deci_dist_t) Hsnapshot) as Hsnap.
  assert (Hi : (i < net_size)%nat).
  { unfold Evolution.update_node in H.
    destruct (index deci_domi i) as [d| |] eqn:E; simpl in H; try discriminate.
    apply index_ok, nth_error_length in E. lia. }
  destruct (index_lt connection_lists i) as (neighbors & _ & Hnb); [lia|].
  pose proof (H5 i neighbors Hnb) as Hr.
  destruct (all_agree_total deci_domi net_size H2 (nth i deci_domi 0%nat)
              neighbors Hr) as ([|] & Hb).
  - rewrite (update_node_converged deci_num connection_lists deci_domi subsizes
               deci_dist_t net_size H1 H2 H3 H4 H5 deci_dist i neighbors
               Hlen Hnb Hb) in H.
    set (avg := normalize (clique_sum (fun _ => 1) deci_dist_t i neighbors)) in *.
    assert (Havg : nth k avg 0 = 0).
    { apply nth_normalize_zero. apply clique_sum_zero. assumption. }
    assert (Hcur : nth_error (upd deci_dist i avg) i = Some avg).
    { apply nth_error_upd_same. lia. }
    destruct (raise_unipolarity_shape deci_num _ _ _ _ _ Hcur H)
      as (m & _ & [[_ ->]|[_ (r & Er & ->)]]).
    + split; [rewrite upd_length; assumption|].
      apply excluded_upd; assumption.
    + split; [rewrite !upd_length; assumption|].
      apply excluded_upd; [apply excluded_upd; assumption|].
      apply (sharpen_zero _ _ _ _ Er Havg).
  - rewrite (update_node_divergent deci_num connection_lists deci_domi subsizes
               deci_dist_t net_size H1 H2 H3 H4 H5 deci_dist i neighbors
               Hlen Hnb Hb) in H.
    inversion H. split; [rewrite upd_length; assumption|].
    apply excluded_upd; [assumption|].
    apply nth_normalize_zero. apply clique_sum_zero. assumption.
Qed.

Lemma evolve_excluded (order : list nat) :
  forall deci_dist deci_dist',
    length deci_dist = net_size ->
    excluded k deci_dist ->
    Evolution.evolve deci_num connection_lists deci_domi subsizes deci_dist_t
      order deci_dist = Ok deci_dist' ->
    excluded k deci_dist'.
Proof.
  induction order as [|a rest IH]; intros dd dd' Hlen Hrows H; simpl in H.
  - inversion H. subst. assumption.
  - destruct (Evolution.update_node _ _ _ _ _ dd a) as [dd1| |] eqn:E;
      simpl in H; try discriminate.
    destruct (update_node_excluded dd dd1 a Hlen Hrows E) as [Hlen1 Hrows1].
    apply (IH dd1 dd' Hlen1 Hrows1 H).
Qed.

End ExcludedFacts.

(** One cycle gives no probability to a decision that had none. *)
Lemma cycle_excluded (k net_size deci_num : nat)
    (connection_lists : list (list nat)) (subsizes subsizes' : list nat)
    (deci_dist deci_dist' : matrix) (subgroups : list (list nat)) :
  Topology.well_formed connection_lists net_size ->
  length subsizes = net_size ->
  length deci_dist = net_size ->
  excluded k deci_dist ->
  Evolution.simulation_cycle net_size deci_num connection_lists subsizes
    deci_dist = Ok (deci_dist', subsizes', subgroups) ->
  excluded k deci_dist'.
Proof.
  intros Hwf Hss Hdd Hex H. unfold Evolution.simulation_cycle in H.
  destruct (argmax_rows deci_dist) as [domi| |] eqn:Ea; simpl in H;
    try discriminate.
  destruct (Detector.update_subgroups connection_lists domi net_size)
    as [sgs| |]; simpl in H; try discriminate.
  destruct (Detector.update_subsizes net_size sgs subsizes) as [ss1| |] eqn:Ez;
    simpl in H; try discriminate.
  destruct (Evolution.evolve _ _ _ _ _ _ _) as [dd1| |] eqn:Ee; simpl in H;
    try discriminate.
  inversion H. subst dd1 ss1 sgs.
  apply (evolve_excluded k deci_num connection_lists domi subsizes' deci_dist
           net_size) with (order := seq 0 net_size) (deci_dist := deci_dist);
    try assumption.
  constructor; try assumption.
  - apply (Topology.wf_length Hwf).
  - rewrite (argmax_rows_length _ _ Ea). assumption.
  - rewrite (update_subsizes_length _ _ _ _ Ez). assumption.
  - intros u l Hu v Hv. apply (Topology.wf_range Hwf (u := u)).
    exists l. tauto.
Qed.

(** X10.  A decision that no node gives any probability never gains one:
    under the conditions in which the cycles run and keep distributions, it
    has probability 0 at every node after any number of cycles. *)
Theorem excluded_decision_stays_excluded (cycles net_size deci_num k : nat)
    (connection_lists : list (list nat)) :
  Topology.well_formed connection_lists net_size ->
  (forall u, u < net_size -> nth u connection_lists [] <> []) ->
  2 <= deci_num ->
  forall subsizes deci_dist,
    length subsizes = net_size ->
    length deci_dist = net_size ->
    Forall (distribution deci_num) deci_dist ->
    excluded k deci_dist ->
    exists deci_dist' subsizes',
      Evolution.run_cycles cycles net_size deci_num connection_lists subsizes
        deci_dist = Ok (deci_dist', subsizes') /\
      length deci_dist' = net_size /\
      Forall (distribution deci_num) deci_dist' /\
      excluded k deci_dist'.
Proof.
  intros Hwf Hnb Hnum.
  induction cycles as [|cycles IH]; intros ss dd Hss Hdd Hrows Hex.
  - exists dd, ss. auto.
  - cbn [Evolution.run_cycles].
    destruct (cycle_preserves_distributions net_size deci_num connection_lists
                ss dd Hwf Hnb Hnum Hss Hdd Hrows)
      as (dd1 & ss1 & sgs & E & Hl & Hr & Hs & _).
    rewrite E. cbn [bind]. apply IH; try assumption.
    apply (cycle_excluded k net_size deci_num connection_lists ss ss1 dd dd1 sgs);
      assumption.
Qed.

Lemma excluded_decision_stays_excluded_witness :
  exists deci_dist' subsizes',
    Evolution.run_cycles 3 2 3 two_nodes [0; 0]
      [[(1 / 4)%R; (3 / 4)%R; 0%R]; [(1 / 2)%R; (1 / 2)%R; 0%R]]
      = Ok (deci_dist', subsizes') /\
    length deci_dist' = 2 /\
    Forall (distribution 3) deci_dist' /\
    excluded 2 deci_dist'.
Proof.
  apply (excluded_decision_stays_excluded 3 2 3 2 two_nodes
           two_nodes_well_formed).
  - intros u Hu. destruct u as [|[|u]]; simpl; [discriminate | discriminate | lia].
  - lia.
  - reflexivity.
  - reflexivity.
  - unfold distribution, np_sum. repeat constructor; simpl; lra.
  - unfold excluded. repeat constructor.
Defined.

(** ** Consensus *)

Section ConsensusFacts.

Local Open Scope R_scope.

Lemma np_sum_single (r : row) :
  forall k, (forall j, j <> k -> nth j r 0 = 0) -> np_sum r = nth k r 0.
Proof.
  induction r as [|x r IH]; intros k H.
  - destruct k; reflexivity.
  - change (np_sum (x :: r)) with (x + np_sum r). destruct k as [|k].
    + rewrite (IH (length r)).
      * rewrite nth_overflow by lia. simpl. lra.
      * intros j Hj. destruct (Nat.lt_ge_cases j (length r)) as [Hlt|Hge].
        -- apply (H (S j)). lia.
        -- apply nth_overflow. assumption.
    + rewrite (IH k).
      * specialize (H 0%nat). simpl in H. rewrite H by lia. simpl. lra.
      * intros j Hj. apply (H (S j)). lia.
Qed.

Lemma nth_one_hot (deci_num k j : nat) :
  (k < deci_num)%nat ->
  nth j (one_hot deci_num k) 0 = if (j =? k)%nat then 1 else 0.
Proof.
  intro Hk. unfold one_hot. destruct (Nat.eqb_spec j k) as [->|Hne].
  - apply nth_upd_same. rewrite repeat_length. assumption.
  - rewrite nth_upd_other by congruence.
    destruct (Nat.lt_ge_cases j deci_num) as [Hlt|Hge].
    + apply nth_repeat.
    + apply nth_overflow. rewrite repeat_length. assumption.
Qed.

Lemma one_hot_distribution (deci_num k : nat) :
  (k < deci_num)%nat -> distribution deci_num (one_hot deci_num k).
Proof.
  intro Hk. split; [|split].
  - unfold one_hot. rewrite upd_length. apply repeat_length.
  - apply Forall_forall. intros x Hx. apply (In_nth _ _ 0) in Hx.
    destruct Hx as (j & _ & <-). rewrite nth_one_hot by assumption.
    destruct (j =? k)%nat; lra.
  - rewrite (np_sum_single _ k).
    + rewrite nth_one_hot by assumption. rewrite Nat.eqb_refl. reflexivity.
    + intros j Hj. rewrite nth_one_hot by assumption.
      destruct (Nat.eqb_spec j k); [contradiction | reflexivity].
Qed.

(** A distribution that excludes every decision but [k] is [one_hot k]. *)
Lemma one_hot_unique (deci_num k : nat) (r : row) :
  (k < deci_num)%nat ->
  distribution deci_num r ->
  (forall j, j <> k -> nth j r 0 = 0) ->
  r = one_hot deci_num k.
Proof.
  intros Hk (Hlen & _ & Hsum) Hzero.
  apply (nth_ext _ _ 0 0).
  - unfold one_hot. rewrite upd_length, repeat_length. assumption.
  - intros j _. rewrite nth_one_hot by assumption.
    destruct (Nat.eqb_spec j k) as [->|Hne].
    + rewrite <- (np_sum_single r k Hzero). assumption.
    + apply Hzero. assumption.
Qed.

End ConsensusFacts.

(** X11.  Consensus is kept: when every node gives probability 1 to the same
    decision, any number of cycles leaves every distribution as it is. *)
Theorem consensus_is_kept (cycles net_size deci_num k : nat)
    (connection_lists : list (list nat)) :
  Topology.well_formed connection_lists net_size ->
  (forall u, u < net_size -> nth u connection_lists [] <> []) ->
  2 <= deci_num ->
  k < deci_num ->
  forall subsizes,
    length subsizes = net_size ->
    exists subsizes',
      Evolution.run_cycles cycles net_size deci_num connection_lists subsizes
        (repeat (one_hot deci_num k) net_size)
      = Ok (repeat (one_hot deci_num k) net_size, subsizes').
Proof.
  intros Hwf Hnb Hnum Hk.
  set (dd := repeat (one_hot deci_num k) net_size).
  assert (Hdd : length dd = net_size) by apply repeat_length.
  assert (Hrows : Forall (distribution deci_num) dd).
  { apply Forall_forall. intros r Hr. apply repeat_spec in Hr. subst r.
    apply one_hot_distribution. assumption. }
  assert (Hex : forall j, j <> k -> excluded j dd).
  { intros j Hj. apply Forall_forall. intros r Hr. apply repeat_spec in Hr.
    subst r. rewrite nth_one_hot by assumption.
    destruct (Nat.eqb_spec j k); [contradiction | reflexivity]. }
  induction cycles as [|cycles IH]; intros ss Hss.
  - exists ss. reflexivity.
  - cbn [Evolution.run_cycles].
    destruct (cycle_preserves_distributions net_size deci_num connection_lists
                ss dd Hwf Hnb Hnum Hss Hdd Hrows)
      as (dd1 & ss1 & sgs & E & Hl & Hr & Hs & _).
    rewrite E. cbn [bind].
    assert (Hsame : dd1 = dd).
    { unfold dd. rewrite <- Hl. apply Forall_eq_repeat.
      apply Forall_forall. intros r Hin. symmetry.
      apply one_hot_unique; [assumption| |].
      - rewrite Forall_forall in Hr. apply Hr. assumption.
      - intros j Hj.
        pose proof (cycle_excluded j net_size deci_num connection_lists ss ss1
                      dd dd1 sgs Hwf Hss Hdd (Hex j Hj) E) as Hz.
        unfold excluded in Hz. rewrite Forall_forall in Hz. apply Hz.
        assumption. }
    rewrite Hsame. apply IH. assumption.
Qed.

Lemma consensus_is_kept_witness :
  exists subsizes',
    Evolution.run_cycles 5 2 3 two_nodes [0; 0] (repeat (one_hot 3 1) 2)
    = Ok (repeat (one_hot 3 1) 2, subsizes').
Proof.
  apply (consensus_is_kept 5 2 3 1 two_nodes two_nodes_well_formed).
  - intros u Hu. destruct u as [|[|u]]; simpl; [discriminate | discriminate | lia].
  - lia.
  - lia.
  - reflexivity.
Defined.

(** * Subgroups and dominant decisions *)

Lemma connected_same_decision (connection_lists : list (list nat))
    (deci_domi : list nat) (u v : nat) :
  Topology.connected connection_lists deci_domi u v ->
  nth_error deci_domi u = nth_error deci_domi v.
Proof.
  induction 1 as [|v w _ IH _ (d & Hv & Hw)]; [reflexivity|].
  rewrite IH, Hv, Hw. reflexivity.
Qed.

(** X12.  The subgroups follow the dominant decisions: the nodes of a
    subgroup all have the same dominant decision, and two connected nodes
    with the same dominant decision are in the same subgroup. *)
Theorem subgroups_follow_decisions (connection_lists : list (list nat))
    (deci_domi : list nat) (net_size : nat) :
  Topology.well_formed connection_lists net_size ->
  length deci_domi = net_size ->
  exists subgroups,
    Detector.update_subgroups connection_lists deci_domi net_size
      = Ok subgroups /\
    (forall sub u v, In sub subgroups -> In u sub -> In v sub ->
       nth_error deci_domi u = nth_error deci_domi v) /\
    (forall u v,
       Topology.adjacent connection_lists u v ->
       nth_error deci_domi u = nth_error deci_domi v ->
       exists sub, In sub subgroups /\ In u sub /\ In v sub).
Proof.
  intros Hwf Hdomi.
  destruct (detector_total connection_lists deci_domi net_size Hwf Hdomi)
    as (sgs & E & Hperm & Hcomp & _).
  exists sgs. split; [exact E|]. rewrite Forall_forall in Hcomp. split.
  - intros sub u v Hsub Hu Hv.
    pose proof (component_of_member connection_lists deci_domi net_size Hwf
                  sub u (Hcomp sub Hsub) Hu v) as Huv.
    apply connected_same_decision with (connection_lists := connection_lists).
    apply Huv. assumption.
  - intros u v Hadj Hsame.
    assert (Hu : u < net_size).
    { destruct Hadj as (l & Hl & _). apply nth_error_length in Hl.
      rewrite (Topology.wf_length Hwf) in Hl. assumption. }
    assert (Hin : In u (concat sgs)).
    { apply (Permutation_in _ (Permutation_sym Hperm)). apply in_seq. lia. }
    apply in_concat in Hin. destruct Hin as (sub & Hsub & Husub).
    exists sub. split; [assumption|]. split; [assumption|].
    apply (component_of_member connection_lists deci_domi net_size Hwf
             sub u (Hcomp sub Hsub) Husub v).
    apply Topology.connected_step with (v := u); [constructor | assumption|].
    destruct (nth_error deci_domi u) as [d|] eqn:Ed.
    + exists d. split; [assumption | symmetry; assumption].
    + apply nth_error_None in Ed. lia.
Qed.

Lemma subgroups_follow_decisions_witness :
  exists subgroups,
    Detector.update_subgroups [[1]; [0; 2]; [1]] [0; 0; 1] 3 = Ok subgroups /\
    (forall sub u v, In sub subgroups -> In u sub -> In v sub ->
       nth_error [0; 0; 1] u = nth_error [0; 0; 1] v) /\
    (forall u v,
       Topology.adjacent [[1]; [0; 2]; [1]] u v ->
       nth_error [0; 0; 1] u = nth_error [0; 0; 1] v ->
       exists sub, In sub subgroups /\ In u sub /\ In v sub).
Proof.
  exact (subgroups_follow_decisions [[1]; [0; 2]; [1]] [0; 0; 1] 3
           path_well_formed eq_refl).
Defined.

(** * A node without neighbors *)

Lemma evolve_isolated (net_size deci_num : nat)
    (connection_lists : list (list nat)) (deci_domi subsizes : list nat)
    (deci_dist_t : matrix) :
  2 <= deci_num ->
  cycle_arrays net_size connection_lists deci_domi subsizes deci_dist_t ->
  Forall (distribution deci_num) deci_dist_t ->
  (forall n, n < net_size -> 1 <= nth n subsizes 0) ->
  forall order deci_dist,
    (forall i, In i order -> i < net_size) ->
    (exists u, In u order /\ nth u connection_lists [] = []) ->
    length deci_dist = net_size ->
    Forall (distribution deci_num) deci_dist ->
    Evolution.evolve deci_num connection_lists deci_domi subsizes deci_dist_t
      order deci_dist = Raise ValueError.
Proof.
  intros Hnum Harr Hsnap Hpos.
  induction order as [|a rest IH]; intros dd Hord (u & Hu & Hiso) Hlen Hrows;
    [contradiction|].
  cbn [Evolution.evolve].
  assert (Ha : a < net_size) by (apply Hord; left; reflexivity).
  destruct (list_eq_dec Nat.eq_dec (nth a connection_lists []) []) as [Ea|Na].
  - destruct (isolated_node_raises deci_num connection_lists deci_domi subsizes
                deci_dist_t dd a) as (_ & _ & E).
    + rewrite <- Ea. apply nth_error_nth'.
      rewrite (arrays_connections Harr). assumption.
    + rewrite (arrays_domi Harr). assumption.
    + rewrite (arrays_snapshot Harr). assumption.
    + lia.
    + rewrite E. reflexivity.
  - destruct (update_node_total deci_num connection_lists deci_domi subsizes
                deci_dist_t net_size Hnum Harr Hsnap Hpos dd a Ha Na Hlen Hrows)
      as (dd1 & E & Hl1 & Hr1).
    rewrite E. cbn [bind]. apply IH; try assumption.
    + intros i Hi. apply Hord. right. assumption.
    + exists u. split; [|assumption].
      destruct Hu as [<-|Hu]; [contradiction | assumption].
Qed.

(** X13.  A node without neighbors stops every cycle: on a well-formed
    topology with distributions in every row, the cycle raises [ValueError]
    as soon as one node has an empty connection list. *)
Theorem isolated_node_stops_the_cycle (net_size deci_num : nat)
    (connection_lists : list (list nat)) (subsizes : list nat)
    (deci_dist : matrix) :
  Topology.well_formed connection_lists net_size ->
  (exists u, u < net_size /\ nth u connection_lists [] = []) ->
  2 <= deci_num ->
  length subsizes = net_size ->
  length deci_dist = net_size ->
  Forall (distribution deci_num) deci_dist ->
  Evolution.simulation_cycle net_size deci_num connection_lists subsizes
    deci_dist = Raise ValueError.
Proof.
  intros Hwf (u & Hu & Hiso) Hnum Hss Hdd Hrows.
  unfold Evolution.simulation_cycle.
  destruct (argmax_rows_ok deci_num deci_dist) as (domi & Ea); [lia|assumption|].
  rewrite Ea. cbn [bind].
  pose proof (argmax_rows_length _ _ Ea) as Hdomi. rewrite Hdd in Hdomi.
  destruct (detector_total connection_lists domi net_size Hwf Hdomi)
    as (sgs & Es & Hperm & _ & Hsizes).
  rewrite Es. cbn [bind].
  destruct (Hsizes subsizes Hss) as (ss' & Ez & Hss' & Hval).
  rewrite Ez. cbn [bind].
  rewrite (evolve_isolated net_size deci_num connection_lists domi ss' deci_dist);
    try assumption; try reflexivity.
  - constructor; try assumption; [apply (Topology.wf_length Hwf)|].
    intros v l Hv w Hw. apply (Topology.wf_range Hwf (u := v)).
    exists l. tauto.
  - intros n Hn.
    assert (Hin : In n (concat sgs)).
    { apply (Permutation_in _ (Permutation_sym Hperm)). apply in_seq. lia. }
    apply in_concat in Hin. destruct Hin as (sub & Hsub & Hnsub).
    rewrite (nth_error_nth _ _ _ (Hval sub n Hsub Hnsub)).
    destruct sub; [contradiction | simpl; lia].
  - intros i Hi. apply in_seq in Hi. lia.
  - exists u. split; [apply in_seq; lia | assumption].
Qed.

Lemma three_nodes_well_formed : Topology.well_formed [[]; [2]; [1]] 3.
Proof.
  constructor.
  - reflexivity.
  - intros u v (l & El & Hl).
    destruct u as [|[|[|u]]]; simpl in El;
      try (destruct u; discriminate);
      inversion El; subst l; simpl in Hl; lia.
  - intros u (l & El & Hl).
    destruct u as [|[|[|u]]]; simpl in El;
      try (destruct u; discriminate);
      inversion El; subst l; simpl in Hl; lia.
  - intros u l El.
    destruct u as [|[|[|u]]]; simpl in El;
      try (destruct u; discriminate);
      inversion El; subst l;
      repeat (constructor; [simpl; lia|]); constructor.
  - intros u v (l & El & Hl).
    destruct u as [|[|[|u]]]; simpl in El;
      try (destruct u; discriminate);
      inversion El; subst l; simpl in Hl;
      repeat (destruct Hl as [<-|Hl]); try contradiction;
      eexists; (split; [reflexivity | simpl; tauto]).
Qed.

Lemma isolated_node_stops_the_cycle_witness :
  Evolution.simulation_cycle 3 2 [[]; [2]; [1]] [0; 0; 0]
    [[(1 / 2)%R; (1 / 2)%R]; [(1 / 4)%R; (3 / 4)%R]; [1%R; 0%R]]
  = Raise ValueError.
Proof.
  apply (isolated_node_stops_the_cycle 3 2 [[]; [2]; [1]] [0; 0; 0]
           [[(1 / 2)%R; (1 / 2)%R]; [(1 / 4)%R; (3 / 4)%R]; [1%R; 0%R]]
           three_nodes_well_formed).
  - exists 0. split; [lia | reflexivity].
  - lia.
  - reflexivity.
  - reflexivity.
  - unfold distribution, np_sum. repeat constructor; simpl; lra.
Defined.

(** * From the node positions to the cycles *)

(** X14.  The two parts together: on the network built from the node
    positions, the cycles run without an exception and keep every row a
    distribution as long as every node has another node on one of the six
    positions around it. *)
Theorem cycles_run_on_the_network (cycles net_size deci_num : nat)
    (nodes : list Network.position) :
  net_size <= length nodes ->
  (forall i, i < net_size ->
     exists j, j < net_size /\
       In (node_at nodes j) (Network.around (node_at nodes i))) ->
  2 <= deci_num ->
  forall subsizes deci_dist,
    length subsizes = net_size ->
    length deci_dist = net_size ->
    Forall (distribution deci_num) deci_dist ->
    exists connections connection_lists deci_dist' subsizes',
      Network.network nodes net_size = Ok (connections, connection_lists) /\
      Evolution.run_cycles cycles net_size deci_num connection_lists subsizes
        deci_dist = Ok (deci_dist', subsizes') /\
      length deci_dist' = net_size /\
      Forall (distribution deci_num) deci_dist'.
Proof.
  intros Hn Hnb Hnum ss dd Hss Hdd Hrows.
  destruct (network_ok nodes net_size Hn) as (c & E & _ & _).
  set (cl := map (fun i => filter (linked nodes i) (seq 0 net_size))
               (seq 0 net_size)) in *.
  assert (Hwf : Topology.well_formed cl net_size)
    by apply lists_well_formed.
  assert (Hne : forall u, u < net_size -> nth u cl [] <> []).
  { intros u Hu. destruct (Hnb u Hu) as (j & Hj & Hin).
    assert (Hadj : Topology.adjacent cl u j).
    { apply lists_adjacent. split; [assumption|]. split; [assumption|].
      apply is_neighbor_around. assumption. }
    destruct Hadj as (l & Hl & Hjl). rewrite (nth_error_nth _ _ _ Hl).
    intro El. rewrite El in Hjl. contradiction. }
  exists c, cl.
  destruct (run_cycles_total net_size deci_num cl Hwf Hne Hnum cycles ss dd
              Hss Hdd Hrows) as (dd' & ss' & Er & Hl & Hr).
  exists dd', ss'. auto.
Qed.

Lemma cycles_run_on_the_network_witness :
  exists connections connection_lists deci_dist' subsizes',
    Network.network [(0, 0); (1, 0)]%Z 2 = Ok (connections, connection_lists) /\
    Evolution.run_cycles 4 2 2 connection_lists [0; 0] two_rows
      = Ok (deci_dist', subsizes') /\
    length deci_dist' = 2 /\
    Forall (distribution 2) deci_dist'.
Proof.
  apply (cycles_run_on_the_network 4 2 2 [(0, 0); (1, 0)]%Z).
  - simpl. lia.
  - intros i Hi. destruct i as [|[|i]]; [exists 1 | exists 0 | lia];
      (split; [lia | simpl; tauto]).
  - lia.
  - reflexivity.
  - reflexivity.
  - unfold two_rows, distribution, np_sum.
    repeat constructor; simpl; lra.
Defined.

(** * The order of the subgroups *)

Section OrderFacts.

Variable connection_lists : list (list nat).
Variable deci_domi : list nat.

Lemma list_remove_split (x : nat) (l l' : list nat) :
  list_remove x l = Ok l' ->
  exists l1 l2, l = l1 ++ x :: l2 /\ l' = l1 ++ l2.
Proof.
  revert l'. induction l as [|y t IH]; simpl; intros l' H; [discriminate|].
  destruct (Nat.eqb_spec x y) as [->|Hne].
  - inversion H. exists [], l'. split; reflexivity.
  - destruct (list_remove x t) as [t'| |]; simpl in H; try discriminate.
    inversion H. destruct (IH t' eq_refl) as (l1 & l2 & -> & ->).
    exists (y :: l1), l2. split; reflexivity.
Qed.

Lemma sorted_remove (x : nat) (l1 l2 : list nat) :
  StronglySorted lt (l1 ++ x :: l2) -> StronglySorted lt (l1 ++ l2).
Proof.
  induction l1 as [|y l1 IH]; simpl; intro H.
  - inversion H. assumption.
  - inversion H as [|? ? Hs Hall]; subst. constructor; [apply IH; assumption|].
    rewrite Forall_forall in *. intros z Hz. apply Hall.
    apply in_app_or in Hz. apply in_or_app. simpl. tauto.
Qed.

Lemma sorted_snoc (l : list nat) (y : nat) :
  StronglySorted lt l -> (forall x, In x l -> x < y) ->
  StronglySorted lt (l ++ [y]).
Proof.
  induction 1 as [|x l Hs IH Hall]; intro Hy; simpl.
  - constructor; constructor.
  - constructor.
    + apply IH. intros z Hz. apply Hy. right. assumption.
    + rewrite Forall_forall in *. intros z Hz. apply in_app_or in Hz.
      destruct Hz as [Hz|[<-|[]]]; [apply Hall; assumption|].
      apply Hy. left. reflexivity.
Qed.

(** The search of one subgroup only takes nodes out of the pool. *)
Lemma search_members_order (fuel : nat) :
  forall current_domi n_pool p_members p_index subgroup_temp n_pool' subgroup',
    Detector.search_members connection_lists deci_domi fuel current_domi
      n_pool p_members p_index subgroup_temp = Ok (n_pool', subgroup') ->
    StronglySorted lt n_pool ->
    StronglySorted lt n_pool' /\
    incl n_pool' n_pool /\
    exists rest, subgroup' = subgroup_temp ++ rest /\ incl rest n_pool.
Proof.
  induction fuel as [|fuel IH]; intros cur pool pm pi sg pool' sg' H Hs;
    simpl in H; [discriminate|].
  destruct (pi <? length pm).
  - destruct (index pm pi) as [cand| |]; simpl in H; try discriminate.
    destruct (index deci_domi cand) as [d| |]; simpl in H; try discriminate.
    destruct (d =? cur).
    + destruct (list_remove cand pm) as [pm1| |]; simpl in H; try discriminate.
      destruct (list_remove cand pool) as [pool1| |] eqn:Ep; simpl in H;
        try discriminate.
      destruct (index connection_lists cand) as [new| |]; simpl in H;
        try discriminate.
      destruct (list_remove_split _ _ _ Ep) as (l1 & l2 & -> & ->).
      destruct (IH _ _ _ _ _ _ _ H (sorted_remove _ _ _ Hs))
        as (Hs' & Hincl & rest & -> & Hrest).
      assert (Hsub : incl (l1 ++ l2) (l1 ++ cand :: l2)).
      { intros z Hz. apply in_app_or in Hz. apply in_or_app. simpl. tauto. }
      split; [assumption|]. split.
      * intros z Hz. apply Hsub. apply Hincl. assumption.
      * exists (cand :: rest). split; [rewrite <- app_assoc; reflexivity|].
        intros z [<-|Hz].
        -- apply in_or_app. right. left. reflexivity.
        -- apply Hsub. apply Hrest. assumption.
    + apply (IH _ _ _ _ _ _ _ H Hs).
  - inversion H; subst. split; [assumption|]. split; [apply incl_refl|].
    exists []. split; [rewrite app_nil_r; reflexivity | intros z []].
Qed.

(** A subgroup that begins with its smallest node. *)
Definition least_first (sub : list nat) : Prop :=
  exists first rest, sub = first :: rest /\ forall x, In x rest -> first < x.

Lemma search_subgroups_order (fuel : nat) :
  forall n_pool subgroups subgroups',
    Detector.search_subgroups connection_lists deci_domi fuel n_pool subgroups
      = Ok subgroups' ->
    StronglySorted lt n_pool ->
    Forall least_first subgroups ->
    StronglySorted lt (map (hd 0) subgroups) ->
    (forall sub p, In sub subgroups -> In p n_pool -> hd 0 sub < p) ->
    Forall least_first subgroups' /\
    StronglySorted lt (map (hd 0) subgroups').
Proof.
  induction fuel as [|fuel IH]; intros pool sgs sgs' H Hs Hleast Hheads Hlow;
    cbn [Detector.search_subgroups] in H; [discriminate|].
  destruct pool as [|first pool0].
  - inversion H; subst. split; assumption.
  - destruct (index connection_lists first) as [pm| |]; cbn [bind] in H;
      try discriminate.
    destruct (index deci_domi first) as [cur| |]; cbn [bind] in H;
      try discriminate.
    destruct (Detector.search_members _ _ _ _ _ _ _ _) as [[pool1 sg]| |] eqn:Em;
      cbn [bind] in H; try discriminate.
    inversion Hs as [|? ? Hs0 Hall]; subst.
    destruct (search_members_order _ _ _ _ _ _ _ _ Em Hs0)
      as (Hs1 & Hincl & rest & -> & Hrest).
    rewrite Forall_forall in Hall.
    apply (IH _ _ _ H Hs1).
    + apply Forall_app. split; [assumption|]. constructor; [|constructor].
      exists first, rest. split; [reflexivity|].
      intros x Hx. apply Hall. apply Hrest. assumption.
    + rewrite map_app. simpl. apply sorted_snoc; [assumption|].
      intros x Hx. apply in_map_iff in Hx. destruct Hx as (sub & <- & Hsub).
      apply Hlow; [assumption | left; reflexivity].
    + intros sub p Hsub Hp. apply in_app_or in Hsub.
      destruct Hsub as [Hsub|[<-|[]]].
      * apply Hlow; [assumption|]. right. apply Hincl. assumption.
      * simpl. apply Hall. apply Hincl. assumption.
Qed.

End OrderFacts.

(** X15.  The subgroups come in the order of the node indices: every
    subgroup begins with its smallest node, and the subgroups are listed by
    increasing smallest node. *)
Theorem subgroups_in_index_order (connection_lists : list (list nat))
    (deci_domi : list nat) (net_size : nat) :
  Topology.well_formed connection_lists net_size ->
  length deci_domi = net_size ->
  exists subgroups,
    Detector.update_subgroups connection_lists deci_domi net_size
      = Ok subgroups /\
    (forall sub, In sub subgroups ->
       exists first rest, sub = first :: rest /\
                          forall x, In x rest -> first < x) /\
    StronglySorted lt (map (hd 0) subgroups).
Proof.
  intros Hwf Hdomi.
  destruct (detector_total connection_lists deci_domi net_size Hwf Hdomi)
    as (sgs & E & _).
  exists sgs. split; [exact E|].
  unfold Detector.update_subgroups in E.
  destruct (search_subgroups_order connection_lists deci_domi _ _ _ _ E)
    as [Hleast Hheads].
  - clear. generalize 0. induction net_size as [|n IH]; intro s; simpl;
      constructor; [apply IH|].
    apply Forall_forall. intros x Hx. apply in_seq in Hx. lia.
  - constructor.
  - constructor.
  - intros sub p [].
  - split; [|assumption]. rewrite Forall_forall in Hleast. exact Hleast.
Qed.

Lemma subgroups_in_index_order_witness :
  exists subgroups,
    Detector.update_subgroups [[1]; [0; 2]; [1]] [0; 1; 0] 3 = Ok subgroups /\
    (forall sub, In sub subgroups ->
       exists first rest, sub = first :: rest /\
                          forall x, In x rest -> first < x) /\
    StronglySorted lt (map (hd 0) subgroups).
Proof.
  exact (subgroups_in_index_order [[1]; [0; 2]; [1]] [0; 1; 0] 3
           path_well_formed eq_refl).
Defined.

(** * The simulation loop *)


(** X16.  The loop runs the cycles one after the other: whatever the events
    are, its outcome after a number of polls is the outcome of some number
    of cycles run in a row, at most one cycle per poll; it raises what they
    raise, and else it ends with their arrays and with [iter_count] advanced
    by that number. *)
Theorem loop_runs_cycles (net_size deci_num : nat)
    (connection_lists : list (list nat)) (polls : list (list Loop.event))
    (s : Loop.state) :
  exists cycles sim_exit' sim_pause',
    cycles <= length polls /\
    Loop.simulation_loop net_size deci_num connection_lists polls s =
    ('(deci_dist', subsizes') <-
       Evolution.run_cycles cycles net_size deci_num connection_lists
         (Loop.subsizes s) (Loop.deci_dist s) ;;
     Ok {| Loop.sim_exit := sim_exit'; Loop.sim_pause := sim_pause';
           Loop.iter_count := Loop.iter_count s + cycles;
           Loop.deci_dist := deci_dist'; Loop.subsizes := subsizes' |}).
Proof.
  revert s. induction polls as [|events rest IH]; intro s.
  - exists 0, (Loop.sim_exit s), (Loop.sim_pause s). split; [simpl; lia|].
    simpl. rewrite Nat.add_0_r. destruct s; reflexivity.
  - cbn [Loop.simulation_loop]. destruct (Loop.sim_exit s) eqn:Eexit.
    + exists 0, true, (Loop.sim_pause s). split; [simpl; lia|].
      simpl. rewrite Nat.add_0_r. destruct s; simpl in *. subst. reflexivity.
    + unfold Loop.iteration.
      destruct (fold_left Loop.handle_event events
                  (Loop.sim_exit s, Loop.sim_pause s)) as [e1 p1].
      destruct p1.
      * cbn [bind].
        destruct (IH {| Loop.sim_exit := e1; Loop.sim_pause := true;
                        Loop.iter_count := Loop.iter_count s;
                        Loop.deci_dist := Loop.deci_dist s;
                        Loop.subsizes := Loop.subsizes s |})
          as (n & e' & p' & Hn & E).
        exists n, e', p'. split; [simpl; lia|]. exact E.
      * destruct (Evolution.simulation_cycle net_size deci_num connection_lists
                    (Loop.subsizes s) (Loop.deci_dist s))
          as [[[dd1 ss1] sgs]| |] eqn:Ec.
        -- cbn [bind].
           destruct (IH {| Loop.sim_exit := e1; Loop.sim_pause := false;
                           Loop.iter_count := Loop.iter_count s + 1;
                           Loop.deci_dist := dd1; Loop.subsizes := ss1 |})
             as (n & e' & p' & Hn & E).
           exists (S n), e', p'. split; [simpl; lia|].
           cbn [Evolution.run_cycles]. rewrite Ec. cbn [bind]. rewrite E.
           simpl.
           replace (Loop.iter_count s + 1 + n) with (Loop.iter_count s + S n)
             by lia.
           reflexivity.
        -- exists 1, false, false. split; [simpl; lia|].
           cbn [Evolution.run_cycles]. rewrite Ec. reflexivity.
        -- exists 1, false, false. split; [simpl; lia|].
           cbn [Evolution.run_cycles]. rewrite Ec. reflexivity.
Qed.

Lemma handle_events_paused (events : list Loop.event) :
  ~ In (Loop.KEYUP Loop.K_SPACE) events ->
  forall sim_exit,
    exists sim_exit',
      fold_left Loop.handle_event events (sim_exit, true) = (sim_exit', true).
Proof.
  induction events as [|e rest IH]; intros Hno sim_exit; simpl.
  - exists sim_exit. reflexivity.
  - assert (Hrest : ~ In (Loop.KEYUP Loop.K_SPACE) rest)
      by (intro H; apply Hno; right; assumption).
    destruct e as [|[| | |]|]; simpl; try (apply IH; assumption).
    exfalso. apply Hno. left. reflexivity.
Qed.

(** X17.  The simulation starts paused: as long as no SPACE key is released,
    no cycle runs, whatever the other events are; the distributions stay as
    they are and no iteration is counted. *)
Theorem loop_starts_paused (net_size deci_num : nat)
    (connection_lists : list (list nat)) (deci_dist : matrix)
    (polls : list (list Loop.event)) :
  (forall events, In events polls -> ~ In (Loop.KEYUP Loop.K_SPACE) events) ->
  exists sim_exit',
    Loop.simulation_loop net_size deci_num connection_lists polls
      (Loop.initial_state net_size deci_dist)
    = Ok {| Loop.sim_exit := sim_exit'; Loop.sim_pause := true;
            Loop.iter_count := 0;
            Loop.deci_dist := deci_dist;
            Loop.subsizes := repeat 0 net_size |}.
Proof.
  unfold Loop.initial_state. generalize false as sim_exit.
  induction polls as [|events rest IH]; intros sim_exit Hno.
  - exists sim_exit. reflexivity.
  - cbn [Loop.simulation_loop Loop.sim_exit]. destruct sim_exit.
    + exists true. reflexivity.
    + unfold Loop.iteration. cbn [Loop.sim_exit Loop.sim_pause].
      destruct (handle_events_paused events (Hno events (or_introl eq_refl))
                  false) as (e1 & ->).
      cbn [bind Loop.iter_count Loop.deci_dist Loop.subsizes].
      apply IH. intros ev Hev. apply Hno. right. assumption.
Qed.

Lemma loop_starts_paused_witness :
  exists sim_exit',
    Loop.simulation_loop 2 2 two_nodes
      [[Loop.other_event]; [Loop.KEYUP Loop.K_other]; [Loop.QUIT]; []]
      (Loop.initial_state 2 two_rows)
    = Ok {| Loop.sim_exit := sim_exit'; Loop.sim_pause := true;
            Loop.iter_count := 0;
            Loop.deci_dist := two_rows;
            Loop.subsizes := repeat 0 2 |}.
Proof.
  apply (loop_starts_paused 2 2 two_nodes two_rows).
  intros events Hin Hspace.
  repeat (destruct Hin as [<-|Hin];
          [repeat (destruct Hspace as [Hspace|Hspace]; [discriminate|]);
           contradiction|]).
  contradiction.
Defined.

(** * Reading the network file *)

Section FileFacts.

Import NetworkFile.
Local Open Scope string_scope.

Variable int : string -> result Z.

Lemma append_assoc (a b c : string) : (a ++ b) ++ c = a ++ (b ++ c).
Proof. induction a as [|x a IH]; simpl; [reflexivity | rewrite IH; reflexivity]. Qed.

Lemma append_empty (a : string) : a ++ "" = a.
Proof. induction a as [|x a IH]; simpl; [reflexivity | rewrite IH; reflexivity]. Qed.

Lemma length_append (a b : string) :
  String.length (a ++ b) = (String.length a + String.length b)%nat.
Proof. induction a as [|x a IH]; simpl; [reflexivity | rewrite IH; reflexivity]. Qed.

Lemma readline_line (l rest : string) :
  occurs newline l = false ->
  readline (l ++ String newline rest) = (l ++ String newline "", rest).
Proof.
  induction l as [|c l IH]; simpl; intro H.
  - reflexivity.
  - apply orb_false_iff in H. destruct H as [Hc Hl].
    rewrite Hc, (IH Hl). reflexivity.
Qed.

Lemma readline_last (l : string) :
  occurs newline l = false -> readline l = (l, "").
Proof.
  induction l as [|c l IH]; simpl; intro H.
  - reflexivity.
  - apply orb_false_iff in H. destruct H as [Hc Hl].
    rewrite Hc, (IH Hl). reflexivity.
Qed.

Lemma drop_last_snoc (l : string) (c : ascii) :
  drop_last (l ++ String c "") = l.
Proof.
  induction l as [|x l IH]; simpl; [reflexivity|].
  rewrite IH. destruct l; reflexivity.
Qed.

Lemma split_word (sep : ascii) (a : string) :
  occurs sep a = false -> split sep a = [a].
Proof.
  induction a as [|c a IH]; simpl; intro H; [reflexivity|].
  apply orb_false_iff in H. destruct H as [Hc Ha].
  rewrite Hc, (IH Ha). reflexivity.
Qed.

Lemma split_pair (sep : ascii) (a b : string) :
  occurs sep a = false ->
  split sep (a ++ String sep b) = a :: split sep b.
Proof.
  induction a as [|c a IH]; simpl; intro H.
  - rewrite Ascii.eqb_refl. reflexivity.
  - apply orb_false_iff in H. destruct H as [Hc Ha].
    rewrite Hc, (IH Ha). reflexivity.
Qed.

Lemma parse_line_pair (a b : string) (c : ascii) :
  word a -> word b ->
  parse_line int (pair_line (a, b) ++ String c "") =
  (x <- int a ;; y <- int b ;; Ok (x, y)).
Proof.
  intros [Ha _] [Hb _]. unfold parse_line, pair_line. simpl fst. simpl snd.
  rewrite drop_last_snoc. cbn [append].
  rewrite (split_pair _ _ _ Ha), (split_word _ _ Hb).
  reflexivity.
Qed.

Lemma parse_line_single (a : string) (c : ascii) :
  word a ->
  parse_line int (a ++ String c "") = (x <- int a ;; Raise IndexError).
Proof.
  intros [Ha _]. unfold parse_line.
  rewrite drop_last_snoc, (split_word _ _ Ha). reflexivity.
Qed.

Local Abbreviation read_from := (read_from int).

Lemma read_from_line (fuel : nat) (l rest : string)
    (nodes : list Network.position) :
  occurs newline l = false ->
  read_from (S fuel) (l ++ String newline rest) nodes =
  (pos <- parse_line int (l ++ String newline "") ;;
   read_from fuel rest (nodes ++ [pos])%list).
Proof.
  intro Hl. unfold read_from. rewrite (readline_line _ _ Hl).
  cbn [read_lines]. rewrite length_append. simpl String.length.
  replace (String.length l + 1 =? 0)%nat with false
    by (symmetry; apply Nat.eqb_neq; lia).
  reflexivity.
Qed.

Lemma read_from_end (fuel : nat) (nodes : list Network.position) :
  read_from (S fuel) "" nodes = Ok nodes.
Proof. reflexivity. Qed.

Lemma lines_of_cons (l : string) (lines : list string) (tail : string) :
  lines_of (l :: lines) ++ tail = l ++ String newline (lines_of lines ++ tail).
Proof. unfold lines_of. simpl. rewrite append_assoc. reflexivity. Qed.

Lemma pair_line_plain (a b : string) :
  word a -> word b -> occurs newline (pair_line (a, b)) = false.
Proof.
  intros [_ Ha] [_ Hb]. unfold pair_line. simpl fst. simpl snd.
  induction a as [|c a IH]; simpl in *.
  - assumption.
  - apply orb_false_iff in Ha. destruct Ha as [Hc Ha].
    rewrite Hc. apply IH. assumption.
Qed.

Lemma bind_assoc {A B C : Type} (c : result A) (f : A -> result B)
    (g : B -> result C) :
  bind (bind c f) g = bind c (fun x => bind (f x) g).
Proof. destruct c; reflexivity. Qed.

(** Lines of two words are read one after the other. *)
Lemma read_from_pairs (tail : string) :
  forall pairs fuel nodes,
    (forall p, In p pairs -> word (fst p) /\ word (snd p)) ->
    read_from (length pairs + fuel) (lines_of (map pair_line pairs) ++ tail)
      nodes =
    (ps <- convert int pairs ;; read_from fuel tail (nodes ++ ps)%list).
Proof.
  induction pairs as [|[a b] pairs IH]; intros fuel nodes Hw.
  - simpl. rewrite app_nil_r. reflexivity.
  - destruct (Hw (a, b) (or_introl eq_refl)) as [Ha Hb]. simpl in Ha, Hb.
    cbn [map length Nat.add]. rewrite lines_of_cons.
    rewrite read_from_line by (apply pair_line_plain; assumption).
    rewrite parse_line_pair by assumption.
    cbn [convert]. destruct (int a) as [x| |]; cbn [bind]; try reflexivity.
    destruct (int b) as [y| |]; cbn [bind]; try reflexivity.
    rewrite IH by (intros p Hp; apply Hw; right; assumption).
    destruct (convert int pairs) as [ps| |]; cbn [bind]; try reflexivity.
    rewrite <- app_assoc. reflexivity.
Qed.

Lemma lines_of_length (pairs : list (string * string)) (tail : string) :
  (length pairs <= String.length (lines_of (map pair_line pairs) ++ tail))%nat.
Proof.
  induction pairs as [|p pairs IH]; [simpl; lia|].
  cbn [map length]. rewrite lines_of_cons, length_append. simpl String.length.
  lia.
Qed.

Lemma occurs_snoc (c x : ascii) (l : string) :
  occurs c l = false -> Ascii.eqb x c = false ->
  occurs c (l ++ String x "") = false.
Proof.
  intros Hl Hx. induction l as [|y l IH]; simpl in *.
  - rewrite Hx. reflexivity.
  - apply orb_false_iff in Hl. destruct Hl as [Hy Hl].
    rewrite Hy. apply IH. assumption.
Qed.

(** The last line, read with or without its newline. *)
Lemma read_from_last (fuel : nat) (last : string) (c : ascii)
    (nodes : list Network.position) :
  occurs newline last = false ->
  Ascii.eqb c newline = false ->
  read_from fuel (last ++ String c "") nodes =
  read_from fuel (last ++ String newline "") nodes.
Proof.
  intros Hl Hc. destruct fuel as [|fuel].
  - unfold NetworkFile.read_from.
    destruct (readline (last ++ String c "")),
             (readline (last ++ String newline "")). reflexivity.
  - rewrite (read_from_line fuel last "" nodes Hl).
    unfold NetworkFile.read_from at 1.
    rewrite (readline_last _ (occurs_snoc _ _ _ Hl Hc)).
    cbn [read_lines]. rewrite length_append. simpl String.length.
    replace (String.length last + 1 =? 0)%nat with false
      by (symmetry; apply Nat.eqb_neq; lia).
    cbn [negb].
    unfold parse_line. rewrite !drop_last_snoc. reflexivity.
Qed.

Lemma read_from_lines (tail1 tail2 : string) :
  (forall fuel nodes, read_from fuel tail1 nodes = read_from fuel tail2 nodes) ->
  forall lines fuel nodes,
    (forall l, In l lines -> occurs newline l = false) ->
    read_from fuel (lines_of lines ++ tail1) nodes =
    read_from fuel (lines_of lines ++ tail2) nodes.
Proof.
  intro Htail. induction lines as [|l lines IH]; intros fuel nodes Hl.
  - apply Htail.
  - rewrite !lines_of_cons. destruct fuel as [|fuel].
    + unfold NetworkFile.read_from.
      destruct (readline _), (readline _). reflexivity.
    + rewrite !read_from_line by (apply Hl; left; reflexivity).
      destruct (parse_line int (l ++ String newline "")); cbn [bind];
        try reflexivity.
      apply IH. intros l' Hl'. apply Hl. right. assumption.
Qed.

Lemma readline_length (content : string) :
  let '(new_line, f) := readline content in
  (String.length new_line + String.length f = String.length content)%nat /\
  (new_line = "" -> content = "").
Proof.
  induction content as [|c content IH]; simpl.
  - split; reflexivity.
  - destruct (Ascii.eqb c newline).
    + simpl. split; [reflexivity | discriminate].
    + destruct (readline content) as [line rest]. simpl.
      destruct IH as [IH _]. split; [lia | discriminate].
Qed.

(** The fuel of [read_nodes] is enough for every file: the reading ends
    with the nodes or with an exception. *)
Lemma read_from_ends (fuel : nat) :
  (forall s, int s <> OutOfFuel) ->
  forall content nodes,
    (String.length content < fuel)%nat ->
    read_from fuel content nodes <> OutOfFuel.
Proof.
  intro Hint. induction fuel as [|fuel IH]; intros content nodes Hlen; [lia|].
  unfold NetworkFile.read_from.
  pose proof (readline_length content) as Hr.
  destruct (readline content) as [new_line f]. destruct Hr as [Hsum _].
  cbn [read_lines].
  destruct new_line as [|c new_line]; [discriminate|].
  cbn [String.length Nat.eqb negb].
  destruct (parse_line int (String c new_line)) as [pos| |] eqn:Ep;
    cbn [bind]; try discriminate.
  - apply (IH f). simpl in Hsum. lia.
  - unfold parse_line, index in Ep.
    destruct (nth_error _ 0) as [s0|]; cbn [bind] in Ep; try discriminate.
    destruct (int s0) as [x| |] eqn:E0; cbn [bind] in Ep; try discriminate;
      [|apply Hint in E0; contradiction].
    destruct (nth_error _ 1) as [s1|]; cbn [bind] in Ep; try discriminate.
    destruct (int s1) as [y| |] eqn:E1; cbn [bind] in Ep; try discriminate.
    apply Hint in E1. contradiction.
Qed.

End FileFacts.

Lemma read_nodes_ends (int : string -> result Z) (content : string) :
  (forall s, int s <> OutOfFuel) ->
  NetworkFile.read_nodes int content <> OutOfFuel.
Proof.
  intro Hint. unfold NetworkFile.read_nodes.
  apply read_from_ends; [assumption | lia].
Qed.

(** X18.  A file of lines of two words, each line ended by a newline, is
    read line by line: the nodes are [int] of the two words of every line,
    in the order of the file, and the first exception of [int] is the
    exception of the reading. *)
Theorem read_nodes_converts_words (int : string -> result Z)
    (pairs : list (string * string)) :
  (forall p, In p pairs ->
     NetworkFile.word (fst p) /\ NetworkFile.word (snd p)) ->
  NetworkFile.read_nodes int
    (NetworkFile.lines_of (map NetworkFile.pair_line pairs))
  = NetworkFile.convert int pairs.
Proof.
  intro Hw. unfold NetworkFile.read_nodes.
  pose proof (lines_of_length pairs EmptyString) as Hlen.
  rewrite <- (append_empty
                (NetworkFile.lines_of (map NetworkFile.pair_line pairs))).
  set (content := (NetworkFile.lines_of (map NetworkFile.pair_line pairs)
                   ++ "")%string) in *.
  replace (S (String.length content))
    with (length pairs + S (String.length content - length pairs)) by lia.
  unfold content. rewrite (read_from_pairs int "" pairs _ [] Hw).
  destruct (NetworkFile.convert int pairs); reflexivity.
Qed.

Lemma read_nodes_converts_words_witness :
  NetworkFile.read_nodes NetworkFile.numeral
    (NetworkFile.lines_of
       (map NetworkFile.pair_line [("0", "0"); ("1", "0"); ("0", "12")]%string))
  = NetworkFile.convert NetworkFile.numeral
      [("0", "0"); ("1", "0"); ("0", "12")]%string.
Proof.
  apply (read_nodes_converts_words NetworkFile.numeral
           [("0", "0"); ("1", "0"); ("0", "12")]%string).
  intros p Hp.
  repeat (destruct Hp as [<-|Hp]; [split; split; reflexivity|]).
  contradiction.
Defined.

Example read_three_nodes :
  NetworkFile.read_nodes NetworkFile.numeral
    (String.append "0 0" (String NetworkFile.newline
       (String.append "1 0" (String NetworkFile.newline
          (String.append "0 12" (String NetworkFile.newline ""))))))
  = Ok [(0, 0); (1, 0); (0, 12)]%Z.
Proof. reflexivity. Qed.

(** X19.  A line without a space stops the reading: [int] is applied to the
    whole line, and if that raises nothing, the missing second piece raises
    [IndexError]. An empty line is such a line. *)
Theorem line_without_space_raises (int : string -> result Z)
    (pairs : list (string * string)) (a rest : string) :
  (forall p, In p pairs ->
     NetworkFile.word (fst p) /\ NetworkFile.word (snd p)) ->
  NetworkFile.word a ->
  NetworkFile.read_nodes int
    (String.append (NetworkFile.lines_of (map NetworkFile.pair_line pairs))
       (String.append a (String NetworkFile.newline rest)))
  = (ps <- NetworkFile.convert int pairs ;; x <- int a ;; Raise IndexError).
Proof.
  intros Hw Ha. unfold NetworkFile.read_nodes.
  set (tail := String.append a (String NetworkFile.newline rest)).
  pose proof (lines_of_length pairs tail) as Hlen.
  set (content := String.append _ tail) in *.
  replace (S (String.length content))
    with (length pairs + S (String.length content - length pairs)) by lia.
  unfold content. rewrite (read_from_pairs int tail pairs _ [] Hw).
  destruct (NetworkFile.convert int pairs) as [ps| |]; cbn [bind];
    try reflexivity.
  unfold tail. rewrite read_from_line by apply Ha.
  rewrite parse_line_single by assumption.
  destruct (int a); reflexivity.
Qed.

Lemma line_without_space_raises_witness :
  NetworkFile.read_nodes NetworkFile.numeral
    (String.append
       (NetworkFile.lines_of (map NetworkFile.pair_line [("0", "0")]%string))
       (String.append "7" (String NetworkFile.newline "1 1")))
  = (ps <- NetworkFile.convert NetworkFile.numeral [("0", "0")]%string ;;
     x <- NetworkFile.numeral "7" ;; Raise IndexError).
Proof.
  apply (line_without_space_raises NetworkFile.numeral [("0", "0")]%string
           "7" "1 1").
  - intros p Hp.
    repeat (destruct Hp as [<-|Hp]; [split; split; reflexivity|]).
    contradiction.
  - split; reflexivity.
Defined.

(** X20.  Without a newline at the end of the file, the last character of
    the file is lost: the file is read as if that character were the newline
    that ends the last line. *)
Theorem missing_final_newline_drops_a_character (int : string -> result Z)
    (lines : list string) (last : string) (c : ascii) :
  (forall l, In l lines -> NetworkFile.occurs NetworkFile.newline l = false) ->
  NetworkFile.occurs NetworkFile.newline last = false ->
  c <> NetworkFile.newline ->
  NetworkFile.read_nodes int
    (String.append (NetworkFile.lines_of lines)
       (String.append last (String c "")))
  = NetworkFile.read_nodes int
      (String.append (NetworkFile.lines_of lines)
         (String.append last (String NetworkFile.newline ""))).
Proof.
  intros Hl Hlast Hc. unfold NetworkFile.read_nodes.
  rewrite !length_append. simpl String.length.
  apply read_from_lines; [|assumption].
  intros fuel nodes. apply read_from_last; [assumption|].
  apply Ascii.eqb_neq. assumption.
Qed.

Lemma missing_final_newline_drops_a_character_witness :
  NetworkFile.read_nodes NetworkFile.numeral
    (String.append (NetworkFile.lines_of ["0 0"; "1 0"]%string)
       (String.append "0 1" (String "2"%char "")))
  = NetworkFile.read_nodes NetworkFile.numeral
      (String.append (NetworkFile.lines_of ["0 0"; "1 0"]%string)
         (String.append "0 1" (String NetworkFile.newline ""))).
Proof.
  apply (missing_final_newline_drops_a_character NetworkFile.numeral
           ["0 0"; "1 0"]%string "0 1" "2"%char).
  - intros l Hl.
    repeat (destruct Hl as [<-|Hl]; [reflexivity|]). contradiction.
  - reflexivity.
  - discriminate.
Defined.

(** The file of three nodes whose last line is [0 12] without a newline:
    the third node is read as (0, 1). *)
Example read_without_final_newline :
  NetworkFile.read_nodes NetworkFile.numeral
    (String.append "0 0" (String NetworkFile.newline
       (String.append "1 0" (String NetworkFile.newline "0 12"))))
  = Ok [(0, 0); (1, 0); (0, 1)]%Z.
Proof. reflexivity. Qed.

(** * The frame on the screen *)

Section PairFacts.

Lemma in_index_pairs (len : nat) (test : nat -> nat -> bool) (a b : nat) :
  In (a, b) (index_pairs len test) <-> a < b < len /\ test a b = true.
Proof.
  unfold index_pairs, py_range. rewrite in_flat_map. split.
  - intros (x & Hx & Hin). apply in_map_iff in Hin.
    destruct Hin as (y & E & Hy). inversion E; subst.
    apply filter_In in Hy. rewrite in_seq in Hx, Hy. split; [lia | tauto].
  - intros [Hab Ht]. exists a. split; [apply in_seq; lia|].
    apply in_map. apply filter_In. split; [apply in_seq; lia | assumption].
Qed.

Lemma nodup_pairs (g : nat -> list nat) (l : list nat) :
  NoDup l -> (forall a, NoDup (g a)) ->
  NoDup (flat_map (fun a => map (pair a) (g a)) l).
Proof.
  intros Hl Hg. induction Hl as [|a l Ha Hl IH]; simpl; [constructor|].
  apply NoDup_app.
  - apply NoDup_map_NoDup_ForallPairs; [|apply Hg].
    intros x y _ _ E. inversion E. reflexivity.
  - assumption.
  - intros [x y] Hin Hin'. apply in_map_iff in Hin.
    destruct Hin as (z & E & _). inversion E; subst.
    apply in_flat_map in Hin'. destruct Hin' as (a' & Ha' & Hin').
    apply in_map_iff in Hin'. destruct Hin' as (z' & E' & _).
    inversion E'; subst. contradiction.
Qed.

Lemma nodup_index_pairs (len : nat) (test : nat -> nat -> bool) :
  NoDup (index_pairs len test).
Proof.
  unfold index_pairs, py_range. apply nodup_pairs; [apply seq_NoDup|].
  intro a. apply NoDup_filter. apply seq_NoDup.
Qed.

Lemma for_each_emit {A C : Type} (emit : A -> list C)
    (body : list C -> A -> result (list C)) :
  forall l s,
    (forall x s', In x l -> body s' x = Ok (s' ++ emit x)) ->
    for_each l body s = Ok (s ++ flat_map emit l).
Proof.
  induction l as [|x l IH]; intros s H; simpl.
  - rewrite app_nil_r. reflexivity.
  - rewrite H by (left; reflexivity). cbn [bind].
    rewrite IH by (intros y s' Hy; apply H; right; assumption).
    rewrite app_assoc. reflexivity.
Qed.

Lemma flat_map_test {A C : Type} (test : A -> bool) (f : A -> C) (l : list A) :
  flat_map (fun x => if test x then [f x] else []) l = map f (filter test l).
Proof.
  induction l as [|x l IH]; simpl; [reflexivity|].
  rewrite IH. destruct (test x); reflexivity.
Qed.

Lemma map_flat_map {A B C : Type} (f : B -> C) (g : A -> list B) (l : list A) :
  flat_map (fun x => map f (g x)) l = map f (flat_map g l).
Proof.
  induction l as [|x l IH]; simpl; [reflexivity|].
  rewrite IH, map_app. reflexivity.
Qed.

(** Two nested loops that emit one item for every pair that passes the
    test. *)
Lemma nested_loops {C : Type} (len : nat) (test : nat -> nat -> bool)
    (item : nat * nat -> C) (body : list C -> nat -> nat -> result (list C)) :
  (forall a b s, a < b < len ->
     body s a b = Ok (s ++ (if test a b then [item (a, b)] else []))) ->
  forall s,
    for_each (py_range 0 len)
      (fun s a => for_each (py_range (a + 1) len) (fun s b => body s a b) s) s
    = Ok (s ++ map item (index_pairs len test)).
Proof.
  intros Hbody s.
  rewrite (for_each_emit
             (fun a => map item (map (pair a)
                                   (filter (test a) (py_range (a + 1) len))))).
  - unfold index_pairs. rewrite map_flat_map. reflexivity.
  - intros a s' Ha. unfold py_range in Ha. apply in_seq in Ha.
    rewrite (for_each_emit
               (fun b => if test a b then [item (a, b)] else [])).
    + rewrite flat_map_test, map_map. reflexivity.
    + intros b s'' Hb. unfold py_range in Hb. apply in_seq in Hb.
      apply Hbody. lia.
Qed.

End PairFacts.

Section DisplayFacts.

Variable connections : list (list Z).
Variable nodes_disp : list Display.point.
Variable net_size : nat.

Hypothesis Hsq : square net_size connections.
Hypothesis Hdisp : net_size <= length nodes_disp.

Local Abbreviation wired := (wired connections).
Local Abbreviation subgroup_pairs := (subgroup_pairs connections).

Local Abbreviation segment := (Display.segment nodes_disp).

Lemma draw_if_connected_ok (c : Display.color) (w : Z)
    (s : list Display.command) (i j : nat) :
  i < net_size -> j < net_size ->
  Display.draw_if_connected connections nodes_disp c w s i j =
  Ok (s ++ (if wired i j then [segment c w (i, j)] else [])).
Proof.
  intros Hi Hj. destruct Hsq as [Hlen Hrows].
  unfold Display.draw_if_connected.
  rewrite (index_nth connections i []) by lia. cbn [bind].
  rewrite (index_nth (nth i connections []) j 0%Z)
    by (rewrite (square_row net_size connections i (conj Hlen Hrows) Hi);
        assumption).
  cbn [bind]. fold (entry connections i j). fold (wired i j).
  destruct (wired i j).
  - unfold Display.draw_line.
    rewrite (index_nth nodes_disp i (0, 0)%Z) by lia. cbn [bind].
    rewrite (index_nth nodes_disp j (0, 0)%Z) by lia. reflexivity.
  - rewrite app_nil_r. reflexivity.
Qed.

Lemma draw_connections_ok (s : list Display.command) :
  Display.draw_connections connections nodes_disp net_size s =
  Ok (s ++ map (segment Display.connection_color 2) (index_pairs net_size wired)).
Proof.
  unfold Display.draw_connections.
  apply (nested_loops net_size wired (segment Display.connection_color 2)
           (fun s i j =>
              Display.draw_if_connected connections nodes_disp
                Display.connection_color 2 s i j)).
  intros a b s' Hab. apply draw_if_connected_ok; lia.
Qed.

Lemma draw_subgroup_ok (s : list Display.command) (sub : list nat) :
  (forall x, In x sub -> x < net_size) ->
  Display.draw_subgroup connections nodes_disp s sub =
  Ok (s ++ map (segment Display.subgroup_color 3) (subgroup_pairs sub)).
Proof.
  intro Hsub. unfold Display.draw_subgroup, subgroup_pairs.
  rewrite map_map.
  apply (nested_loops (length sub)
           (fun a b => wired (nth a sub 0) (nth b sub 0))
           (fun p => segment Display.subgroup_color 3
                       (nth (fst p) sub 0, nth (snd p) sub 0))
           (fun s i j =>
              i_node <- index sub i ;;
              j_node <- index sub j ;;
              Display.draw_if_connected connections nodes_disp
                Display.subgroup_color 3 s i_node j_node)).
  intros a b s' Hab.
  rewrite (index_nth sub a 0) by lia. cbn [bind].
  rewrite (index_nth sub b 0) by lia. cbn [bind].
  apply draw_if_connected_ok; apply Hsub; apply nth_In; simpl; lia.
Qed.

Lemma draw_subgroups_ok (subgroups : list (list nat))
    (s : list Display.command) :
  (forall sub x, In sub subgroups -> In x sub -> x < net_size) ->
  for_each subgroups (Display.draw_subgroup connections nodes_disp) s =
  Ok (s ++ map (segment Display.subgroup_color 3)
             (flat_map subgroup_pairs subgroups)).
Proof.
  intro Hsub.
  rewrite (for_each_emit
             (fun sub => map (segment Display.subgroup_color 3)
                           (subgroup_pairs sub))).
  - rewrite map_flat_map. reflexivity.
  - intros sub s' Hin. apply draw_subgroup_ok. intros x Hx.
    apply (Hsub sub); assumption.
Qed.

Lemma draw_nodes_ok (s : list Display.command) :
  Display.draw_nodes nodes_disp net_size s =
  Ok (s ++ map (Display.dot nodes_disp) (seq 0 net_size)).
Proof.
  unfold Display.draw_nodes.
  rewrite (for_each_emit (fun i => [Display.dot nodes_disp i])).
  - f_equal. f_equal. unfold py_range. rewrite Nat.sub_0_r.
    induction (seq 0 net_size) as [|i l IH]; simpl; [reflexivity|].
    rewrite IH. reflexivity.
  - intros i s' Hi. unfold py_range in Hi. apply in_seq in Hi.
    rewrite (index_nth nodes_disp i (0, 0)%Z) by lia. reflexivity.
Qed.

Lemma draw_frame_ok (subgroups : list (list nat)) :
  (forall sub x, In sub subgroups -> In x sub -> x < net_size) ->
  Display.draw_frame connections nodes_disp net_size subgroups =
  Ok ([Display.fill Display.background_color]
      ++ map (segment Display.connection_color 2) (index_pairs net_size wired)
      ++ map (segment Display.subgroup_color 3)
           (flat_map subgroup_pairs subgroups)
      ++ map (Display.dot nodes_disp) (seq 0 net_size)
      ++ [Display.update]).
Proof.
  intro Hsub. unfold Display.draw_frame.
  rewrite draw_connections_ok. cbn [bind].
  rewrite (draw_subgroups_ok subgroups _ Hsub). cbn [bind].
  rewrite draw_nodes_ok. cbn [bind].
  rewrite <- !app_assoc. reflexivity.
Qed.

End DisplayFacts.

Lemma in_subgroup_pairs (connections : list (list Z)) (sub : list nat)
    (u v : nat) :
  In (u, v) (subgroup_pairs connections sub) <->
  exists a b, a < b < length sub /\ nth a sub 0 = u /\ nth b sub 0 = v /\
              wired connections u v = true.
Proof.
  unfold subgroup_pairs. rewrite in_map_iff. split.
  - intros ([a b] & E & Hin). simpl in E. inversion E; subst.
    apply in_index_pairs in Hin. exists a, b. tauto.
  - intros (a & b & Hab & <- & <- & Hw). exists (a, b).
    split; [reflexivity|]. apply in_index_pairs. tauto.
Qed.

Lemma nodup_subgroup_pairs (connections : list (list Z)) (sub : list nat) :
  NoDup sub -> NoDup (subgroup_pairs connections sub).
Proof.
  intro Hnd. unfold subgroup_pairs.
  apply NoDup_map_NoDup_ForallPairs; [|apply nodup_index_pairs].
  intros [a b] [a' b'] Hin Hin' E. simpl in E. inversion E.
  apply in_index_pairs in Hin, Hin'.
  rewrite (NoDup_nth sub 0) in Hnd.
  f_equal; apply Hnd; lia || assumption.
Qed.

Lemma nodup_concat_member (l : list (list nat)) (s : list nat) :
  NoDup (concat l) -> In s l -> NoDup s.
Proof.
  induction l as [|t l IH]; simpl; intros Hnd Hin; [contradiction|].
  destruct Hin as [->|Hin].
  - apply NoDup_app_remove_r in Hnd. assumption.
  - apply IH; [|assumption]. apply NoDup_app_remove_l in Hnd. assumption.
Qed.

Lemma nodup_concat_unique (l : list (list nat)) (s1 s2 : list nat) (x : nat) :
  NoDup (concat l) -> In s1 l -> In s2 l -> In x s1 -> In x s2 -> s1 = s2.
Proof.
  induction l as [|t l IH]; simpl; intros Hnd H1 H2 Hx1 Hx2; [contradiction|].
  assert (Hdis : forall s, In s l -> In x t -> In x s -> False).
  { intros s Hs Ht Hxs. apply (nodup_app_disjoint t (concat l) x Hnd Ht).
    apply in_concat. exists s. tauto. }
  destruct H1 as [->|H1], H2 as [->|H2].
  - reflexivity.
  - exfalso. apply (Hdis s2); assumption.
  - exfalso. apply (Hdis s1); assumption.
  - apply IH; try assumption. apply NoDup_app_remove_l in Hnd. assumption.
Qed.

Section FrameFacts.

Variable connections : list (list Z).
Variable connection_lists : list (list nat).
Variable deci_domi : list nat.
Variable nodes_disp : list Display.point.
Variable net_size : nat.
Variable subgroups : list (list nat).

Hypothesis Hwf : Topology.well_formed connection_lists net_size.
Hypothesis Hwired :
  forall i j, i < net_size -> j < net_size ->
    (wired connections i j = true <-> Topology.adjacent connection_lists i j).
Hypothesis Hdomi : length deci_domi = net_size.
Hypothesis Hperm : Permutation (concat subgroups) (seq 0 net_size).
Hypothesis Hcomp : Forall (component connection_lists deci_domi) subgroups.

Local Abbreviation adjacent := (Topology.adjacent connection_lists).
Local Abbreviation pairs := (flat_map (subgroup_pairs connections) subgroups).

Lemma subgroups_nodup : NoDup (concat subgroups).
Proof.
  apply (Permutation_NoDup (Permutation_sym Hperm)). apply seq_NoDup.
Qed.

Lemma subgroup_range (sub : list nat) (x : nat) :
  In sub subgroups -> In x sub -> x < net_size.
Proof.
  intros Hsub Hx.
  assert (H : In x (seq 0 net_size)).
  { apply (Permutation_in _ Hperm). apply in_concat. exists sub. tauto. }
  apply in_seq in H. lia.
Qed.

Lemma adjacent_range (u v : nat) : adjacent u v -> u < net_size /\ v < net_size.
Proof.
  intro H. split; [|apply (Topology.wf_range Hwf H)].
  destruct H as (l & Hl & _). apply nth_error_length in Hl.
  rewrite (Topology.wf_length Hwf) in Hl. assumption.
Qed.

Lemma in_pairs (u v : nat) :
  In (u, v) pairs <->
  exists sub a b, In sub subgroups /\ a < b < length sub /\
                  nth a sub 0 = u /\ nth b sub 0 = v /\ adjacent u v.
Proof.
  rewrite in_flat_map. split.
  - intros (sub & Hsub & Hin). apply in_subgroup_pairs in Hin.
    destruct Hin as (a & b & Hab & Ea & Eb & Hw).
    exists sub, a, b. repeat split; try tauto; try lia.
    apply Hwired; [| |assumption]; apply (subgroup_range sub);
      try assumption; subst; apply nth_In; lia.
  - intros (sub & a & b & Hsub & Hab & Ea & Eb & Hadj).
    exists sub. split; [assumption|]. apply in_subgroup_pairs.
    exists a, b. repeat split; try tauto; try lia.
    destruct (adjacent_range u v Hadj). apply Hwired; assumption.
Qed.

Lemma pairs_nodup : NoDup pairs.
Proof.
  pose proof subgroups_nodup as Hnd. clear Hperm Hcomp Hwired.
  induction subgroups as [|sub rest IH]; simpl in *; [constructor|].
  apply NoDup_app.
  - apply nodup_subgroup_pairs. apply NoDup_app_remove_r in Hnd. assumption.
  - apply IH. apply NoDup_app_remove_l in Hnd. assumption.
  - intros [u v] Hin Hin'. apply in_subgroup_pairs in Hin.
    destruct Hin as (a & b & Hab & Ea & _).
    apply in_flat_map in Hin'. destruct Hin' as (sub' & Hsub' & Hin').
    apply in_subgroup_pairs in Hin'. destruct Hin' as (a' & b' & Hab' & Ea' & _).
    apply (nodup_app_disjoint sub (concat rest) u Hnd).
    + subst u. apply nth_In. lia.
    + apply in_concat. exists sub'. split; [assumption|].
      rewrite <- Ea'. apply nth_In. lia.
Qed.

Lemma pairs_one_way (u v : nat) : In (u, v) pairs -> ~ In (v, u) pairs.
Proof.
  intros H H'. apply in_pairs in H, H'.
  destruct H as (sub & a & b & Hsub & Hab & Ea & Eb & _).
  destruct H' as (sub' & a' & b' & Hsub' & Hab' & Ea' & Eb' & _).
  assert (Hu : In u sub) by (subst u; apply nth_In; lia).
  assert (Hu' : In u sub') by (rewrite <- Eb'; apply nth_In; lia).
  pose proof (nodup_concat_unique subgroups sub sub' u subgroups_nodup
                Hsub Hsub' Hu Hu') as E.
  subst sub'.
  pose proof (nodup_concat_member subgroups sub subgroups_nodup Hsub) as Hnd.
  rewrite (NoDup_nth sub 0) in Hnd.
  assert (a = b') by (apply Hnd; try lia; congruence).
  assert (b = a') by (apply Hnd; try lia; congruence).
  lia.
Qed.

Lemma pairs_follow_decisions (u v : nat) :
  In (u, v) pairs \/ In (v, u) pairs <->
  adjacent u v /\ nth_error deci_domi u = nth_error deci_domi v.
Proof.
  rewrite Forall_forall in Hcomp. split.
  - assert (H : forall x y, In (x, y) pairs ->
              adjacent x y /\ nth_error deci_domi x = nth_error deci_domi y).
    { intros x y Hin. apply in_pairs in Hin.
      destruct Hin as (sub & a & b & Hsub & Hab & Ea & Eb & Hadj).
      split; [assumption|].
      apply connected_same_decision with (connection_lists := connection_lists).
      apply (component_of_member connection_lists deci_domi net_size Hwf
               sub x (Hcomp sub Hsub)); subst; apply nth_In; lia. }
    intros [Hin|Hin]; destruct (H _ _ Hin) as [Hadj Hsame].
    + tauto.
    + split; [apply (Topology.wf_sym Hwf); assumption | congruence].
  - intros [Hadj Hsame]. destruct (adjacent_range u v Hadj) as [Hu Hv].
    assert (Hin : In u (concat subgroups)).
    { apply (Permutation_in _ (Permutation_sym Hperm)). apply in_seq. lia. }
    apply in_concat in Hin. destruct Hin as (sub & Hsub & Husub).
    assert (Hvsub : In v sub).
    { apply (component_of_member connection_lists deci_domi net_size Hwf
               sub u (Hcomp sub Hsub) Husub v).
      apply Topology.connected_step with (v := u); [constructor | assumption|].
      destruct (nth_error deci_domi u) as [d|] eqn:Ed.
      - exists d. split; [assumption | symmetry; assumption].
      - apply nth_error_None in Ed. lia. }
    apply (In_nth _ _ 0) in Husub. destruct Husub as (a & Ha & Ea).
    apply (In_nth _ _ 0) in Hvsub. destruct Hvsub as (b & Hb & Eb).
    assert (Hne : a <> b).
    { intro E. subst b. apply (Topology.wf_irrefl Hwf (u := u)). congruence. }
    destruct (Nat.lt_ge_cases a b) as [Hlt|Hge].
    + left. apply in_pairs. exists sub, a, b. repeat split; auto; lia.
    + right. apply in_pairs. exists sub, b, a. repeat split; auto; try lia.
      apply (Topology.wf_sym Hwf). assumption.
Qed.

End FrameFacts.


(** X21.  What a frame shows. On the network built from the node positions
    and for any dominant decisions, the frame is drawn without an exception,
    in this order: the background, one regular line for every connection
    (each pair [i < j] of connected nodes once), the subgroup lines, one dot
    per node, and the update of the display. A subgroup line is drawn, once
    and in one direction only, between two nodes exactly when they are
    connected and have the same dominant decision. *)
Theorem frame_marks_the_subgroups (nodes : list Network.position)
    (net_size : nat) (deci_domi : list nat) (nodes_disp : list Display.point) :
  net_size <= length nodes ->
  length deci_domi = net_size ->
  net_size <= length nodes_disp ->
  exists connections connection_lists subgroups edges marked,
    Network.network nodes net_size = Ok (connections, connection_lists) /\
    Detector.update_subgroups connection_lists deci_domi net_size
      = Ok subgroups /\
    Display.draw_frame connections nodes_disp net_size subgroups =
      Ok ([Display.fill Display.background_color]
          ++ map (Display.segment nodes_disp Display.connection_color 2) edges
          ++ map (Display.segment nodes_disp Display.subgroup_color 3) marked
          ++ map (Display.dot nodes_disp) (seq 0 net_size)
          ++ [Display.update]) /\
    NoDup edges /\
    (forall i j, In (i, j) edges <->
       i < j /\ Topology.adjacent connection_lists i j) /\
    NoDup marked /\
    (forall u v, In (u, v) marked -> ~ In (v, u) marked) /\
    (forall u v, In (u, v) marked \/ In (v, u) marked <->
       Topology.adjacent connection_lists u v /\
       nth_error deci_domi u = nth_error deci_domi v).
Proof.
  intros Hn Hdomi Hdisp.
  destruct (network_ok nodes net_size Hn) as (c & E & Hsq & Hentry).
  set (cl := map (fun i => filter (linked nodes i) (seq 0 net_size))
               (seq 0 net_size)) in *.
  pose proof (lists_well_formed nodes net_size) as Hwf. fold cl in Hwf.
  assert (Hwired : forall i j, i < net_size -> j < net_size ->
            (wired c i j = true <-> Topology.adjacent cl i j)).
  { intros i j Hi Hj. unfold wired. rewrite (Hentry i j Hi Hj).
    unfold cl. rewrite lists_adjacent.
    destruct (linked nodes i j); simpl; split; try tauto; try discriminate. }
  destruct (detector_total cl deci_domi net_size Hwf Hdomi)
    as (sgs & Es & Hperm & Hcomp & _).
  exists c, cl, sgs, (index_pairs net_size (wired c)),
    (flat_map (subgroup_pairs c) sgs).
  split; [exact E|]. split; [exact Es|]. split.
  { apply draw_frame_ok; try assumption.
    intros sub x Hsub Hx.
    assert (H : In x (seq 0 net_size)).
    { apply (Permutation_in _ Hperm). apply in_concat. exists sub. tauto. }
    apply in_seq in H. lia. }
  split; [apply nodup_index_pairs|]. split.
  { intros i j. rewrite in_index_pairs. split.
    - intros [Hij Hw]. split; [lia|]. apply Hwired; [lia | lia | assumption].
    - intros [Hij Hadj]. pose proof (Topology.wf_range Hwf Hadj) as Hj.
      split; [lia|]. apply Hwired; [lia | assumption | assumption]. }
  split; [apply (pairs_nodup c deci_domi net_size sgs Hdomi Hperm)|]. split.
  - apply (pairs_one_way c cl deci_domi net_size sgs Hwf Hwired Hdomi Hperm).
  - apply (pairs_follow_decisions c cl deci_domi net_size sgs Hwf Hwired Hdomi
             Hperm Hcomp).
Qed.

Lemma frame_marks_the_subgroups_witness :
  exists connections connection_lists subgroups edges marked,
    Network.network [(0, 0); (1, 0); (0, 1)]%Z 3
      = Ok (connections, connection_lists) /\
    Detector.update_subgroups connection_lists [0; 0; 1] 3 = Ok subgroups /\
    Display.draw_frame connections [(10, 10); (60, 10); (35, 50)]%Z 3 subgroups =
      Ok ([Display.fill Display.background_color]
          ++ map (Display.segment [(10, 10); (60, 10); (35, 50)]%Z
                    Display.connection_color 2) edges
          ++ map (Display.segment [(10, 10); (60, 10); (35, 50)]%Z
                    Display.subgroup_color 3) marked
          ++ map (Display.dot [(10, 10); (60, 10); (35, 50)]%Z) (seq 0 3)
          ++ [Display.update]) /\
    NoDup edges /\
    (forall i j, In (i, j) edges <->
       i < j /\ Topology.adjacent connection_lists i j) /\
    NoDup marked /\
    (forall u v, In (u, v) marked -> ~ In (v, u) marked) /\
    (forall u v, In (u, v) marked \/ In (v, u) marked <->
       Topology.adjacent connection_lists u v /\
       nth_error [0; 0; 1] u = nth_error [0; 0; 1] v).
Proof.
  apply (frame_marks_the_subgroups [(0, 0); (1, 0); (0, 1)]%Z 3 [0; 0; 1]
           [(10, 10); (60, 10); (35, 50)]%Z).
  - simpl. lia.
  - reflexivity.
  - simpl. lia.
Defined.

(** The frame of three nodes connected to each other, the first two with
    the same dominant decision: three regular lines, one subgroup line. *)
Example frame_of_three_nodes :
  Display.draw_frame [[0; 1; 1]; [1; 0; 1]; [1; 1; 0]]%Z
    [(10, 10); (60, 10); (35, 50)]%Z 3 [[0; 1]; [2]] =
  Ok [Display.fill (0, 0, 0)%Z;
      Display.line (0, 0, 255)%Z (10, 10)%Z (60, 10)%Z 2;
      Display.line (0, 0, 255)%Z (10, 10)%Z (35, 50)%Z 2;
      Display.line (0, 0, 255)%Z (60, 10)%Z (35, 50)%Z 2;
      Display.line (255, 255, 0)%Z (10, 10)%Z (60, 10)%Z 3;
      Display.circle (255, 0, 0)%Z (10, 10)%Z 5 0;
      Display.circle (255, 0, 0)%Z (60, 10)%Z 5 0;
      Display.circle (255, 0, 0)%Z (35, 50)%Z 5 0;
      Display.update].
Proof. reflexivity. Qed.

(** * The two averages *)

Section WeightFacts.

Local Open Scope R_scope.

Lemma vadd_vscale (a b : row) (s : R) :
  vadd (vscale a s) (vscale b s) = vscale (vadd a b) s.
Proof.
  unfold vadd, vscale. revert b. induction a as [|x a IH]; intros [|y b];
    simpl; try reflexivity.
  rewrite IH. f_equal. ring.
Qed.

Lemma clique_sum_ext (w1 w2 : nat -> R) (snapshot : matrix) (i : nat)
    (neighbors : list nat) :
  w1 i = w2 i -> (forall n, In n neighbors -> w1 n = w2 n) ->
  clique_sum w1 snapshot i neighbors = clique_sum w2 snapshot i neighbors.
Proof.
  intros Hi Hn. unfold clique_sum. rewrite Hi.
  generalize (vscale (nth i snapshot []) (w2 i)) as acc.
  induction neighbors as [|n rest IH]; intro acc; simpl; [reflexivity|].
  rewrite (Hn n) by (left; reflexivity).
  apply IH. intros m Hm. apply Hn. right. assumption.
Qed.

Lemma clique_sum_scaled (s : R) (snapshot : matrix) (i : nat)
    (neighbors : list nat) :
  clique_sum (fun _ => s) snapshot i neighbors =
  vscale (clique_sum (fun _ => 1) snapshot i neighbors) s.
Proof.
  unfold clique_sum. rewrite vscale_one.
  generalize (nth i snapshot []) as acc.
  induction neighbors as [|n rest IH]; intro acc; simpl; [reflexivity|].
  rewrite vadd_vscale, vscale_one. apply IH.
Qed.

Lemma normalize_vscale (a : row) (s : R) :
  s <> 0 -> normalize (vscale a s) = normalize a.
Proof.
  intro Hs. unfold normalize. rewrite np_sum_vscale.
  unfold vdiv, vscale. rewrite map_map. apply map_ext. intro x.
  unfold Rdiv. rewrite Rinv_mult. generalize (/ np_sum a). intro c.
  field. assumption.
Qed.

Lemma nth_vadd (a b : row) (d : nat) :
  length a = length b -> nth d (vadd a b) 0 = nth d a 0 + nth d b 0.
Proof.
  unfold vadd. revert b d.
  induction a as [|x a IH]; intros [|y b] d H; simpl in H; try discriminate.
  - destruct d; simpl; lra.
  - destruct d; simpl; [reflexivity|]. apply IH. lia.
Qed.

Lemma np_sum_cons (x : R) (l : row) : np_sum (x :: l) = x + np_sum l.
Proof. reflexivity. Qed.

(** The sum of the rows of the neighbors, entry by entry and in total. *)
Lemma equal_sum_fold (snapshot : matrix) (deci_num : nat) (neighbors : list nat) :
  (forall n, In n neighbors -> length (nth n snapshot []) = deci_num) ->
  forall acc,
    length acc = deci_num ->
    let total :=
      fold_left (fun a n => vadd a (vscale (nth n snapshot []) 1)) neighbors acc in
    length total = deci_num /\
    (forall d, nth d total 0 =
       nth d acc 0 + np_sum (map (fun n => nth d (nth n snapshot []) 0) neighbors)) /\
    np_sum total =
      np_sum acc + np_sum (map (fun n => np_sum (nth n snapshot [])) neighbors).
Proof.
  induction neighbors as [|n rest IH]; intros Hrows acc Hacc; cbn [fold_left map].
  - split; [assumption|]. change (np_sum []) with 0.
    split; [intro d|]; lra.
  - assert (Hn : length (nth n snapshot []) = deci_num)
      by (apply Hrows; left; reflexivity).
    assert (Hl : length acc = length (vscale (nth n snapshot []) 1))
      by (rewrite vscale_length; congruence).
    destruct (IH (fun m Hm => Hrows m (or_intror Hm))
                (vadd acc (vscale (nth n snapshot []) 1)))
      as (H1 & H2 & H3).
    + rewrite vadd_length; assumption.
    + split; [exact H1|]. split.
      * intro d. rewrite H2, np_sum_cons, nth_vadd, vscale_one by assumption.
        lra.
      * rewrite H3, np_sum_cons, np_sum_vadd, vscale_one by assumption. lra.
Qed.

Lemma np_sum_ones (snapshot : matrix) (neighbors : list nat) :
  (forall n, In n neighbors -> np_sum (nth n snapshot []) = 1) ->
  np_sum (map (fun n => np_sum (nth n snapshot [])) neighbors)
  = INR (length neighbors).
Proof.
  induction neighbors as [|n rest IH]; intro H.
  - reflexivity.
  - cbn [map length]. rewrite np_sum_cons, S_INR, IH, (H n).
    + lra.
    + left. reflexivity.
    + intros m Hm. apply H. right. assumption.
Qed.

End WeightFacts.

(** X22.  When the subgroup of the host and the subgroups of all its
    neighbors have the same size, the size cancels in the average that it
    weights: the update of a divergent node gives the host the mean of the
    distributions of the host and of its neighbors, every entry being the
    sum of their entries divided by their number (the value that the
    program approximates within the rounding of its operations). *)
Theorem equal_sizes_give_the_equal_average (net_size deci_num : nat)
    (connection_lists : list (list nat)) (deci_domi subsizes : list nat)
    (deci_dist_t deci_dist : matrix) (i : nat) (neighbors : list nat)
    (size : nat) :
  cycle_arrays net_size connection_lists deci_domi subsizes deci_dist_t ->
  Forall (distribution deci_num) deci_dist_t ->
  length deci_dist = net_size ->
  nth_error connection_lists i = Some neighbors ->
  1 <= size ->
  nth i subsizes 0 = size ->
  (forall n, In n neighbors -> nth n subsizes 0 = size) ->
  exists mean,
    Evolution.weighted_average subsizes deci_dist_t deci_dist i neighbors =
    Ok (upd deci_dist i mean) /\
    length mean = deci_num /\
    forall d, d < deci_num ->
      nth d mean 0%R =
      (np_sum (map (fun n => nth d (nth n deci_dist_t []) 0) (i :: neighbors))
       / INR (length (i :: neighbors)))%R.
Proof.
  intros Harr Hsnap Hlen Hnb Hsize Hi Hn. pose proof Harr as [H1 H2 H3 H4 H5].
  pose proof (nth_error_length _ _ _ Hnb) as Hlt. rewrite H1 in Hlt.
  pose proof (H5 i neighbors Hnb) as Hr.
  assert (Hrow : forall n, n < net_size ->
            distribution deci_num (nth n deci_dist_t [])).
  { intros n Hlt_n. rewrite Forall_forall in Hsnap. apply Hsnap.
    apply nth_In. lia. }
  exists (normalize (clique_sum (fun _ => 1%R) deci_dist_t i neighbors)).
  split.
  { rewrite weighted_average_ok; try lia.
    - f_equal. f_equal.
      rewrite (clique_sum_ext _ (fun _ => INR size)).
      + rewrite clique_sum_scaled. apply normalize_vscale.
        apply not_0_INR. lia.
      + rewrite Hi. reflexivity.
      + intros n Hin. rewrite (Hn n Hin). reflexivity.
    - intros n Hin. rewrite H3, H4. split; apply Hr; assumption. }
  destruct (Hrow i Hlt) as (Hil & _ & His).
  destruct (equal_sum_fold deci_dist_t deci_num neighbors
              (fun n Hin => proj1 (Hrow n (Hr n Hin)))
              (vscale (nth i deci_dist_t []) 1))
    as (Htl & Hentry & Htotal).
  { rewrite vscale_length. assumption. }
  fold (clique_sum (fun _ => 1%R) deci_dist_t i neighbors) in Htl, Hentry, Htotal.
  rewrite vscale_one in Hentry, Htotal.
  rewrite (np_sum_ones deci_dist_t neighbors) in Htotal
    by (intros n Hin; apply (Hrow n (Hr n Hin))).
  split.
  { unfold normalize. rewrite vdiv_length. assumption. }
  intros d Hd. unfold normalize. rewrite nth_vdiv, Hentry, Htotal, His.
  cbn [map length]. rewrite np_sum_cons, S_INR. f_equal. lra.
Qed.

Lemma equal_sizes_give_the_equal_average_witness :
  exists mean,
    Evolution.weighted_average [2; 2] two_rows two_rows 0 [1] =
    Ok (upd two_rows 0 mean) /\
    length mean = 2 /\
    forall d, d < 2 ->
      nth d mean 0%R =
      (np_sum (map (fun n => nth d (nth n two_rows []) 0) [0%nat; 1%nat])
       / INR (length [0%nat; 1%nat]))%R.
Proof.
  apply (equal_sizes_give_the_equal_average 2 2 two_nodes [0; 1] [2; 2]
           two_rows two_rows 0 [1] 2).
  - apply two_nodes_arrays; reflexivity.
  - unfold two_rows. repeat constructor; simpl; try lra;
      unfold np_sum; simpl; lra.
  - reflexivity.
  - reflexivity.
  - lia.
  - reflexivity.
  - intros n [<-|[]]. reflexivity.
Defined.

(** * The start of the simulation *)

(** X23.  The normalisation of lines 148-150 turns the random numbers into
    distributions whenever no row of them sums to zero, and from this start
    the cycles run without an exception and keep every row a distribution,
    on a well-formed topology in which every node has a neighbor. *)
Theorem random_start_gives_distributions (cycles net_size deci_num : nat)
    (connection_lists : list (list nat)) (random : matrix) :
  Topology.well_formed connection_lists net_size ->
  (forall u, u < net_size -> nth u connection_lists [] <> []) ->
  2 <= deci_num ->
  length random = net_size ->
  (forall r, In r random ->
     length r = deci_num /\ Forall (fun x => (0 <= x < 1)%R) r /\
     np_sum r <> 0%R) ->
  Forall (distribution deci_num) (normalize_rows random) /\
  exists deci_dist' subsizes',
    Evolution.run_cycles cycles net_size deci_num connection_lists
      (repeat 0 net_size) (normalize_rows random) = Ok (deci_dist', subsizes') /\
    length deci_dist' = net_size /\
    Forall (distribution deci_num) deci_dist'.
Proof.
  intros Hwf Hnb Hnum Hlen Hrand.
  assert (Hstart : Forall (distribution deci_num) (normalize_rows random)).
  { unfold normalize_rows. apply Forall_forall. intros r Hr.
    apply in_map_iff in Hr. destruct Hr as (r0 & <- & Hr0).
    destruct (Hrand r0 Hr0) as (Hl & Hnn & Hsum).
    assert (Hnn' : Forall (fun x => (0 <= x)%R) r0).
    { rewrite Forall_forall in *. intros x Hx. apply Hnn. assumption. }
    apply (normalize_distribution deci_num r0 Hl Hnn').
    pose proof (np_sum_nonneg r0 Hnn'). lra. }
  split; [assumption|].
  apply (run_cycles_total net_size deci_num connection_lists Hwf Hnb Hnum);
    [apply repeat_length | | assumption].
  unfold normalize_rows. rewrite length_map. assumption.
Qed.

Lemma random_start_gives_distributions_witness :
  Forall (distribution 2)
    (normalize_rows [[(1 / 2)%R; (1 / 4)%R]; [(3 / 4)%R; (3 / 4)%R]]) /\
  exists deci_dist' subsizes',
    Evolution.run_cycles 2 2 2 two_nodes (repeat 0 2)
      (normalize_rows [[(1 / 2)%R; (1 / 4)%R]; [(3 / 4)%R; (3 / 4)%R]])
      = Ok (deci_dist', subsizes') /\
    length deci_dist' = 2 /\
    Forall (distribution 2) deci_dist'.
Proof.
  apply (random_start_gives_distributions 2 2 2 two_nodes
           [[(1 / 2)%R; (1 / 4)%R]; [(3 / 4)%R; (3 / 4)%R]]
           two_nodes_well_formed).
  - intros u Hu. destruct u as [|[|u]]; simpl; [discriminate | discriminate | lia].
  - lia.
  - reflexivity.
  - intros r Hr. unfold np_sum.
    repeat (destruct Hr as [<-|Hr];
            [split; [reflexivity|]; split;
             [repeat constructor; lra | simpl; lra]|]).
    contradiction.
Defined.
